(** * weave-io query graph compiler: a shallow embedding of [weaveio/parser.py]

    The query graph is a [networkx.DiGraph] whose nodes are label strings.
    The development models the part of networkx the compiler calls (the
    insertion-ordered node and adjacency dictionaries, filtered views,
    [ancestors], [topological_sort], [shortest_path], [has_path]), then the
    functions of [parser.py] on top of it, with Python exceptions as an
    error monad and in-place mutation as explicit state passing, and last
    the [parse] function of [readquery/parse_tree.py]. *)

From Stdlib Require Import List String Ascii Bool Arith ZArith Lia Permutation.
From Stdlib Require Import DecimalString DecimalNat.
Import ListNotations.
Local Open Scope string_scope.
Local Open Scope list_scope.

Set Implicit Arguments.

(** ** Python exceptions *)

Inductive exn : Type :=
| KeyError
| IndexError
| StopIteration
| ValueError (message : string)
| TypeError
| NetworkXError
| NodeNotFound
| NetworkXNoPath
| NetworkXUnfeasible (message : string)
| RuntimeError (message : string)
| OverflowError
| RecursionError
| OutOfFuel.  (* not a Python exception: the iteration bound of a model loop was reached *)

Inductive result (A : Type) : Type :=
| Ok (a : A)
| Raise (e : exn).

Arguments Ok {A} a.
Arguments Raise {A} e.

Definition bind {A B : Type} (c : result A) (k : A -> result B) : result B :=
  match c with
  | Ok a => k a
  | Raise e => Raise e
  end.

Declare Scope exn_scope.
Delimit Scope exn_scope with exn.
Notation "x <- c ;; k" := (bind c (fun x => k))
  (at level 61, c at next level, right associativity) : exn_scope.
Notation "' p <- c ;; k" := (bind c (fun x => let 'p := x in k))
  (at level 61, p pattern, c at next level, right associativity) : exn_scope.
Local Open Scope exn_scope.

Definition from_option {A : Type} (e : exn) (o : option A) : result A :=
  match o with
  | Some a => Ok a
  | None => Raise e
  end.

Fixpoint mapM {A B : Type} (f : A -> result B) (l : list A) : result (list B) :=
  match l with
  | [] => Ok []
  | x :: r => y <- f x ;; ys <- mapM f r ;; Ok (y :: ys)
  end.

Fixpoint filterM {A : Type} (f : A -> result bool) (l : list A) : result (list A) :=
  match l with
  | [] => Ok []
  | x :: r => b <- f x ;; ys <- filterM f r ;; Ok (if b then x :: ys else ys)
  end.

(** ** Small list helpers in Python's vocabulary *)

Definition mem (x : string) (l : list string) : bool :=
  existsb (String.eqb x) l.

Definition pair_eqb (e1 e2 : string * string) : bool :=
  String.eqb (fst e1) (fst e2) && String.eqb (snd e1) (snd e2).

Definition mem_pair (e : string * string) (l : list (string * string)) : bool :=
  existsb (pair_eqb e) l.

(** [l[-1]] and [l[-2]]: [IndexError] on a list that is too short. *)
Definition last_item (l : list string) : result string :=
  match rev l with
  | x :: _ => Ok x
  | [] => Raise IndexError
  end.

Definition last_but_one (l : list string) : result string :=
  match rev l with
  | _ :: x :: _ => Ok x
  | _ => Raise IndexError
  end.

(** ** Attribute dictionaries

    A node or edge of a networkx graph carries a dict of attributes;
    [add_node] and [add_edge] start from the empty dict and [update] it with
    the keyword arguments. *)

Class Attrs (A : Type) : Type := {
  no_attrs : A;
  update : A -> A -> A
}.

#[export] Instance unit_Attrs : Attrs unit :=
  {| no_attrs := tt; update := fun _ _ => tt |}.

(** ** [networkx.DiGraph]

    [_node] is the node dictionary in insertion order.  [_adj] holds the
    edges in insertion order: restricted to one source it lists that node's
    successor dictionary, restricted to one target its predecessor
    dictionary, both in the order networkx iterates them. *)

Module nx.

Section DiGraph.
Context {A E : Type} `{Attrs A} `{Attrs E}.

Record DiGraph : Type := {
  _node : list (string * A);
  _adj : list ((string * string) * E)
}.

Definition empty : DiGraph := {| _node := []; _adj := [] |}.

Definition nodes (g : DiGraph) : list string := map fst (_node g).

Definition number_of_nodes (g : DiGraph) : nat := List.length (_node g).

Definition has_node (g : DiGraph) (n : string) : bool := mem n (nodes g).

Fixpoint lookup {V : Type} (n : string) (d : list (string * V)) : option V :=
  match d with
  | [] => None
  | (k, v) :: r => if String.eqb k n then Some v else lookup n r
  end.

(** [g.nodes[n]]: [None] stands for the [KeyError]. *)
Definition node_attrs (g : DiGraph) (n : string) : option A := lookup n (_node g).

Fixpoint lookup_edge (e : string * string) (d : list ((string * string) * E)) : option E :=
  match d with
  | [] => None
  | (k, v) :: r => if pair_eqb k e then Some v else lookup_edge e r
  end.

(** [g.edges[(u, v)]]: [None] stands for the [KeyError]. *)
Definition edge_attrs (g : DiGraph) (u v : string) : option E :=
  lookup_edge (u, v) (_adj g).

Definition has_edge (g : DiGraph) (u v : string) : bool :=
  match edge_attrs g u v with Some _ => true | None => false end.

Fixpoint update_node (n : string) (a : A) (d : list (string * A)) : list (string * A) :=
  match d with
  | [] => [(n, update no_attrs a)]
  | (k, v) :: r =>
      if String.eqb k n then (k, update v a) :: r else (k, v) :: update_node n a r
  end.

Definition add_node (g : DiGraph) (n : string) (a : A) : DiGraph :=
  {| _node := update_node n a (_node g); _adj := _adj g |}.

Fixpoint update_edge (e : string * string) (a : E) (d : list ((string * string) * E))
  : list ((string * string) * E) :=
  match d with
  | [] => [(e, update no_attrs a)]
  | (k, v) :: r =>
      if pair_eqb k e then (k, update v a) :: r else (k, v) :: update_edge e a r
  end.

(** [add_edge] first creates the endpoints that are missing, with no
    attributes, then creates the edge or updates its dict in place. *)
Definition add_edge (g : DiGraph) (u v : string) (a : E) : DiGraph :=
  let g1 := if has_node g u then g else add_node g u no_attrs in
  let g2 := if has_node g1 v then g1 else add_node g1 v no_attrs in
  {| _node := _node g2; _adj := update_edge (u, v) a (_adj g2) |}.

Definition remove_edge (g : DiGraph) (u v : string) : result DiGraph :=
  if has_edge g u v then
    Ok {| _node := _node g;
          _adj := filter (fun kv => negb (pair_eqb (fst kv) (u, v))) (_adj g) |}
  else Raise NetworkXError.

Definition remove_node (g : DiGraph) (n : string) : result DiGraph :=
  if has_node g n then
    Ok {| _node := filter (fun kv => negb (String.eqb (fst kv) n)) (_node g);
          _adj := filter (fun kv => negb (String.eqb (fst (fst kv)) n)
                                    && negb (String.eqb (snd (fst kv)) n)) (_adj g) |}
  else Raise NetworkXError.

(** Successor and predecessor dictionaries of a node that is in the graph. *)
Definition succ (g : DiGraph) (n : string) : list string :=
  map (fun kv => snd (fst kv)) (filter (fun kv => String.eqb (fst (fst kv)) n) (_adj g)).

Definition pred (g : DiGraph) (n : string) : list string :=
  map (fun kv => fst (fst kv)) (filter (fun kv => String.eqb (snd (fst kv)) n) (_adj g)).

Definition successors (g : DiGraph) (n : string) : result (list string) :=
  if has_node g n then Ok (succ g n) else Raise NetworkXError.

Definition predecessors (g : DiGraph) (n : string) : result (list string) :=
  if has_node g n then Ok (pred g n) else Raise NetworkXError.

Definition out_edges (g : DiGraph) (n : string) : list (string * string) :=
  map (fun v => (n, v)) (succ g n).

Definition in_edges (g : DiGraph) (n : string) : list (string * string) :=
  map (fun u => (u, n)) (pred g n).

(** [g.edges]: by source in node order, then by successor. *)
Definition edges (g : DiGraph) : list (string * string) :=
  flat_map (out_edges g) (nodes g).

Definition in_degree (g : DiGraph) (n : string) : nat := List.length (pred g n).

(** [g.copy()]: a new graph that is given the nodes of [g] in their order
    and then the edges of [g], source by source in node order, each
    source's successors in their order.  The successor dictionaries come
    out as they were; a predecessor dictionary comes out in the node order
    of the sources. *)
Definition copy (g : DiGraph) : DiGraph :=
  {| _node := _node g;
     _adj := flat_map (fun n => filter (fun kv => String.eqb (fst (fst kv)) n) (_adj g))
                      (nodes g) |}.

(** [nx.subgraph_view(g, filter_node, filter_edge)], read at once. *)
Definition subgraph_view (g : DiGraph) (filter_node : string -> bool)
    (filter_edge : string -> string -> bool) : DiGraph :=
  {| _node := filter (fun kv => filter_node (fst kv)) (_node g);
     _adj := filter (fun kv => let '(u, v) := fst kv in
                               filter_node u && filter_node v && filter_edge u v)
                    (_adj g) |}.

(** [nx.restricted_view(g, nodes, edges)] *)
Definition restricted_view (g : DiGraph) (hidden_nodes : list string)
    (hidden_edges : list (string * string)) : DiGraph :=
  subgraph_view g (fun n => negb (mem n hidden_nodes))
                  (fun u v => negb (mem_pair (u, v) hidden_edges)).

(** *** Reachability *)

Definition add_new (seen ws : list string) : list string :=
  fold_left (fun acc w => if mem w acc then acc else acc ++ [w]) ws seen.

(** Breadth-first closure of [level] under [next]; [seen] lists the nodes
    reached so far in the order they were found. *)
Fixpoint bfs (fuel : nat) (next : string -> list string) (seen level : list string)
  : list string :=
  match fuel with
  | 0 => seen
  | S fuel' =>
      match level with
      | [] => seen
      | _ =>
          let seen' := add_new seen (flat_map next level) in
          bfs fuel' next seen' (skipn (List.length seen) seen')
      end
  end.

Definition remove_item (n : string) (l : list string) : list string :=
  filter (fun m => negb (String.eqb m n)) l.

(** [nx.ancestors(g, source)]: the nodes with a path to [source], without
    [source] itself.  Python returns a set; only membership is used. *)
Definition ancestors (g : DiGraph) (source : string) : result (list string) :=
  if has_node g source then
    Ok (remove_item source (bfs (S (number_of_nodes g)) (pred g) [source] [source]))
  else Raise NetworkXError.

Definition descendants (g : DiGraph) (source : string) : result (list string) :=
  if has_node g source then
    Ok (remove_item source (bfs (S (number_of_nodes g)) (succ g) [source] [source]))
  else Raise NetworkXError.

(** [nx.has_path(g, source, target)]: [NetworkXNoPath] is caught,
    [NodeNotFound] is not. *)
Definition has_path (g : DiGraph) (source target : string) : result bool :=
  if has_node g source && has_node g target then
    Ok (mem target (bfs (S (number_of_nodes g)) (succ g) [source] [source]))
  else Raise NodeNotFound.

(** *** [nx.topological_sort]: Kahn's algorithm by generations *)

Fixpoint decrement (child : string) (indegree_map : list (string * nat))
  : option (list (string * nat) * bool) :=
  match indegree_map with
  | [] => None
  | (k, d) :: r =>
      if String.eqb k child then
        match d - 1 with
        | 0 => Some (r, true)
        | d' => Some ((k, d') :: r, false)
        end
      else
        match decrement child r with
        | Some (r', z) => Some ((k, d) :: r', z)
        | None => None
        end
  end.

Definition visit_children (children : list string)
    (st : list (string * nat) * list string) : result (list (string * nat) * list string) :=
  fold_left
    (fun acc child =>
       '(indegree_map, zero_indegree) <- acc ;;
       match decrement child indegree_map with
       | None => Raise (RuntimeError "Graph changed during iteration")
       | Some (indegree_map', true) => Ok (indegree_map', zero_indegree ++ [child])
       | Some (indegree_map', false) => Ok (indegree_map', zero_indegree)
       end)
    children (Ok st).

Definition visit_generation (g : DiGraph) (this_generation : list string)
    (indegree_map : list (string * nat)) : result (list (string * nat) * list string) :=
  fold_left
    (fun acc node => st <- acc ;; visit_children (succ g node) st)
    this_generation (Ok (indegree_map, [])).

Fixpoint topological_generations (fuel : nat) (g : DiGraph)
    (indegree_map : list (string * nat)) (zero_indegree : list string)
  : result (list string) :=
  match zero_indegree with
  | [] =>
      match indegree_map with
      | [] => Ok []
      | _ => Raise (NetworkXUnfeasible
                      "Graph contains a cycle or graph changed during iteration")
      end
  | _ =>
      match fuel with
      | 0 => Raise OutOfFuel
      | S fuel' =>
          '(indegree_map', zero_indegree') <-
             visit_generation g zero_indegree indegree_map ;;
          rest <- topological_generations fuel' g indegree_map' zero_indegree' ;;
          Ok (zero_indegree ++ rest)
      end
  end.

Definition topological_sort (g : DiGraph) : result (list string) :=
  topological_generations (number_of_nodes g) g
    (filter (fun kv => negb (Nat.eqb (snd kv) 0)) (map (fun v => (v, in_degree g v)) (nodes g)))
    (filter (fun v => Nat.eqb (in_degree g v) 0) (nodes g)).

(** *** [nx.shortest_path(g, source, target)]: bidirectional breadth-first search *)

Definition in_dict (n : string) (d : list (string * option string)) : bool :=
  mem n (map fst d).

Inductive search : Type :=
| Found (w : string)
| Searching (fringe : list string).

(** One level from the source side: [pred] maps a reached node to the node
    it was reached from. *)
Fixpoint forward_level (steps : list (string * string))
    (pred_ succ_ : list (string * option string)) (fringe : list string)
  : list (string * option string) * search :=
  match steps with
  | [] => (pred_, Searching fringe)
  | (v, w) :: rest =>
      let '(pred_, fringe) :=
        if in_dict w pred_ then (pred_, fringe)
        else (pred_ ++ [(w, Some v)], fringe ++ [w]) in
      if in_dict w succ_ then (pred_, Found w)
      else forward_level rest pred_ succ_ fringe
  end.

Fixpoint reverse_level (steps : list (string * string))
    (pred_ succ_ : list (string * option string)) (fringe : list string)
  : list (string * option string) * search :=
  match steps with
  | [] => (succ_, Searching fringe)
  | (v, w) :: rest =>
      let '(succ_, fringe) :=
        if in_dict w succ_ then (succ_, fringe)
        else (succ_ ++ [(w, Some v)], fringe ++ [w]) in
      if in_dict w pred_ then (succ_, Found w)
      else reverse_level rest pred_ succ_ fringe
  end.

Definition steps_of (next : string -> list string) (level : list string)
  : list (string * string) :=
  flat_map (fun v => map (fun w => (v, w)) (next v)) level.

Fixpoint bidirectional_pred_succ (fuel : nat) (g : DiGraph)
    (pred_ succ_ : list (string * option string))
    (forward_fringe reverse_fringe : list string)
  : result (list (string * option string) * list (string * option string) * string) :=
  match forward_fringe, reverse_fringe with
  | [], _ | _, [] => Raise NetworkXNoPath
  | _, _ =>
      match fuel with
      | 0 => Raise OutOfFuel
      | S fuel' =>
          if Nat.leb (List.length forward_fringe) (List.length reverse_fringe) then
            match forward_level (steps_of (succ g) forward_fringe) pred_ succ_ [] with
            | (pred_, Found w) => Ok (pred_, succ_, w)
            | (pred_, Searching fringe) =>
                bidirectional_pred_succ fuel' g pred_ succ_ fringe reverse_fringe
            end
          else
            match reverse_level (steps_of (pred g) reverse_fringe) pred_ succ_ [] with
            | (succ_, Found w) => Ok (pred_, succ_, w)
            | (succ_, Searching fringe) =>
                bidirectional_pred_succ fuel' g pred_ succ_ forward_fringe fringe
            end
      end
  end.

(** Follow a dict of links from [w] until the entry [None]. *)
Fixpoint follow (fuel : nat) (d : list (string * option string)) (w : string)
  : list string :=
  match fuel with
  | 0 => [w]
  | S fuel' =>
      match lookup w d with
      | Some (Some w') => w :: follow fuel' d w'
      | _ => [w]
      end
  end.

Definition shortest_path (g : DiGraph) (source target : string) : result (list string) :=
  if has_node g source && has_node g target then
    if String.eqb target source then Ok [source]
    else
      '(pred_, succ_, w) <-
         bidirectional_pred_succ (2 * S (number_of_nodes g)) g
           [(source, None)] [(target, None)] [source] [target] ;;
      Ok (rev (follow (List.length pred_) pred_ w)
            ++ tl (follow (List.length succ_) succ_ w))
  else Raise NodeNotFound.

End DiGraph.

Arguments DiGraph A E : clear implicits.

End nx.

(** ** [parser.py]: node and edge data *)

(** The attribute dict of an edge; the compiler only ever uses these keys. *)
Record EdgeData : Type := {
  type_ : option string;
  label_ : option string;
  operation_ : option string;
  style_ : option string
}.

Definition or_else {V : Type} (new old : option V) : option V :=
  match new with Some _ => new | None => old end.

#[export] Instance EdgeData_Attrs : Attrs EdgeData := {|
  no_attrs := {| type_ := None; label_ := None; operation_ := None; style_ := None |};
  update := fun old new =>
    {| type_ := or_else (type_ new) (type_ old);
       label_ := or_else (label_ new) (label_ old);
       operation_ := or_else (operation_ new) (operation_ old);
       style_ := or_else (style_ new) (style_ old) |}
|}.

(** The reachability snapshot of a node: a graph of entity names. *)
Definition NameGraph : Type := nx.DiGraph unit unit.

(** The attributes [make_node] stores on a node. *)
Record NodeData : Type := {
  subgraph_ : NameGraph;
  scalars_ : list string;
  name_ : string;
  i_ : nat
}.

(** A node created as a side effect of [add_edge] has the empty dict. *)
#[export] Instance NodeData_Attrs : Attrs (option NodeData) := {|
  no_attrs := None;
  update := fun old new => or_else new old
|}.

Definition Graph : Type := nx.DiGraph (option NodeData) EdgeData.

(** ** [parser.py]: the graph builder *)

Definition newline : string := String (ascii_of_nat 10) EmptyString.

(** [f'{i}'] for a non-negative int. *)
Definition str_of_nat (n : nat) : string := NilEmpty.string_of_uint (Nat.to_uint n).

(** Depth-first preorder from [n]; [visited] is the order of discovery, as
    the node order of [networkx.dfs_tree]. *)
Fixpoint dfs (fuel : nat) (g : NameGraph) (visited : list string) (n : string)
  : list string :=
  match fuel with
  | 0 => visited
  | S fuel' =>
      fold_left
        (fun vis child => if mem child vis then vis else dfs fuel' g (vis ++ [child]) child)
        (nx.succ g n) visited
  end.

Definition dfs_tree (g : NameGraph) (source : string) : list string :=
  dfs (nx.number_of_nodes g) g [source] source.

(** [graph2string]: the sources are a Python set, iterated in an order the
    language leaves open when there are several; the model takes node order. *)
Definition graph2string (graph : NameGraph) : string :=
  let sources := filter (fun n => Nat.eqb (List.length (nx.pred graph n)) 0) (nx.nodes graph) in
  String.concat "," (map (fun source => String.concat "->" (dfs_tree graph source)) sources).

Definition make_node (graph : Graph) (parent : option string) (subgraph : NameGraph)
    (scalars : list string) (label type operation : string) (edge_style : option string)
  : Graph * string :=
  let _name := label in
  let i := nx.number_of_nodes graph in
  let label :=
    match nx.node_attrs graph label with
    | Some (Some d) => (str_of_nat i ++ newline ++ d.(name_))%string
    | _ => (str_of_nat i ++ newline ++ label)%string
    end in
  let path := graph2string subgraph in
  let label := (label ++ newline ++ path)%string in
  let graph := nx.add_node graph label
                 (Some {| subgraph_ := subgraph; scalars_ := scalars; name_ := _name; i_ := i |}) in
  match parent with
  | Some parent =>
      (nx.add_edge graph parent label
         {| type_ := Some type; label_ := Some (type ++ "-" ++ operation)%string;
            operation_ := Some operation; style_ := edge_style |},
       label)
  | None => (graph, label)
  end.

Definition add_start (graph : Graph) (name : string) : Graph * string :=
  let g := nx.add_node (nx.empty : NameGraph) name tt in
  make_node graph None g [] name "" "" None.

(** [graph.nodes[n][key]]: [KeyError] when the node is missing or was created
    by [add_edge] without attributes. *)
Definition node_data (graph : Graph) (n : string) : result NodeData :=
  match nx.node_attrs graph n with
  | Some (Some d) => Ok d
  | _ => Raise KeyError
  end.

(** [str(path)] for a list of plain strings. *)
Definition repr_list (path : list string) : string :=
  ("[" ++ String.concat ", " (map (fun s => "'" ++ s ++ "'") path) ++ "]")%string.

Definition no_edge_data : EdgeData := no_attrs.

Definition add_traversal (graph : Graph) (parent : string) (path : list string)
  : result (Graph * string) :=
  d <- node_data graph parent ;;
  path0 <- from_option IndexError (hd_error path) ;;
  let subgraph := nx.add_edge d.(subgraph_) d.(name_) path0 tt in
  let subgraph :=
    fold_left (fun sg ab => nx.add_edge sg (fst ab) (snd ab) tt)
              (combine (removelast path) (tl path)) subgraph in
  let cypher := ("OPTIONAL MATCH " ++ repr_list path)%string in
  Ok (make_node graph (Some parent) subgraph [] (last path "") "traversal" cypher None).

Definition add_filter (graph : Graph) (parent : string) (dependencies : list string)
    (operation : string) : result (Graph * string) :=
  d <- node_data graph parent ;;
  let '(graph, n) :=
    make_node graph (Some parent) d.(subgraph_) [] d.(name_) "filter"
              ("WHERE " ++ operation)%string None in
  Ok (fold_left
        (fun g dep => nx.add_edge g dep n
           {| type_ := Some "dep"; label_ := None; operation_ := None; style_ := None |})
        dependencies graph, n).

Definition add_aggregation (graph : Graph) (parent wrt operation type : string)
  : result (Graph * string) :=
  w <- node_data graph wrt ;;
  p <- node_data graph parent ;;
  let '(graph, n) :=
    make_node graph (Some parent) w.(subgraph_) (p.(scalars_) ++ [operation])
              operation type operation None in
  Ok (nx.add_edge graph n wrt
        {| type_ := Some "wrt"; label_ := None; operation_ := None; style_ := Some "dashed" |},
      n).

Definition add_operation (graph : Graph) (parent : string) (dependencies : list string)
    (operation : string) : result (Graph * string) :=
  p <- node_data graph parent ;;
  let '(graph, n) :=
    make_node graph (Some parent) p.(subgraph_) (p.(scalars_) ++ [operation])
              operation "operation" ("WITH *, " ++ operation ++ " as ...")%string None in
  Ok (fold_left (fun g dep => nx.add_edge g dep n no_edge_data) dependencies graph, n).

(** [parse_edge] *)
Definition parse_edge (graph : Graph) (a b : string) : result string :=
  d <- from_option KeyError (nx.edge_attrs graph a b) ;;
  from_option KeyError d.(operation_).

(** ** [class QueryGraph] *)

Record QueryGraph : Type := {
  G : Graph;
  start : string
}.

Definition QueryGraph_init : QueryGraph :=
  let '(g, s) := add_start nx.empty "data" in
  {| G := g; start := s |}.

(** [graph.edges[(a, b)].get('type', '')] on an edge of the graph. *)
Definition get_type (d : EdgeData) : string :=
  match d.(type_) with Some t => t | None => "" end.

Definition edge_type (graph : Graph) (a b : string) : string :=
  match nx.edge_attrs graph a b with
  | Some d => get_type d
  | None => ""
  end.

(** ** [list.sort] with a [cmp_to_key] key

    CPython sorts a list of fewer than 64 items by finding the run at its
    head ([count_run], reversed when strictly descending) and inserting the
    remaining items one by one by binary search ([binarysort]).  The only
    comparison is [<], which for a [cmp_to_key] key is [mycmp(a, b) < 0].
    Longer lists are cut into such runs and merged; the merge is not
    modelled, and is not reached when the first run covers the list. *)

Section Sort.
Context {T : Type} (lt : T -> T -> bool).

Fixpoint run_ascending (prev : T) (l : list T) : nat :=
  match l with
  | [] => 0
  | x :: r => if lt x prev then 0 else S (run_ascending x r)
  end.

Fixpoint run_descending (prev : T) (l : list T) : nat :=
  match l with
  | [] => 0
  | x :: r => if lt x prev then S (run_descending x r) else 0
  end.

Definition count_run (l : list T) : nat * bool :=
  match l with
  | [] => (0, false)
  | [x] => (1, false)
  | x :: ((y :: r) as l') =>
      if lt y x then (1 + run_descending x l', true)
      else (1 + run_ascending x l', false)
  end.

Fixpoint bisect (fuel : nat) (pivot : T) (sorted : list T) (l r : nat) : nat :=
  match fuel with
  | 0 => l
  | S fuel' =>
      if Nat.ltb l r then
        let p := l + (r - l) / 2 in
        match nth_error sorted p with
        | Some x =>
            if lt pivot x then bisect fuel' pivot sorted l p
            else bisect fuel' pivot sorted (S p) r
        | None => l
        end
      else l
  end.

Definition binary_insert (sorted : list T) (pivot : T) : list T :=
  let l := bisect (S (List.length sorted)) pivot sorted 0 (List.length sorted) in
  firstn l sorted ++ pivot :: skipn l sorted.

Definition list_sort (l : list T) : list T :=
  let '(n, descending) := count_run l in
  let run := firstn n l in
  fold_left binary_insert (skipn n l) (if descending then rev run else run).

End Sort.

(** ** [parser.py]: the branch resolver *)

Definition compare_two_dags (dag1 dag2 : list string) : Z :=
  if existsb (fun n => mem n dag2) dag1 then 1%Z
  else if existsb (fun n => mem n dag1) dag2 then (-1)%Z
  else 0%Z.

(** [K(a) < K(b)] for the key class that [cmp_to_key] builds. *)
Definition key_lt (a b : list string) : bool := (compare_two_dags a b <? 0)%Z.

(** [dag] without the edges of one type and [graph] with only them, as
    [nx.subgraph_view] with a [filter_edge] on [.get('type', '')]. *)
Definition without_type (graph : Graph) (t : string) : Graph :=
  nx.subgraph_view graph (fun _ => true)
    (fun a b => negb (String.eqb (edge_type graph a b) t)).

Definition only_type (graph : Graph) (t : string) : Graph :=
  nx.subgraph_view graph (fun _ => true)
    (fun a b => String.eqb (edge_type graph a b) t).

(** [any(i[-1]['type'] == 'unwind' for i in dag.in_edges(parent, data=True))]:
    an edge without a type raises before a later unwind edge is seen. *)
Fixpoint any_unwind (dag : Graph) (es : list (string * string)) : result bool :=
  match es with
  | [] => Ok false
  | (u, v) :: r =>
      d <- from_option KeyError (nx.edge_attrs dag u v) ;;
      t <- from_option KeyError d.(type_) ;;
      if String.eqb t "unwind" then Ok true else any_unwind dag r
  end.

Definition branch_of (dag : Graph) (parent future_aggregation : string)
  : result (list string) :=
  agg_ancestors <- nx.ancestors dag future_aggregation ;;
  node_ancestors <- nx.ancestors dag parent ;;
  let sub_dag :=
    nx.subgraph_view dag (fun n => mem n agg_ancestors && negb (mem n node_ancestors))
                     (fun _ _ => true) in
  order <- nx.topological_sort sub_dag ;;
  Ok (tl order ++ [future_aggregation; parent]).

Definition get_branches (dag backwards : Graph) (parent : string)
  : result (list (list string) * bool) :=
  future_aggregations <- nx.predecessors backwards parent ;;
  branches <- mapM (branch_of dag parent) future_aggregations ;;
  let branches := list_sort key_lt branches in
  unwound <- any_unwind dag (nx.in_edges dag parent) ;;
  Ok (branches, negb unwound).

Definition sever_branch_wrt_connections (graph : Graph) (branch : list string)
  : result Graph :=
  agg <- last_but_one branch ;;
  wrt <- last_item branch ;;
  nx.remove_edge graph agg wrt.

(** ** [parser.py]: state preservation *)

(** The [for ... else] of [preserve_state_for_subqueries]: the first step of
    the reversed path that is a traversal edge gives [wrt]. *)
Fixpoint first_traversal (graph : Graph) (steps : list (string * string))
  : result string :=
  match steps with
  | [] => Raise (ValueError "Fatal error: BUG: No part of this branch contains a traversal")
  | (b, wrt) :: r =>
      d <- from_option KeyError (nx.edge_attrs graph wrt b) ;;
      t <- from_option KeyError d.(type_) ;;
      if String.eqb t "traversal" then Ok wrt else first_traversal graph r
  end.

Definition move_out_edge (aggregated_node unwound : string) (acc : result Graph)
    (out_edge : string * string) : result Graph :=
  graph <- acc ;;
  if negb (String.eqb (snd out_edge) aggregated_node) then
    d <- from_option KeyError (nx.edge_attrs graph (fst out_edge) (snd out_edge)) ;;
    nx.remove_edge (nx.add_edge graph unwound (snd out_edge) d) (fst out_edge) (snd out_edge)
  else Ok graph.

Definition move_in_edge (unwound : string) (acc : result Graph)
    (in_edge : string * string) : result Graph :=
  graph <- acc ;;
  d <- from_option KeyError (nx.edge_attrs graph (fst in_edge) (snd in_edge)) ;;
  nx.remove_edge (nx.add_edge graph (fst in_edge) unwound d) (fst in_edge) (snd in_edge).

Definition preserve_state_for_subqueries (graph : Graph) (start node : string)
  : result (Graph * string * string) :=
  path <- nx.shortest_path (without_type graph "wrt") start node ;;
  let path_backwards := rev path in
  wrt <- first_traversal graph (combine (removelast path_backwards) (tl path_backwards)) ;;
  '(graph, aggregated_node) <- add_aggregation graph node wrt "collect()" "pre-subquery" ;;
  nd <- node_data graph node ;;
  let '(graph, unwound) :=
    make_node graph (Some aggregated_node) nd.(subgraph_) [] "unwind" "unwind" "unwind" None in
  graph <- fold_left (move_out_edge aggregated_node unwound) (nx.out_edges graph node)
                     (Ok graph) ;;
  graph <- fold_left (move_in_edge unwound) (nx.in_edges (only_type graph "wrt") node)
                     (Ok graph) ;;
  Ok (graph, aggregated_node, unwound).

(** ** [parser.py]: the topological compiler *)

(** What [get_statement_data] yields: the attribute dicts of the two nodes
    and of the edge, read when the statement is produced, and the flag. *)
Record Statement : Type := {
  a_data : option NodeData;
  b_data : option NodeData;
  edge_data : EdgeData;
  is_aggregating : bool
}.

(** [save_state]: [d] is the dict of the edge [(wrt, node)], rewritten in
    place and then passed as keyword arguments to [make_node]. *)
Definition set_edge_attrs (graph : Graph) (u v : string) (d : EdgeData) : Graph :=
  {| nx._node := nx._node graph;
     nx._adj := map (fun kv => if pair_eqb (fst kv) (u, v) then (fst kv, d) else kv)
                    (nx._adj graph) |}.

Definition load_successor (wrt node aggregated : string) (acc : result Graph)
    (successor : string) : result Graph :=
  graph <- acc ;;
  if negb (String.eqb successor aggregated) then
    nd <- node_data graph node ;;
    d <- from_option KeyError (nx.edge_attrs graph wrt node) ;;
    label <- from_option KeyError d.(label_) ;;
    type <- from_option KeyError d.(type_) ;;
    operation <- from_option KeyError d.(operation_) ;;
    let '(graph, loaded_state) :=
      make_node graph (Some wrt) nd.(subgraph_) [] label type operation d.(style_) in
    sd <- from_option KeyError (nx.edge_attrs graph node successor) ;;
    nx.remove_edge (nx.add_edge graph loaded_state successor sd) node successor
  else Ok graph.

Definition save_state (graph : Graph) (wrt node : string) : result (Graph * string) :=
  '(graph, aggregated) <- add_aggregation graph node wrt "save-state" "save-state" ;;
  d <- from_option KeyError (nx.edge_attrs graph wrt node) ;;
  nd <- node_data graph node ;;
  let graph :=
    set_edge_attrs graph wrt node
      {| type_ := Some "load-state";
         label_ := Some ("load-state " ++ nd.(name_))%string;
         operation_ := Some "load-state";
         style_ := d.(style_) |} in
  successors <- nx.successors graph node ;;
  graph <- fold_left (load_successor wrt node aggregated) successors (Ok graph) ;;
  Ok (graph, aggregated).

(** [has_outside_dependencies]: [graph] is the view, already read. *)
Fixpoint any_outside (super_graph graph : Graph) (node : string) (ns : list string)
  : result bool :=
  match ns with
  | [] => Ok false
  | n :: r =>
      d <- from_option KeyError (nx.edge_attrs super_graph node n) ;;
      t <- from_option KeyError d.(type_) ;;
      if negb (String.eqb t "load-state") && negb (nx.has_node graph n) then Ok true
      else any_outside super_graph graph node r
  end.

Definition has_outside_dependencies (super_graph graph : Graph) (node : string)
  : result bool :=
  ns <- nx.successors super_graph node ;;
  any_outside super_graph graph node ns.

(** A view is a filter over [original_graph], evaluated when it is read:
    [Sub graph nodes edges path_to] is the view that [subgraph_view] of
    [parser.py] builds on [graph], with the hidden nodes and edges it listed
    when it was called and the [path_to] filter, which is looked up in
    [graph] at every read. *)
Inductive View : Type :=
| Original
| Sub (graph : View) (excluded_nodes : list string)
      (excluded_edges : list (string * string)) (path_to : option string).

Fixpoint read (v : View) (original_graph : Graph) : result Graph :=
  match v with
  | Original => Ok original_graph
  | Sub graph excluded_nodes excluded_edges path_to =>
      g <- read graph original_graph ;;
      let r := nx.restricted_view g excluded_nodes excluded_edges in
      match path_to with
      | None => Ok r
      | Some target =>
          keep <- filterM (fun n => nx.has_path g n target) (nx.nodes r) ;;
          Ok (nx.subgraph_view r (fun n => mem n keep) (fun _ _ => true))
      end
  end.

(** [subgraph_view] of [parser.py], for the keyword arguments its callers
    pass.  The lists are computed from the view as it is now. *)
Definition subgraph_view (original_graph : Graph) (graph : View)
    (excluded_edge_type only_edge_type : option string)
    (only_nodes : option (list string)) (excluded_edges : list (string * string))
    (path_to : option string) : result View :=
  excluded_edges <-
    match excluded_edge_type with
    | Some t =>
        g <- read graph original_graph ;;
        Ok (excluded_edges
              ++ filter (fun e => String.eqb (edge_type g (fst e) (snd e)) t) (nx.edges g))
    | None => Ok excluded_edges
    end ;;
  excluded_edges <-
    match only_edge_type with
    | Some t =>
        g <- read graph original_graph ;;
        Ok (excluded_edges
              ++ filter (fun e => negb (String.eqb (edge_type g (fst e) (snd e)) t))
                        (nx.edges g))
    | None => Ok excluded_edges
    end ;;
  excluded_nodes <-
    match only_nodes with
    | Some ns =>
        g <- read graph original_graph ;;
        Ok (filter (fun n => negb (mem n ns)) (nx.nodes g))
    | None => Ok []
    end ;;
  Ok (Sub graph excluded_nodes excluded_edges
          (match path_to with Some "" => None | _ => path_to end)).

Definition get_statement_data (graph : Graph) (a b : string) (is_aggregating : bool)
  : result Statement :=
  da <- from_option KeyError (nx.node_attrs graph a) ;;
  db <- from_option KeyError (nx.node_attrs graph b) ;;
  e <- from_option KeyError (nx.edge_attrs graph a b) ;;
  Ok {| a_data := da; b_data := db; edge_data := e; is_aggregating := is_aggregating |}.

Definition fatal_message : string :=
  "Fatal: Query node has > 1 unaggregated-successors. This is a bug".

(** The result of running the generator to its end: the statements it
    yielded, the state of [original_graph], and the exception that ended it,
    if one did. *)
Record Run : Type := {
  graph_after : Graph;
  emitted : list Statement;
  raised : option exn
}.

Definition stop (original_graph : Graph) (e : option exn) : Run :=
  {| graph_after := original_graph; emitted := []; raised := e |}.

Definition after (statements : list Statement) (r : Run) : Run :=
  {| graph_after := graph_after r; emitted := statements ++ emitted r; raised := raised r |}.

(** The two views every frame of [traverse_query_graph] derives from [G]. *)
Definition dag_and_backwards (original_graph : Graph) (G : View) : result (View * View) :=
  dag <- subgraph_view original_graph G (Some "wrt") None None [] None ;;
  backwards <- subgraph_view original_graph G None (Some "wrt") None [] None ;;
  Ok (dag, backwards).

(** The successors of [node] in the dependency graph that are not reached by
    a load-state edge. *)
Definition unaggregated_successors (original_graph : Graph) (dag : View) (node : string)
  : result (list string) :=
  v <- subgraph_view original_graph dag (Some "load-state") None None [] None ;;
  g <- read v original_graph ;;
  nx.successors g node.

(** What one pass of the [while] loop finds before it acts. *)
Inductive Step : Type :=
| Finished
| Branch (branch : list string)
| Advance (successor : string) (statement : Statement).

Definition next_step (original_graph : Graph) (G dag backwards : View)
    (node : string) (aggregating : bool) : result Step :=
  g <- read G original_graph ;;
  match nx.edges g with
  | [] => Ok Finished
  | _ =>
      d <- read dag original_graph ;;
      b <- read backwards original_graph ;;
      '(branches, _) <- get_branches d b node ;;
      match branches with
      | branch :: _ => Ok (Branch branch)
      | [] =>
          unaggregated <- unaggregated_successors original_graph dag node ;;
          if Nat.ltb 1 (List.length unaggregated) then
            Raise (NetworkXUnfeasible fatal_message)
          else
            sb <- nx.successors b node ;;
            sd <- nx.successors d node ;;
            match sb ++ sd with
            | [] => Ok Finished
            | successor :: _ =>
                statement <- get_statement_data g node successor aggregating ;;
                Ok (Advance successor statement)
            end
      end
  end.

(** After the statement is yielded: save the state if the successor is used
    outside the branch, then delete the edge. *)
Definition consume_edge (original_graph : Graph) (G dag backwards : View)
    (output node start successor : string) (aggregating : bool)
  : result (Graph * View * View * View) :=
  '(original_graph, G, dag, backwards) <-
    (if aggregating && negb (String.eqb successor output) then
       g <- read G original_graph ;;
       outside <- has_outside_dependencies original_graph g successor ;;
       if outside then
         '(original_graph, _) <- save_state original_graph start successor ;;
         G <- subgraph_view original_graph G None None None [] (Some output) ;;
         '(dag, backwards) <- dag_and_backwards original_graph G ;;
         Ok (original_graph, G, dag, backwards)
       else Ok (original_graph, G, dag, backwards)
     else Ok (original_graph, G, dag, backwards)) ;;
  original_graph <- nx.remove_edge original_graph node successor ;;
  Ok (original_graph, G, dag, backwards).

(** The sub-graph of a branch and the views of the frame that compiles it. *)
Definition enter_branch (original_graph : Graph) (G : View) (branch : list string)
    (node : string) : result (string * View * View * View) :=
  agg <- last_but_one branch ;;
  sub_graph <- subgraph_view original_graph G None None (Some branch) [(agg, node)]
                             (Some agg) ;;
  '(dag, backwards) <- dag_and_backwards original_graph sub_graph ;;
  Ok (agg, sub_graph, dag, backwards).

Definition leave_branch (original_graph : Graph) (branch : list string) : result Graph :=
  agg <- last_but_one branch ;;
  wrt <- last_item branch ;;
  g <- nx.remove_edge original_graph agg wrt ;;
  nx.remove_node g agg.

(** The [while] loop of one frame; [fuel] bounds the passes and the depth.
    When a pass raises after the statement was yielded, [graph_after] is the
    graph as the pass found it: what [save_state] had added before it failed
    is not recorded. *)
Fixpoint traverse_loop (fuel : nat) (original_graph : Graph) (G dag backwards : View)
    (output node start : string) (aggregating : bool) : Run :=
  match fuel with
  | 0 => stop original_graph (Some OutOfFuel)
  | S fuel' =>
      match next_step original_graph G dag backwards node aggregating with
      | Raise e => stop original_graph (Some e)
      | Ok Finished => stop original_graph None
      | Ok (Branch branch) =>
          match enter_branch original_graph G branch node with
          | Raise e => stop original_graph (Some e)
          | Ok (agg, sub_graph, sub_dag, sub_backwards) =>
              let sub :=
                traverse_loop fuel' original_graph sub_graph sub_dag sub_backwards
                              agg node node true in
              match raised sub with
              | Some _ => sub
              | None =>
                  match leave_branch (graph_after sub) branch with
                  | Raise e =>
                      {| graph_after := graph_after sub; emitted := emitted sub;
                         raised := Some e |}
                  | Ok original_graph =>
                      after (emitted sub)
                        (traverse_loop fuel' original_graph G dag backwards
                                       output node start aggregating)
                  end
              end
          end
      | Ok (Advance successor statement) =>
          match consume_edge original_graph G dag backwards output node start successor
                             aggregating with
          | Raise e =>
              {| graph_after := original_graph; emitted := [statement]; raised := Some e |}
          | Ok (original_graph, G, dag, backwards) =>
              after [statement]
                (traverse_loop fuel' original_graph G dag backwards
                               output successor start aggregating)
          end
      end
  end.

(** [traverse_query_graph(G, output, node)] as the caller invokes it:
    [original_graph] is a copy of the caller's graph and [G] a view of it. *)
Definition traverse_query_graph (fuel : nat) (G : Graph) (output node : string) : Run :=
  let original_graph := G in
  match (G <- subgraph_view original_graph Original None None None [] None ;;
         '(dag, backwards) <- dag_and_backwards original_graph G ;;
         Ok (G, dag, backwards)) with
  | Raise e => stop original_graph (Some e)
  | Ok (G, dag, backwards) =>
      traverse_loop fuel original_graph G dag backwards output node node false
  end.

(** ** The caller's graph objects

    [traverse_query_graph] is handed a reference to the caller's graph.  The
    heap lists the graph objects that exist; [G.copy()] allocates a new one,
    and every mutation of the compiler goes to that new object. *)

Definition Heap : Type := list Graph.

Definition copy (heap : Heap) (G : nat) : option (Heap * nat) :=
  match nth_error heap G with
  | Some g => Some (heap ++ [nx.copy g], List.length heap)
  | None => None
  end.

Fixpoint assign (heap : Heap) (r : nat) (g : Graph) : Heap :=
  match heap, r with
  | [], _ => []
  | _ :: rest, 0 => g :: rest
  | x :: rest, S r' => x :: assign rest r' g
  end.

(** The call [traverse_query_graph(G, output, node)] run to its end on a
    heap: the statements, the exception if any, and the heap it leaves. *)
Definition compile (fuel : nat) (heap : Heap) (G : nat) (output node : string)
  : option (Heap * list Statement * option exn) :=
  match copy heap G with
  | Some (heap, original_graph) =>
      match nth_error heap original_graph with
      | Some g =>
          let r := traverse_query_graph fuel g output node in
          Some (assign heap original_graph (graph_after r), emitted r, raised r)
      | None => None
      end
  | None => None
  end.

(** What a run that ends without an exception does to [original_graph],
    step by step.  [consumes g steps g']: each step [(a, b, statement)] is a
    statement read from the edge [(a, b)] of the graph as it is then; the
    state is saved first when the pass asks for it, and the edge is deleted
    before the next step; between steps, a branch that has been compiled
    loses its "wrt" edge and its aggregation node. *)
Inductive consumes : Graph -> list (string * string * Statement) -> Graph -> Prop :=
| consumes_nothing g : consumes g [] g
| consumes_edge g a b statement g1 g2 steps g' :
    In ((a, b), edge_data statement) (nx._adj g) ->
    (g1 = g \/ exists start saved, save_state g start b = Ok (g1, saved)) ->
    nx.remove_edge g1 a b = Ok g2 ->
    consumes g2 steps g' ->
    consumes g ((a, b, statement) :: steps) g'
| consumes_branch g agg wrt g1 g2 steps g' :
    nx.remove_edge g agg wrt = Ok g1 ->
    nx.remove_node g1 agg = Ok g2 ->
    consumes g2 steps g' ->
    consumes g steps g'.

(** ** Graphs the builder can produce

    [built g]: [g] is reached from a fresh [QueryGraph] by calls of its four
    methods that returned, each naming dependencies that are nodes of the
    graph it is applied to.  The methods themselves take any string:
    [builder_calls] below runs any sequence of calls, and
    [dependencies_known] is the side condition that [built] has in its
    constructors. *)

Inductive built : Graph -> Prop :=
| built_init : built (G QueryGraph_init)
| built_traversal g parent path g' n :
    built g -> add_traversal g parent path = Ok (g', n) -> built g'
| built_filter g parent dependencies operation g' n :
    built g -> Forall (fun d => In d (nx.nodes g)) dependencies ->
    add_filter g parent dependencies operation = Ok (g', n) -> built g'
| built_aggregation g parent wrt operation g' n :
    built g -> add_aggregation g parent wrt operation "aggr" = Ok (g', n) -> built g'
| built_operation g parent dependencies operation g' n :
    built g -> Forall (fun d => In d (nx.nodes g)) dependencies ->
    add_operation g parent dependencies operation = Ok (g', n) -> built g'.

(** ** Sequences of builder calls

    A call of one of the four builder methods of [QueryGraph].  The methods
    check nothing: a parent or a dependency is any string. *)
Inductive BuilderCall : Type :=
| Add_traversal (path : list string) (parent : option string)
| Add_operation (parent : string) (dependencies : list string) (operation : string)
| Add_aggregation (parent wrt operation : string)
| Add_filter (parent : string) (dependencies : list string) (operation : string).

Definition builder_call (g : Graph) (c : BuilderCall) : result (Graph * string) :=
  match c with
  | Add_traversal path parent =>
      let parent := match parent with Some p => p | None => start QueryGraph_init end in
      add_traversal g parent path
  | Add_operation parent dependencies operation =>
      add_operation g parent dependencies operation
  | Add_aggregation parent wrt operation => add_aggregation g parent wrt operation "aggr"
  | Add_filter parent dependencies operation => add_filter g parent dependencies operation
  end.

(** The graph after the calls, made one after the other, when each
    returns. *)
Fixpoint builder_calls (g : Graph) (calls : list BuilderCall) : result Graph :=
  match calls with
  | [] => Ok g
  | c :: calls => '(g, _) <- builder_call g c ;; builder_calls g calls
  end.

Definition dependencies_of (c : BuilderCall) : list string :=
  match c with
  | Add_operation _ dependencies _ | Add_filter _ dependencies _ => dependencies
  | Add_traversal _ _ | Add_aggregation _ _ _ => []
  end.

(** Every dependency that a call names is a node of the graph when the call
    is made. *)
Fixpoint dependencies_known (g : Graph) (calls : list BuilderCall) : bool :=
  match calls with
  | [] => true
  | c :: calls =>
      forallb (nx.has_node g) (dependencies_of c)
      && match builder_call g c with
         | Ok (g, _) => dependencies_known g calls
         | Raise _ => true
         end
  end.

(** A walk of at least one edge. *)
Inductive walk (g : Graph) : string -> string -> Prop :=
| walk_edge u v : nx.has_edge g u v = true -> walk g u v
| walk_step u v w : nx.has_edge g u v = true -> walk g v w -> walk g u w.

(** [v] is an ancestor of [n] in the dependency graph. *)
Definition is_ancestor (g : Graph) (v n : string) : Prop :=
  walk (without_type g "wrt") v n.

(** The creation number stored on a node, when it has one. *)
Definition identity (g : Graph) (n : string) : option nat :=
  match nx.node_attrs g n with
  | Some (Some d) => Some d.(i_)
  | _ => None
  end.

(** ** Example graphs *)

Definition unwrap (r : result (Graph * string)) : Graph * string :=
  match r with
  | Ok p => p
  | Raise _ => (nx.empty, "")
  end.

(** [data -> OB -> run -> spectra], the pure traversal chain. *)
Definition chain : Graph * string :=
  unwrap ('(g, obs) <- add_traversal (G QueryGraph_init) (start QueryGraph_init) ["OB"] ;;
          '(g, runs) <- add_traversal g obs ["run"] ;;
          add_traversal g runs ["spectra"]).

Definition data_label : string := start QueryGraph_init.

(** The end-to-end scenario, call by call: the runs of an OB, filtered,
    counted with respect to the OB, and the OB filtered by the count. *)
Definition scenario_OB : Graph * string :=
  unwrap (add_traversal (G QueryGraph_init) data_label ["OB"]).

Definition scenario_run : Graph * string :=
  unwrap (add_traversal (fst scenario_OB) (snd scenario_OB) ["run"]).

Definition scenario_red : Graph * string :=
  unwrap (add_filter (fst scenario_run) (snd scenario_run) [] "camera == 'red'").

Definition scenario_upto_count : Graph * string :=
  unwrap (add_aggregation (fst scenario_red) (snd scenario_red) (snd scenario_OB)
                          "count(*)" "aggr").

Definition scenario : Graph * string :=
  unwrap (add_filter (fst scenario_upto_count) (snd scenario_OB)
                     [snd scenario_upto_count] "count > 0").

Definition OB_label : string := snd scenario_OB.
Definition run_label : string := snd scenario_run.

(** The same scenario as the list of the builder calls that make it. *)
Definition scenario_calls : list BuilderCall :=
  [Add_traversal ["OB"] None;
   Add_traversal ["run"] (Some OB_label);
   Add_filter run_label [] "camera == 'red'";
   Add_aggregation (snd scenario_red) OB_label "count(*)";
   Add_filter OB_label [snd scenario_upto_count] "count > 0"].

(** Two filters, the first naming as its dependency a string that is no
    node yet: the label that the second filter is about to be given. *)
Definition label_of_next_filter : string :=
  match node_data (fst scenario_run) run_label with
  | Ok d => (str_of_nat 5 ++ newline ++ name_ d ++ newline ++ graph2string (subgraph_ d))%string
  | Raise _ => ""
  end.

Definition filter_on_next_filter : Graph * string :=
  unwrap (add_filter (fst scenario_run) run_label [label_of_next_filter] "run.snr > 5").

Definition cyclic_calls : list BuilderCall :=
  [Add_traversal ["OB"] None;
   Add_traversal ["run"] (Some OB_label);
   Add_filter run_label [label_of_next_filter] "run.snr > 5";
   Add_filter (snd filter_on_next_filter) [] "run.snr < 9"].

(** Two aggregations with respect to the OB: the runs counted, and the
    filtered exposures counted while the exposures are also traversed
    further. *)
Definition two_branches : Graph * string :=
  unwrap ('(g, obs) <- add_traversal (G QueryGraph_init) (start QueryGraph_init) ["OB"] ;;
          '(g, runs) <- add_traversal g obs ["run"] ;;
          '(g, nruns) <- add_aggregation g runs obs "count(run)" "aggr" ;;
          '(g, exps) <- add_traversal g obs ["exposure"] ;;
          '(g, long) <- add_filter g exps [] "exposure.exptime > 100" ;;
          '(g, nlong) <- add_aggregation g long obs "count(exposure)" "aggr" ;;
          '(g, spectra) <- add_traversal g exps ["spectra"] ;;
          add_filter g spectra [nruns; nlong] "count(run) > count(exposure)").

(** ** Vocabulary of the statements *)

(** The set difference [ancestors(A) - ancestors(N)] as a sub-graph of the
    dependency graph. *)
Definition difference_dag (dag : Graph) (agg_ancestors node_ancestors : list string)
  : Graph :=
  nx.subgraph_view dag (fun n => mem n agg_ancestors && negb (mem n node_ancestors))
                   (fun _ _ => true).

(** What the claim calls the branch of [A] at [N], and what the code
    returns for it. *)
Definition is_branch (dag : Graph) (N A : string) (branch : list string) : Prop :=
  exists agg_ancestors node_ancestors order,
    nx.ancestors dag A = Ok agg_ancestors /\
    nx.ancestors dag N = Ok node_ancestors /\
    nx.topological_sort (difference_dag dag agg_ancestors node_ancestors) = Ok order /\
    branch = tl order ++ [A; N].


(** The aggregation nodes with a "wrt" edge to [N], in the order in which
    the predecessor dictionary of [N] holds them. *)
Definition aggregations_wrt (g : Graph) (N : string) : list string :=
  filter (fun A => String.eqb (edge_type g A N) "wrt") (nx.pred g N).

(** Every edge of [g] joins two of its nodes, as in any networkx graph. *)
Definition closed {A E : Type} `{Attrs A} `{Attrs E} (g : nx.DiGraph A E) : Prop :=
  forall u v d, In ((u, v), d) (nx._adj g) -> In u (nx.nodes g) /\ In v (nx.nodes g).

(** The abort of [traverse_query_graph] on a node with several unaggregated
    successors: nothing was yielded by this frame since, and the exception
    is the fatal one. *)
Definition aborts_fatally (r : Run) : Prop :=
  emitted r = [] /\ raised r = Some (NetworkXUnfeasible fatal_message).

(** An OB with two traversals and no aggregation: a fork. *)
Definition fork : Graph * string :=
  unwrap ('(g, obs) <- add_traversal (G QueryGraph_init) (start QueryGraph_init) ["OB"] ;;
          '(g, runs) <- add_traversal g obs ["run"] ;;
          add_traversal g obs ["exposure"]).

(** The view [G] of the outermost frame and the two views derived from it. *)
Definition whole : View := Sub Original [] [] None.

Definition frame_views (original_graph : Graph) (G : View) : View * View :=
  match dag_and_backwards original_graph G with
  | Ok views => views
  | Raise _ => (G, G)
  end.

(** ** The builder's bookkeeping *)

(** [s] has no character [c]. *)
Fixpoint free_of (c : ascii) (s : string) : Prop :=
  match s with
  | EmptyString => True
  | String a r => a <> c /\ free_of c r
  end.

(** The label [k] starts with the number [j] on a line of its own, as the
    labels [make_node] builds. *)
Definition has_id (k : string) (j : nat) : Prop :=
  exists rest, k = (str_of_nat j ++ newline ++ rest)%string.

(** The nodes are numbered in the order they were created: the node at
    position [pos] of the node dictionary carries [i = pos], and its label
    starts with that number. *)
Definition numbered (g : Graph) : Prop :=
  forall pos k a, nth_error (nx._node g) pos = Some (k, a) ->
                  exists d, a = Some d /\ d.(i_) = pos /\ has_id k pos.

(** Every edge other than a "wrt" edge goes from a node to one created
    later. *)
Definition forward (g : Graph) : Prop :=
  forall u v e, In ((u, v), e) (nx._adj g) ->
    exists du dv, node_data g u = Ok du /\ node_data g v = Ok dv /\
                  (du.(i_) < dv.(i_) \/ get_type e = "wrt").

Definition builder_invariant (g : Graph) : Prop := numbered g /\ forward g.

(** ** Moving edges

    Both loops of [preserve_state_for_subqueries] move edges: the edge [src]
    is added again between the ends [dst], with its data, and deleted. *)

Definition move_edge (src dst : string * string) (graph : Graph) : result Graph :=
  d <- from_option KeyError (nx.edge_attrs graph (fst src) (snd src)) ;;
  nx.remove_edge (nx.add_edge graph (fst dst) (snd dst) d) (fst src) (snd src).

Definition move_edges (moves : list ((string * string) * (string * string)))
    (graph : result Graph) : result Graph :=
  fold_left (fun acc m => g <- acc ;; move_edge (fst m) (snd m) g) moves graph.

(** The data of the edge with the key [k], if the graph has it. *)
Definition attrs_at (g : Graph) (k : string * string) : option EdgeData :=
  nx.edge_attrs g (fst k) (snd k).

(** No move reads an edge that a move writes. *)
Definition moves_separate (moves : list ((string * string) * (string * string))) : Prop :=
  forall m m', In m moves -> In m' moves -> fst m <> snd m'.

(** The scenario with the state preserved at the run node. *)
Definition scenario_preserved : Graph * string * string :=
  match preserve_state_for_subqueries (fst scenario) data_label run_label with
  | Ok r => r
  | Raise _ => (nx.empty, "", "")
  end.

(** ** [readquery/parse_tree.py]

    The nodes of the parse tree are objects of [weaveio.readquery.tree],
    which the compiler only reads through the attributes below; they are
    named by strings here, and what the attributes return is a parameter. *)

(** A query is a nested list of nodes. *)
#[local] Unset Elimination Schemes.
Inductive Query : Type :=
| Node (n : string)
| Nested (q : list Query).
#[local] Set Elimination Schemes.

Fixpoint flatten_item (q : Query) : list string :=
  match q with
  | Node n => [n]
  | Nested l => flat_map flatten_item l
  end.

(** What [flatten(S)] returns when it returns: the leaves of [S], from left
    to right. *)
Definition flatten (S : list Query) : list string := flat_map flatten_item S.

(** [flatten(S)] as the interpreter runs it, when [depth] more frames may be
    entered: the function calls itself once for the head when the head is a
    list, and once for the tail, each call one frame deeper. *)
Fixpoint flatten_within (depth : nat) (S : list Query) : result (list string) :=
  match depth with
  | 0 => Raise RecursionError
  | Datatypes.S depth =>
      match S with
      | [] => Ok []
      | Nested l :: r =>
          head <- flatten_within depth l ;;
          tail <- flatten_within depth r ;;
          Ok (head ++ tail)
      | Node n :: r =>
          tail <- flatten_within depth r ;;
          Ok (n :: tail)
      end
  end.

(** The frames that [flatten(S)] enters at its deepest, its own included. *)
Fixpoint frames_of (q : Query) : nat :=
  match q with
  | Node _ => 0
  | Nested l => fold_right (fun x deeper => Datatypes.S (Nat.max (frames_of x) deeper)) 1 l
  end.

Definition frames (S : list Query) : nat :=
  fold_right (fun x deeper => Datatypes.S (Nat.max (frames_of x) deeper)) 1 S.

Definition TreeGraph : Type := nx.DiGraph unit unit.

(** [del todo[todo.index(d)]] when [d in todo]. *)
Fixpoint remove_first (d : string) (todo : list string) : list string :=
  match todo with
  | [] => []
  | x :: r => if String.eqb x d then r else x :: remove_first d r
  end.

(** [shared_aligns[key].append(align)] on a [defaultdict(list)]. *)
Fixpoint append_to (key align : string) (d : list (string * list string))
  : list (string * list string) :=
  match d with
  | [] => [(key, [align])]
  | (k, l) :: r =>
      if String.eqb k key then (k, l ++ [align]) :: r else (k, l) :: append_to key align r
  end.

Section ParseTree.

(** [isinstance(n.action, Alignment)], [n.action.branches],
    [n.action.reference], [n.parents] and [n.find_hierarchy_branches()]. *)
Variable is_alignment : string -> bool.
Variable action_branches : string -> list string.
Variable action_reference : string -> string.
Variable parents : string -> list string.
Variable find_hierarchy_branches : string -> list string.

Definition shortest_path_length (graph : TreeGraph) (source target : string)
  : result nat :=
  path <- nx.shortest_path graph source target ;;
  Ok (List.length path - 1).

(** [reduce(and_, sets)]: the intersection, [TypeError] on no set at all.
    The sets are Python sets; the model keeps the order of the first. *)
Definition intersection (sets : list (list string)) : result (list string) :=
  match sets with
  | [] => Raise TypeError
  | s :: r => Ok (fold_left (fun acc t => filter (fun b => mem b t) acc) r (nodup string_dec s))
  end.

(** [max(distances, key=lambda x: x[1])]: the first item of greatest
    distance. *)
Definition farthest (distances : list (string * nat)) : result (string * nat) :=
  match distances with
  | [] => Raise (ValueError "max() arg is an empty sequence")
  | x :: r => Ok (fold_left (fun best y => if Nat.ltb (snd best) (snd y) then y else best) r x)
  end.

Definition shared_hierarchy_branch (graph : TreeGraph) (branch : string) : result string :=
  branches <- intersection (map find_hierarchy_branches (parents branch)) ;;
  distances <- mapM (fun b => d <- shortest_path_length graph b branch ;; Ok (b, d))
                    branches ;;
  best <- farthest distances ;;
  Ok (fst best).

Definition collect_shared_aligns (graph : TreeGraph) (aligns : list string)
  : result (list (string * list string)) :=
  fold_left
    (fun acc align =>
       shared_aligns <- acc ;;
       key <- shared_hierarchy_branch graph align ;;
       Ok (append_to key align shared_aligns))
    aligns (Ok []).

(** The nodes between [node] and [input_node]. *)
Definition between (graph : TreeGraph) (node input_node : string) : result TreeGraph :=
  before <- nx.descendants graph node ;;
  after <- nx.ancestors graph input_node ;;
  Ok (nx.subgraph_view graph
        (fun n => mem n (before ++ [node]) && mem n (after ++ [input_node]))
        (fun _ _ => true)).

(** The [while todo] loop, given how the sub-graphs are parsed. *)
Fixpoint parse_todo (parse_sub : TreeGraph -> result (list Query)) (graph : TreeGraph)
    (shared_aligns : list (string * list string)) (fuel : nat)
    (todo : list string) (query : list Query) : result (list Query) :=
  match todo with
  | [] => Ok query
  | node :: todo =>
      match fuel with
      | 0 => Raise OutOfFuel
      | S fuel' =>
          match nx.lookup node shared_aligns with
          | Some align_list =>
              match firstn 1 align_list with
              | align :: _ =>
                  let inputs := action_branches align ++ [action_reference align] in
                  subqueries <-
                    mapM (fun input_node =>
                            newgraph <- between graph node input_node ;;
                            parse_sub newgraph) inputs ;;
                  let done := flat_map flatten subqueries in
                  let todo := fold_left (fun t d => remove_first d t) done todo in
                  parse_todo parse_sub graph shared_aligns fuel' todo
                    (query ++ map Nested (removelast subqueries) ++ last subqueries [])
              | [] => parse_todo parse_sub graph shared_aligns fuel' todo query
              end
          | None =>
              parse_todo parse_sub graph shared_aligns fuel' todo (query ++ [Node node])
          end
      end
  end.

Fixpoint parse (fuel : nat) (graph : TreeGraph) : result (list Query) :=
  match fuel with
  | 0 => Raise OutOfFuel
  | S fuel' =>
      let aligns := rev (filter is_alignment (nx.nodes graph)) in
      shared_aligns <- collect_shared_aligns graph aligns ;;
      todo <- nx.topological_sort graph ;;
      parse_todo (parse fuel') graph shared_aligns (List.length todo) todo []
  end.

End ParseTree.

(** [star next x y]: [y] is reached from [x] by following [next] any number
    of times. *)
Inductive star (next : string -> list string) : string -> string -> Prop :=
| star_refl x : star next x x
| star_step x y z : In y (next x) -> star next y z -> star next x z.

(** There is a path of edges of the tree graph, possibly empty, from [u] to
    [v]. *)
Definition reaches (g : TreeGraph) (u v : string) : Prop := star (nx.succ g) u v.

(** [g] is a part of [G] that keeps the paths of [G] between its nodes. *)
Definition part_of (G g : TreeGraph) : Prop :=
  closed g /\
  incl (nx.nodes g) (nx.nodes G) /\
  forall u v, In u (nx.nodes g) -> In v (nx.nodes g) -> reaches G u v -> reaches g u v.

(** What the dictionary of shared alignments holds: under each key, a list
    that is not empty, of alignments whose shared hierarchy branch is the
    key. *)
Definition shared_aligns_ok (parents find_hierarchy_branches : string -> list string)
    (g : TreeGraph) (aligns : list string)
    (shared_aligns : list (string * list string)) : Prop :=
  forall key l, nx.lookup key shared_aligns = Some l ->
    l <> [] /\
    forall a, In a l ->
      In a aligns /\ shared_hierarchy_branch parents find_hierarchy_branches g a = Ok key.

(** *** The example of [parse_tree.py]

    [ob] is traversed to [target], [run] and [exposure]; each is collected
    and reduced with [any]; the runs are aligned with the targets, the
    result with the exposures.  Both alignments share the hierarchy node
    [ob]. *)
Definition tree_of_edges (es : list (string * string)) : TreeGraph :=
  fold_left (fun g e => nx.add_edge g (fst e) (snd e) tt) es nx.empty.

Definition example_tree : TreeGraph :=
  tree_of_edges
    [("ob", "target"); ("ob", "run"); ("ob", "exposure");
     ("target", "ob_targets"); ("ob_targets", "any_ob_targets");
     ("run", "ob_runs"); ("ob_runs", "any_ob_runs");
     ("exposure", "ob_exposures"); ("ob_exposures", "any_ob_exposures");
     ("any_ob_runs", "align0"); ("any_ob_targets", "align0");
     ("align0", "or1");
     ("or1", "align1"); ("any_ob_exposures", "align1");
     ("align1", "or2"); ("or2", "final")]%string.

Definition example_is_alignment (n : string) : bool :=
  String.eqb n "align0" || String.eqb n "align1".

Definition example_branches (n : string) : list string :=
  if String.eqb n "align0" then ["any_ob_targets"%string]
  else if String.eqb n "align1" then ["any_ob_exposures"%string]
  else [].

Definition example_reference (n : string) : string :=
  if String.eqb n "align0" then "any_ob_runs"
  else if String.eqb n "align1" then "or1"
  else "".

Definition example_parents (n : string) : list string :=
  nx.pred example_tree n.

Definition example_hierarchy_branches (n : string) : list string := ["ob"%string].

Definition example_parse (fuel : nat) : result (list Query) :=
  parse example_is_alignment example_branches example_reference example_parents
        example_hierarchy_branches fuel example_tree.

(** What [parse] returns on the example: the alignment with the exposures
    is the one treated at [ob]; the other one is met inside the sub-query
    of its reference input. *)
Definition example_query : list Query :=
  [Nested [Node "ob"; Node "exposure"; Node "ob_exposures"; Node "any_ob_exposures"];
   Nested [Node "ob"; Node "target"; Node "ob_targets"; Node "any_ob_targets"];
   Node "ob"; Node "run"; Node "ob_runs"; Node "any_ob_runs";
   Node "align0"; Node "or1"; Node "align1"; Node "or2"; Node "final"]%string.

(** The test of [closed], for a graph that is given. *)
Definition closedb (g : TreeGraph) : bool :=
  forallb (fun kv => mem (fst (fst kv)) (nx.nodes g) && mem (snd (fst kv)) (nx.nodes g))
          (nx._adj g).

(** ** [class UniqueDeque(deque)]

    A deque of node labels without repetition.  [super_append],
    [super_appendleft], [super_insert] and [super_remove] are the methods of
    [collections.deque] that the class calls through [super()] or inherits. *)

Module UniqueDeque.

Record t : Type := {
  items : list string;
  maxlen : option nat
}.

Definition with_items (d : t) (l : list string) : t :=
  {| items := l; maxlen := maxlen d |}.

(** [deque.append]: the item goes to the right end; a bounded deque that
    grew over its length drops its leftmost item. *)
Definition super_append (d : t) (x : string) : t :=
  let l := items d ++ [x] in
  with_items d
    match maxlen d with
    | Some m => if Nat.ltb m (List.length l) then tl l else l
    | None => l
    end.

Definition super_appendleft (d : t) (x : string) : t :=
  let l := x :: items d in
  with_items d
    match maxlen d with
    | Some m => if Nat.ltb m (List.length l) then removelast l else l
    | None => l
    end.

Definition full (d : t) : bool :=
  match maxlen d with
  | Some m => Nat.eqb (List.length (items d)) m
  | None => false
  end.

(** [sys.maxsize], the largest [Py_ssize_t]: that of a 64-bit build. *)
Definition PY_SSIZE_T_MAX : Z := 9223372036854775807.

(** The index argument of [deque.insert] is converted to a [Py_ssize_t]. *)
Definition fits_ssize_t (i : Z) : bool :=
  ((- PY_SSIZE_T_MAX - 1 <=? i) && (i <=? PY_SSIZE_T_MAX))%Z.

(** [deque.insert(i, x)]: [OverflowError] for an index that is no
    [Py_ssize_t], [IndexError] on a full deque, and then as [list.insert]. *)
Definition super_insert (d : t) (i : Z) (x : string) : result t :=
  let n := Z.of_nat (List.length (items d)) in
  if negb (fits_ssize_t i) then Raise OverflowError
  else if full d then Raise IndexError
  else if (n <=? i)%Z then Ok (super_append d x)
  else if (i <=? - n)%Z || (i =? 0)%Z then Ok (super_appendleft d x)
  else
    let k := Z.to_nat (if (i <? 0)%Z then n + i else i) in
    Ok (with_items d (firstn k (items d) ++ x :: skipn k (items d))).

(** [deque.remove(x)]: the first occurrence. *)
Definition super_remove (d : t) (x : string) : result t :=
  if mem x (items d) then Ok (with_items d (remove_first x (items d)))
  else Raise (ValueError "deque.remove(x): x not in deque").

(** [deque.index(x)] for an item of the deque. *)
Fixpoint index (x : string) (l : list string) : nat :=
  match l with
  | [] => 0
  | y :: r => if String.eqb y x then 0 else S (index x r)
  end.

Definition popleft (d : t) : result (string * t) :=
  match items d with
  | [] => Raise IndexError
  | x :: r => Ok (x, with_items d r)
  end.

Definition append (d : t) (x : string) (maintain : bool) : t :=
  if mem x (items d) then
    if maintain then d
    else super_append (with_items d (remove_first x (items d))) x
  else super_append d x.

Definition appendleft (d : t) (x : string) (maintain : bool) : t :=
  if mem x (items d) then
    if maintain then d
    else super_appendleft (with_items d (remove_first x (items d))) x
  else super_appendleft d x.

(** [UniqueDeque(iterable, maxlen, maintain)] *)
Definition init (iterable : list string) (maxlen : option nat) (maintain : bool) : t :=
  fold_left (fun d x => append d x maintain) iterable {| items := []; maxlen := maxlen |}.

Definition extend (d : t) (iterable : list string) (maintain : bool) : t :=
  fold_left (fun d x => append d x maintain) iterable d.

Definition extendleft (d : t) (iterable : list string) (maintain : bool) : t :=
  fold_left (fun d x => appendleft d x maintain) (rev iterable) d.

Definition insert (d : t) (i : Z) (x : string) (maintain : bool) : result t :=
  if mem x (items d) then
    let ii := Z.of_nat (index x (items d)) in
    if (i =? ii)%Z then Ok d
    else if maintain then Ok d
    else
      let d' := with_items d (remove_first x (items d)) in
      if (ii <? i)%Z then super_insert d' (i - 1) x
      else if (ii =? i)%Z then super_insert d' i x
      else Ok d'
  else Ok d.

(** A call of a method that changes the deque. *)
Inductive call : Type :=
| Append (x : string) (maintain : bool)
| Appendleft (x : string) (maintain : bool)
| Extend (iterable : list string) (maintain : bool)
| Extendleft (iterable : list string) (maintain : bool)
| Insert (i : Z) (x : string) (maintain : bool)
| Popleft
| Remove (x : string).

Definition do_call (d : t) (c : call) : result t :=
  match c with
  | Append x maintain => Ok (append d x maintain)
  | Appendleft x maintain => Ok (appendleft d x maintain)
  | Extend iterable maintain => Ok (extend d iterable maintain)
  | Extendleft iterable maintain => Ok (extendleft d iterable maintain)
  | Insert i x maintain => insert d i x maintain
  | Popleft => r <- popleft d ;; Ok (snd r)
  | Remove x => super_remove d x
  end.

Definition do_calls (d : t) (calls : list call) : result t :=
  fold_left (fun acc c => d <- acc ;; do_call d c) calls (Ok d).

End UniqueDeque.

(** What every method of the deque keeps: no repetition, and the bound on
    the length. *)
Definition deque_ok (d : UniqueDeque.t) : Prop :=
  NoDup (UniqueDeque.items d) /\
  forall m, UniqueDeque.maxlen d = Some m -> List.length (UniqueDeque.items d) <= m.

(** The pure traversal chain with a "wrt" edge added from its last node
    back to its first. *)
Definition a_wrt_edge : EdgeData :=
  {| type_ := Some "wrt"; label_ := None; operation_ := None; style_ := Some "dashed" |}.

Definition chain_closed_back : Graph :=
  nx.add_edge (fst chain) (snd chain) data_label a_wrt_edge.

(** The runs of an OB, and an operation on them that depends on the OB. *)
Definition scenario_operation : Graph * string :=
  unwrap (add_operation (fst scenario_run) run_label [OB_label] "run.snr * 2").

(** [graph] is a path: its edges lead from the first node of [path] to the
    last, one after the other, and its nodes may include others. *)
Definition is_path (graph : Graph) (path : list string) : Prop :=
  NoDup path /\
  incl path (nx.nodes graph) /\
  map fst (nx._adj graph) = combine (removelast path) (tl path).

(** Successive traversals, each from the node the one before returned:
    [n1 = add_traversal(parent, p1)], [n2 = add_traversal(n1, p2)], ... *)
Fixpoint traverse_all (graph : Graph) (parent : string) (paths : list (list string))
  : result (Graph * list string) :=
  match paths with
  | [] => Ok (graph, [])
  | path :: paths =>
      '(graph, n) <- add_traversal graph parent path ;;
      '(graph, ns) <- traverse_all graph n paths ;;
      Ok (graph, n :: ns)
  end.

(** The start node, filtered. *)
Definition filtered_start : Graph * string :=
  unwrap (add_filter (G QueryGraph_init) data_label [] "x > 0").

(** The runs of an OB filtered on a dependency that is not a node of the
    graph. *)
Definition scenario_unknown_dependency : Graph * string :=
  unwrap (add_filter (fst scenario_run) run_label ["nowhere"] "run.snr > nowhere").

(** ** [rephrase_filtered_operations]

    The function returns nothing and changes nothing: it passes, raises its
    [NotImplementedError], or fails on an edge without a type. *)
Inductive checked : Type :=
| Passed
| Unsupported (message : string)
| Failed (e : exn).

(** [any(graph.edges[e]['type'] == 'operation' for e in es)] *)
Fixpoint any_operation (graph : Graph) (es : list (string * string)) : result bool :=
  match es with
  | [] => Ok false
  | (u, v) :: r =>
      d <- from_option KeyError (nx.edge_attrs graph u v) ;;
      t <- from_option KeyError d.(type_) ;;
      if String.eqb t "operation" then Ok true else any_operation graph r
  end.

Fixpoint rephrase_edges (graph : Graph) (es : list (string * string)) : checked :=
  match es with
  | [] => Passed
  | (u, v) :: r =>
      match (d <- from_option KeyError (nx.edge_attrs graph u v) ;;
             from_option KeyError d.(type_)) with
      | Raise e => Failed e
      | Ok t =>
          if String.eqb t "filter" then
            match any_operation graph (nx.in_edges graph v) with
            | Raise e => Failed e
            | Ok true => Unsupported "Filtering an operation is not yet supported"
            | Ok false => rephrase_edges graph r
            end
          else rephrase_edges graph r
      end
  end.

Definition rephrase_filtered_operations (graph : Graph) : checked :=
  rephrase_edges graph (nx.edges graph).

(** No node has a filter edge and an operation edge coming in. *)
Definition filters_no_operation (g : Graph) : Prop :=
  forall u v e u' e',
    In ((u, v), e) (nx._adj g) -> In ((u', v), e') (nx._adj g) ->
    type_ e = Some "filter" -> type_ e' = Some "operation" -> False.

(** ** A node deep in a branch that is used outside of it

    The red runs of an OB are counted with respect to the OB, and their
    spectra are traversed and filtered on the count: the filtered runs are
    the second node of the branch of the count, and have a successor that is
    not in it. *)
Definition deep : Graph * string :=
  unwrap ('(g, obs) <- add_traversal (G QueryGraph_init) (start QueryGraph_init) ["OB"] ;;
          '(g, runs) <- add_traversal g obs ["run"] ;;
          '(g, red) <- add_filter g runs [] "camera == 'red'" ;;
          '(g, n) <- add_aggregation g red obs "count(run)" "aggr" ;;
          '(g, spec) <- add_traversal g red ["spectra"] ;;
          add_filter g spec [n] "count > 0").

(** The labels of the OB, the runs, the red runs and the count. *)
Definition deep_OB : string := nth 1 (nx.nodes (fst deep)) "".
Definition deep_run : string := nth 2 (nx.nodes (fst deep)) "".
Definition deep_red : string := nth 3 (nx.nodes (fst deep)) "".
Definition deep_count : string := nth 4 (nx.nodes (fst deep)) "".

(** The compiler's graph when the frame of the branch has reached the runs:
    the edges to the OB and to the runs are consumed. *)
Definition deep_graph : Graph :=
  match (g <- nx.remove_edge (fst deep) data_label deep_OB ;;
         nx.remove_edge g deep_OB deep_run) with
  | Ok g => g
  | Raise _ => nx.empty
  end.

(** The views of the frame of the branch, made when the OB was reached. *)
Definition deep_frame : View * View * View :=
  match (g <- nx.remove_edge (fst deep) data_label deep_OB ;;
         enter_branch g whole [deep_run; deep_red; deep_count; deep_OB] deep_OB) with
  | Ok (_, sub_graph, dag, backwards) => (sub_graph, dag, backwards)
  | Raise _ => (whole, whole, whole)
  end.

(** The statement the frame yields at the runs. *)
Definition deep_statement : Statement :=
  match next_step deep_graph (fst (fst deep_frame)) (snd (fst deep_frame))
                  (snd deep_frame) deep_run true with
  | Ok (Advance _ statement) => statement
  | _ => {| a_data := None; b_data := None; edge_data := no_edge_data;
            is_aggregating := false |}
  end.
(** * Properties *)

(** ** Strings, lists and the error monad *)

Lemma mem_In x l : mem x l = true <-> In x l.
Proof.
  unfold mem. rewrite existsb_exists. split.
  - intros [y [Hy Heq]]. apply String.eqb_eq in Heq. now subst.
  - intros Hin. exists x. split; [assumption | apply String.eqb_refl].
Qed.

Lemma mem_false x l : mem x l = false <-> ~ In x l.
Proof.
  rewrite <- mem_In. destruct (mem x l); split; intros; congruence.
Qed.

Lemma pair_eqb_eq e1 e2 : pair_eqb e1 e2 = true <-> e1 = e2.
Proof.
  destruct e1 as [a b], e2 as [c d]. unfold pair_eqb. simpl.
  rewrite andb_true_iff, !String.eqb_eq. split.
  - intros [-> ->]. reflexivity.
  - intros Heq. inversion Heq. auto.
Qed.

Lemma pair_eqb_refl e : pair_eqb e e = true.
Proof. now apply pair_eqb_eq. Qed.

Lemma pair_eqb_neq e1 e2 : pair_eqb e1 e2 = false <-> e1 <> e2.
Proof.
  rewrite <- pair_eqb_eq. destruct (pair_eqb e1 e2); split; intros; congruence.
Qed.

Lemma mem_pair_In e l : mem_pair e l = true <-> In e l.
Proof.
  unfold mem_pair. rewrite existsb_exists. split.
  - intros [y [Hy Heq]]. apply pair_eqb_eq in Heq. now subst.
  - intros Hin. exists e. split; [assumption | apply pair_eqb_refl].
Qed.

Lemma bind_Ok {A B : Type} (c : result A) (k : A -> result B) b :
  bind c k = Ok b -> exists a, c = Ok a /\ k a = Ok b.
Proof. destruct c as [a | e]; simpl; intros Hk; [eauto | discriminate]. Qed.

Lemma mapM_Forall2 {A B : Type} (f : A -> result B) l l' :
  mapM f l = Ok l' -> Forall2 (fun x y => f x = Ok y) l l'.
Proof.
  revert l'. induction l as [| x r IH]; simpl; intros l' Hm.
  - inversion Hm. constructor.
  - apply bind_Ok in Hm as [y [Hy Hm]].
    apply bind_Ok in Hm as [ys [Hys Hm]].
    inversion Hm; subst. constructor; auto.
Qed.

(** Tactic: split an equation [x <- c ;; k = Ok b] into its steps. *)
Ltac bind_inv H :=
  let a := fresh "a" in
  let Ha := fresh "Ha" in
  apply bind_Ok in H as [a [Ha H]].

(** ** The sort *)

Section SortFacts.
Context {T : Type} (lt : T -> T -> bool).

Lemma run_ascending_never_lt prev l :
  (forall x y, In x (prev :: l) -> In y (prev :: l) -> lt x y = false) ->
  run_ascending lt prev l = List.length l.
Proof.
  revert prev. induction l as [| x r IH]; intros prev Hlt; simpl.
  - reflexivity.
  - rewrite Hlt by (simpl; auto). f_equal. apply IH.
    intros a b Ha Hb. apply Hlt; right; assumption.
Qed.

(** When no item is less than another, [count_run] takes the whole list
    as one ascending run and nothing is moved. *)
Lemma list_sort_never_lt l :
  (forall x y, In x l -> In y l -> lt x y = false) -> list_sort lt l = l.
Proof.
  intros Hlt. unfold list_sort.
  assert (Hrun : count_run lt l = (List.length l, false)).
  { destruct l as [| x [| y r]]; try reflexivity.
    unfold count_run. rewrite Hlt by (simpl; auto).
    rewrite run_ascending_never_lt by assumption. reflexivity. }
  rewrite Hrun, firstn_all, skipn_all. reflexivity.
Qed.
End SortFacts.

(** ** The comparison of branches *)

Lemma compare_two_dags_overlap dag1 dag2 n :
  In n dag1 -> In n dag2 -> compare_two_dags dag1 dag2 = 1%Z.
Proof.
  intros H1 H2. unfold compare_two_dags.
  replace (existsb (fun n => mem n dag2) dag1) with true; [reflexivity |].
  symmetry. apply existsb_exists. exists n. split; [assumption | now apply mem_In].
Qed.

(** The second test of [compare_two_dags] repeats the first with the lists
    swapped, so its [-1] is never returned. *)
Lemma compare_two_dags_not_negative dag1 dag2 :
  (0 <= compare_two_dags dag1 dag2)%Z.
Proof.
  unfold compare_two_dags.
  destruct (existsb (fun n => mem n dag2) dag1) eqn:H1; [lia |].
  destruct (existsb (fun n => mem n dag1) dag2) eqn:H2; [| lia].
  exfalso. apply existsb_exists in H2 as [n [Hn2 Hn1]]. apply mem_In in Hn1.
  assert (existsb (fun n => mem n dag2) dag1 = true); [| congruence].
  apply existsb_exists. exists n. split; [assumption | now apply mem_In].
Qed.

Lemma key_lt_false a b : key_lt a b = false.
Proof.
  unfold key_lt. apply Z.ltb_ge. apply compare_two_dags_not_negative.
Qed.

Lemma sort_branches_id (branches : list (list string)) :
  list_sort key_lt branches = branches.
Proof. apply list_sort_never_lt. intros; apply key_lt_false. Qed.

(** ** The branch resolver *)

Lemma branch_of_is_branch dag N A branch :
  branch_of dag N A = Ok branch -> is_branch dag N A branch.
Proof.
  unfold branch_of, is_branch. intros Hb.
  bind_inv Hb. bind_inv Hb. bind_inv Hb. inversion Hb; subst.
  eexists; eexists; eexists. repeat split; eassumption.
Qed.

Lemma pred_only_type g N A :
  In A (nx.pred (only_type g "wrt") N) ->
  exists d, In ((A, N), d) (nx._adj g) /\ edge_type g A N = "wrt".
Proof.
  unfold nx.pred, only_type, nx.subgraph_view. simpl. intros Hin.
  apply in_map_iff in Hin as [[[u v] d] [Hu Hin]]. simpl in Hu. subst u.
  apply filter_In in Hin as [Hin Hv]. simpl in Hv. apply String.eqb_eq in Hv. subst v.
  apply filter_In in Hin as [Hin Ht]. simpl in Ht. apply String.eqb_eq in Ht.
  exists d. split; assumption.
Qed.

Lemma only_type_pred g N A d :
  In ((A, N), d) (nx._adj g) -> edge_type g A N = "wrt" ->
  In A (nx.pred (only_type g "wrt") N).
Proof.
  intros Hin Ht. unfold nx.pred, only_type, nx.subgraph_view. simpl.
  apply in_map_iff. exists ((A, N), d). split; [reflexivity |].
  apply filter_In. split; [| simpl; apply String.eqb_refl].
  apply filter_In. split; [assumption |]. simpl. rewrite Ht. reflexivity.
Qed.

Lemma NoDup_map_filter {A B : Type} (f : A -> B) (p : A -> bool) l :
  NoDup (map f l) -> NoDup (map f (filter p l)).
Proof.
  induction l as [| x r IH]; simpl; intros Hnd; [constructor |].
  inversion Hnd as [| ? ? Hx Hr]; subst. destruct (p x); simpl; auto.
  constructor; auto. intros Hin. apply Hx.
  apply in_map_iff in Hin as [y [Hy Hin]]. apply filter_In in Hin as [Hin _].
  apply in_map_iff. eauto.
Qed.

Lemma NoDup_pred {A E : Type} `{Attrs A} `{Attrs E} (g : nx.DiGraph A E) n :
  NoDup (map fst (nx._adj g)) -> NoDup (nx.pred g n).
Proof.
  unfold nx.pred. induction (nx._adj g) as [| [[u v] d] r IH]; simpl; intros Hnd.
  - constructor.
  - inversion Hnd as [| ? ? Hx Hr]; subst.
    destruct (String.eqb v n) eqn:Hv; simpl; auto.
    apply String.eqb_eq in Hv. subst v. constructor; auto.
    intros Hin. apply Hx. apply in_map_iff in Hin as [[[u' v'] d'] [Hu Hin]].
    simpl in Hu. subst u'. apply filter_In in Hin as [Hin Hv'].
    simpl in Hv'. apply String.eqb_eq in Hv'. subst v'.
    apply in_map_iff. exists ((u, n), d'). split; [reflexivity | assumption].
Qed.

Lemma pred_filter_edges {E : Type} (f : string -> string -> bool) (N : string)
    (l : list ((string * string) * E)) :
  map (fun kv => fst (fst kv))
      (filter (fun kv => String.eqb (snd (fst kv)) N)
              (filter (fun kv => let '(u, v) := fst kv in true && true && f u v) l))
  = filter (fun A => f A N)
           (map (fun kv => fst (fst kv)) (filter (fun kv => String.eqb (snd (fst kv)) N) l)).
Proof.
  induction l as [| [[u v] d] r IH]; [reflexivity |].
  destruct (String.eqb_spec v N) as [-> | Hne].
  - simpl. destruct (f u N) eqn:Hf; simpl; rewrite ?String.eqb_refl; simpl; rewrite ?Hf;
      first [exact IH | f_equal; exact IH].
  - apply String.eqb_neq in Hne.
    simpl. destruct (f u v); simpl; rewrite ?Hne; exact IH.
Qed.

Lemma pred_only_type_eq g t N :
  nx.pred (only_type g t) N
  = filter (fun A => String.eqb (edge_type g A N) t) (nx.pred g N).
Proof.
  unfold nx.pred, only_type, nx.subgraph_view. cbn [nx._adj].
  exact (pred_filter_edges (fun u v => String.eqb (edge_type g u v) t) N (nx._adj g)).
Qed.

(** C3, as the code has it: in a graph [g], with the dependency graph and
    the scope edges taken as the compiler takes them, the branches that
    [get_branches] returns at [N] answer, one for one and in the same order,
    to [aggregations_wrt g N]: the aggregation nodes [A] with a "wrt" edge to
    [N], each once, in the order of the predecessors of [N].  The branch of
    [A] is the topological order of [ancestors(A) - ancestors(N)] without its
    first item, followed by [A] and [N]. *)
Theorem get_branches_one_per_aggregation (g : Graph) (N : string)
    (branches : list (list string)) (needs_preserving : bool) :
  NoDup (map fst (nx._adj g)) ->
  get_branches (without_type g "wrt") (only_type g "wrt") N
    = Ok (branches, needs_preserving) ->
  NoDup (aggregations_wrt g N) /\
  (forall A, In A (aggregations_wrt g N) <->
             nx.has_edge g A N = true /\ edge_type g A N = "wrt") /\
  Forall2 (is_branch (without_type g "wrt") N) (aggregations_wrt g N) branches.
Proof.
  intros Hnd Hget. unfold get_branches in Hget.
  apply bind_Ok in Hget as [aggregations [Hpred Hget]].
  apply bind_Ok in Hget as [bs [Hmap Hget]].
  apply bind_Ok in Hget as [unwound [_ Hget]].
  rewrite sort_branches_id in Hget. inversion Hget; subst. clear Hget.
  unfold nx.predecessors in Hpred.
  destruct (nx.has_node (only_type g "wrt") N); [| discriminate].
  inversion Hpred; subst. clear Hpred.
  unfold aggregations_wrt. rewrite <- pred_only_type_eq.
  split; [| split].
  - apply NoDup_pred. unfold only_type, nx.subgraph_view. simpl.
    now apply NoDup_map_filter.
  - intros A. split.
    + intros Hin. apply pred_only_type in Hin as [d [Hin Ht]]. split; [| assumption].
      unfold edge_type in Ht. unfold nx.has_edge.
      destruct (nx.edge_attrs g A N); [reflexivity |].
      discriminate.
    + intros [He Ht]. unfold nx.has_edge in He.
      destruct (nx.edge_attrs g A N) as [d |] eqn:Hd; [| discriminate].
      assert (Hin : exists d', In ((A, N), d') (nx._adj g)).
      { unfold nx.edge_attrs in Hd. clear -Hd.
        induction (nx._adj g) as [| [k v] r IH]; simpl in *; [discriminate |].
        destruct (pair_eqb k (A, N)) eqn:Hk.
        - apply pair_eqb_eq in Hk. subst. eauto.
        - destruct (IH Hd) as [d' Hd']. eauto. }
      destruct Hin as [d' Hin]. eapply only_type_pred; eassumption.
  - apply mapM_Forall2 in Hmap.
    eapply Forall2_impl; [| exact Hmap]. intros A b. apply branch_of_is_branch.
Qed.

(** C3, as the claim states it, fails on the end-to-end scenario: at the OB
    the difference set is [OB; run; run-filter], and the branch of the count
    starts at the run, without the OB. *)
Lemma get_branches_drops_first_item :
  exists agg_ancestors node_ancestors order branch needs_preserving,
    nx.ancestors (without_type (fst scenario) "wrt") (snd scenario_upto_count)
      = Ok agg_ancestors /\
    nx.ancestors (without_type (fst scenario) "wrt") OB_label = Ok node_ancestors /\
    nx.topological_sort
      (difference_dag (without_type (fst scenario) "wrt") agg_ancestors node_ancestors)
      = Ok order /\
    get_branches (without_type (fst scenario) "wrt") (only_type (fst scenario) "wrt")
                 OB_label = Ok ([branch], needs_preserving) /\
    List.length order = 3 /\
    branch <> order ++ [snd scenario_upto_count; OB_label].
Proof.
  do 5 eexists.
  split; [vm_compute; reflexivity |].
  split; [vm_compute; reflexivity |].
  split; [vm_compute; reflexivity |].
  split; [vm_compute; reflexivity |].
  split; [reflexivity |].
  intros Heq. apply (f_equal (@List.length string)) in Heq. vm_compute in Heq.
  discriminate.
Qed.

(** C4 at two branches of one node: each contains a node of the other (the
    node itself, at least), the comparison answers [+1] both ways, and the
    sort leaves the two in the order they are given, whichever it is. *)
Lemma compare_two_dags_not_antisymmetric :
  exists X Y needs_preserving,
    get_branches (without_type (fst two_branches) "wrt")
                 (only_type (fst two_branches) "wrt") OB_label
      = Ok ([X; Y], needs_preserving) /\
    compare_two_dags X Y = 1%Z /\
    compare_two_dags Y X = 1%Z /\
    list_sort key_lt [X; Y] = [X; Y] /\
    list_sort key_lt [Y; X] = [Y; X].
Proof.
  do 3 eexists.
  split; [vm_compute; reflexivity |].
  repeat split; vm_compute; reflexivity.
Qed.

(** ** Graph lookups *)

Section GraphFacts.
Context {A E : Type} `{Attrs A} `{Attrs E}.
Implicit Types g : nx.DiGraph A E.

Lemma lookup_edge_In e (adj : list ((string * string) * E)) d :
  In (e, d) adj -> exists d', nx.lookup_edge e adj = Some d'.
Proof.
  induction adj as [| [k v] r IH]; simpl; intros Hin; [contradiction |].
  destruct (pair_eqb k e) eqn:Hk; [eauto |].
  destruct Hin as [Heq | Hin]; [| auto].
  inversion Heq; subst. rewrite pair_eqb_refl in Hk. discriminate.
Qed.

Lemma lookup_edge_Some e (adj : list ((string * string) * E)) d :
  nx.lookup_edge e adj = Some d -> In (e, d) adj.
Proof.
  induction adj as [| [k v] r IH]; simpl; intros Hl; [discriminate |].
  destruct (pair_eqb k e) eqn:Hk.
  - apply pair_eqb_eq in Hk. inversion Hl; subst. auto.
  - auto.
Qed.

Lemma lookup_In {V : Type} n (d : list (string * V)) :
  In n (map fst d) -> exists v, nx.lookup n d = Some v.
Proof.
  induction d as [| [k v] r IH]; simpl; intros Hin; [contradiction |].
  destruct (String.eqb k n) eqn:Hk; [eauto |].
  destruct Hin as [Heq | Hin]; [| auto].
  subst. rewrite String.eqb_refl in Hk. discriminate.
Qed.

Lemma lookup_Some {V : Type} n (d : list (string * V)) v :
  nx.lookup n d = Some v -> In n (map fst d).
Proof.
  induction d as [| [k w] r IH]; simpl; intros Hl; [discriminate |].
  destruct (String.eqb k n) eqn:Hk.
  - apply String.eqb_eq in Hk. auto.
  - auto.
Qed.

Lemma succ_In g n w :
  In w (nx.succ g n) <-> exists d, In ((n, w), d) (nx._adj g).
Proof.
  unfold nx.succ. rewrite in_map_iff. split.
  - intros [[[u v] d] [Hv Hin]]. simpl in Hv. subst v.
    apply filter_In in Hin as [Hin Hu]. simpl in Hu. apply String.eqb_eq in Hu.
    subst u. eauto.
  - intros [d Hin]. exists ((n, w), d). split; [reflexivity |].
    apply filter_In. split; [assumption | simpl; apply String.eqb_refl].
Qed.

Lemma pred_In g n u :
  In u (nx.pred g n) <-> exists d, In ((u, n), d) (nx._adj g).
Proof.
  unfold nx.pred. rewrite in_map_iff. split.
  - intros [[[u' v] d] [Hu Hin]]. simpl in Hu. subst u'.
    apply filter_In in Hin as [Hin Hv]. simpl in Hv. apply String.eqb_eq in Hv.
    subst v. eauto.
  - intros [d Hin]. exists ((u, n), d). split; [reflexivity |].
    apply filter_In. split; [assumption | simpl; apply String.eqb_refl].
Qed.

Lemma has_node_In g n : nx.has_node g n = true <-> In n (nx.nodes g).
Proof. apply mem_In. Qed.

Lemma has_edge_In g u v :
  nx.has_edge g u v = true <-> exists d, In ((u, v), d) (nx._adj g).
Proof.
  unfold nx.has_edge, nx.edge_attrs. split.
  - destruct (nx.lookup_edge (u, v) (nx._adj g)) eqn:Hl; [| discriminate].
    intros _. apply lookup_edge_Some in Hl. eauto.
  - intros [d Hin]. apply lookup_edge_In in Hin as [d' Hd]. now rewrite Hd.
Qed.

Lemma edges_In g u v :
  In (u, v) (nx.edges g) <-> In u (nx.nodes g) /\ In v (nx.succ g u).
Proof.
  unfold nx.edges, nx.out_edges. rewrite in_flat_map. split.
  - intros [n [Hn Hin]]. apply in_map_iff in Hin as [w [Heq Hw]].
    inversion Heq; subst. auto.
  - intros [Hu Hv]. exists u. split; [assumption |]. apply in_map_iff. eauto.
Qed.

Lemma subgraph_view_adj g fn fe u v d :
  In ((u, v), d) (nx._adj (nx.subgraph_view g fn fe)) <->
  In ((u, v), d) (nx._adj g) /\ fn u = true /\ fn v = true /\ fe u v = true.
Proof.
  unfold nx.subgraph_view. simpl. rewrite filter_In. simpl.
  rewrite !andb_true_iff. tauto.
Qed.

Lemma subgraph_view_nodes g fn fe n :
  In n (nx.nodes (nx.subgraph_view g fn fe)) <-> In n (nx.nodes g) /\ fn n = true.
Proof.
  unfold nx.subgraph_view, nx.nodes. simpl. rewrite !in_map_iff. split.
  - intros [[k a] [Hk Hin]]. simpl in Hk. subst k.
    apply filter_In in Hin as [Hin Hf]. split; [| assumption].
    exists (n, a). auto.
  - intros [[[k a] [Hk Hin]] Hf]. simpl in Hk. subst k.
    exists (n, a). split; [reflexivity |]. apply filter_In. auto.
Qed.

Lemma subgraph_view_closed g fn fe :
  closed g -> closed (nx.subgraph_view g fn fe).
Proof.
  intros Hc u v d Hin. apply subgraph_view_adj in Hin as [Hin [Hu [Hv _]]].
  destruct (Hc _ _ _ Hin) as [Hnu Hnv].
  split; apply subgraph_view_nodes; auto.
Qed.

Lemma restricted_view_closed g hn he :
  closed g -> closed (nx.restricted_view g hn he).
Proof. apply subgraph_view_closed. Qed.

Lemma restricted_view_adj g hn he u v d :
  In ((u, v), d) (nx._adj (nx.restricted_view g hn he)) ->
  In ((u, v), d) (nx._adj g) /\ mem_pair (u, v) he = false.
Proof.
  unfold nx.restricted_view. intros Hin.
  apply subgraph_view_adj in Hin as [Hin [_ [_ He]]].
  split; [assumption |]. now apply negb_true_iff in He.
Qed.

Lemma restricted_view_nodes g hn he n :
  In n (nx.nodes (nx.restricted_view g hn he)) -> In n (nx.nodes g).
Proof. unfold nx.restricted_view. intros Hin. now apply subgraph_view_nodes in Hin. Qed.

End GraphFacts.

Lemma read_closed (v : View) (original_graph g : Graph) :
  closed original_graph -> read v original_graph = Ok g -> closed g.
Proof.
  revert g. induction v as [| graph IH hn he path_to]; simpl; intros g Hc Hr.
  - inversion Hr; subst. assumption.
  - bind_inv Hr. specialize (IH _ Hc Ha).
    destruct path_to as [target |].
    + bind_inv Hr. inversion Hr; subst.
      apply subgraph_view_closed. now apply restricted_view_closed.
    + inversion Hr; subst. now apply restricted_view_closed.
Qed.

(** ** The topological compiler *)

Lemma dag_and_backwards_inv og0 G dag backwards :
  dag_and_backwards og0 G = Ok (dag, backwards) ->
  exists g0,
    read G og0 = Ok g0 /\
    dag = Sub G []
            (filter (fun e => String.eqb (edge_type g0 (fst e) (snd e)) "wrt") (nx.edges g0))
            None /\
    backwards = Sub G []
            (filter (fun e => negb (String.eqb (edge_type g0 (fst e) (snd e)) "wrt"))
                    (nx.edges g0))
            None.
Proof.
  unfold dag_and_backwards, subgraph_view. intros Hd.
  destruct (read G og0) as [g0 | e]; simpl in Hd; [| discriminate].
  inversion Hd; subst. exists g0. auto.
Qed.

Lemma traverse_loop_S fuel og G dag backwards output node start aggregating :
  traverse_loop (S fuel) og G dag backwards output node start aggregating =
  match next_step og G dag backwards node aggregating with
  | Raise e => stop og (Some e)
  | Ok Finished => stop og None
  | Ok (Branch branch) =>
      match enter_branch og G branch node with
      | Raise e => stop og (Some e)
      | Ok (agg, sub_graph, sub_dag, sub_backwards) =>
          let sub :=
            traverse_loop fuel og sub_graph sub_dag sub_backwards agg node node true in
          match raised sub with
          | Some _ => sub
          | None =>
              match leave_branch (graph_after sub) branch with
              | Raise e =>
                  {| graph_after := graph_after sub; emitted := emitted sub;
                     raised := Some e |}
              | Ok og' =>
                  after (emitted sub)
                    (traverse_loop fuel og' G dag backwards output node start aggregating)
              end
          end
      end
  | Ok (Advance successor statement) =>
      match consume_edge og G dag backwards output node start successor aggregating with
      | Raise e => {| graph_after := og; emitted := [statement]; raised := Some e |}
      | Ok (og', G', dag', backwards') =>
          after [statement]
            (traverse_loop fuel og' G' dag' backwards' output successor start aggregating)
      end
  end.
Proof. reflexivity. Qed.

(** What a pass does at a node without branches, by the number of its
    unaggregated successors. *)
Lemma next_step_no_branch og G dag backwards node aggregating g d b needs unaggregated :
  read G og = Ok g -> nx.edges g <> [] ->
  read dag og = Ok d -> read backwards og = Ok b ->
  get_branches d b node = Ok ([], needs) ->
  unaggregated_successors og dag node = Ok unaggregated ->
  next_step og G dag backwards node aggregating =
  if Nat.ltb 1 (List.length unaggregated) then Raise (NetworkXUnfeasible fatal_message)
  else
    sb <- nx.successors b node ;;
    sd <- nx.successors d node ;;
    match sb ++ sd with
    | [] => Ok Finished
    | successor :: _ =>
        statement <- get_statement_data g node successor aggregating ;;
        Ok (Advance successor statement)
    end.
Proof.
  intros Hg He Hd Hb Hbr Hun. unfold next_step. rewrite Hg. simpl.
  destruct (nx.edges g) as [| e es]; [congruence |].
  rewrite Hd, Hb. simpl. rewrite Hbr. simpl. rewrite Hun. simpl. reflexivity.
Qed.

Lemma get_statement_data_not_fatal g a b f :
  get_statement_data g a b f <> Raise (NetworkXUnfeasible fatal_message).
Proof.
  unfold get_statement_data.
  destruct (nx.node_attrs g a); simpl; [| discriminate].
  destruct (nx.node_attrs g b); simpl; [| discriminate].
  destruct (nx.edge_attrs g a b); simpl; discriminate.
Qed.

(** C6: at a node with no branch left, the compiler aborts with the fatal
    error, before yielding anything more, when the node has more than one
    unaggregated successor, and it does not abort so when it has at most
    one. *)
Theorem fatal_iff_several_unaggregated_successors
    (fuel : nat) (original_graph : Graph) (G dag backwards : View)
    (output node start : string) (aggregating : bool)
    (g d b : Graph) (needs_preserving : bool) (unaggregated : list string) :
  read G original_graph = Ok g -> nx.edges g <> [] ->
  read dag original_graph = Ok d -> read backwards original_graph = Ok b ->
  get_branches d b node = Ok ([], needs_preserving) ->
  unaggregated_successors original_graph dag node = Ok unaggregated ->
  aborts_fatally
    (traverse_loop (S fuel) original_graph G dag backwards output node start aggregating)
  <-> 1 < List.length unaggregated.
Proof.
  intros Hg He Hd Hb Hbr Hun. rewrite traverse_loop_S.
  rewrite (@next_step_no_branch _ _ _ _ node aggregating _ _ _ _ _ Hg He Hd Hb Hbr Hun).
  destruct (Nat.ltb 1 (List.length unaggregated)) eqn:Hlt.
  - apply Nat.ltb_lt in Hlt. split; [intros _; assumption |].
    intros _. split; reflexivity.
  - apply Nat.ltb_ge in Hlt. split; [| lia].
    intros [Hem Hra]. exfalso.
    unfold nx.successors in *.
    destruct (nx.has_node b node); simpl in *; [| discriminate].
    destruct (nx.has_node d node); simpl in *; [| discriminate].
    destruct (nx.succ b node ++ nx.succ d node) as [| successor rest];
      simpl in *; [discriminate |].
    pose proof (get_statement_data_not_fatal g node successor aggregating) as Hnf.
    destruct (get_statement_data g node successor aggregating) as [statement | e];
      simpl in *; [| congruence].
    destruct (consume_edge original_graph G dag backwards output node start successor
                           aggregating) as [[[[og' G'] dag'] backwards'] | e];
      simpl in *; discriminate.
Qed.

Lemma remove_edge_has_edge {A E : Type} `{Attrs A} `{Attrs E}
    (g g' : nx.DiGraph A E) u v :
  nx.remove_edge g u v = Ok g' -> nx.has_edge g' u v = false.
Proof.
  unfold nx.remove_edge. destruct (nx.has_edge g u v); [| discriminate].
  intros Hr. inversion Hr; subst. clear Hr.
  destruct (nx.has_edge _ u v) eqn:He; [| reflexivity].
  apply has_edge_In in He as [d Hin]. simpl in Hin.
  apply filter_In in Hin as [_ Hne]. simpl in Hne.
  rewrite pair_eqb_refl in Hne. discriminate.
Qed.

Lemma consume_edge_removes og G dag backwards output node start successor aggregating
    og' G' dag' backwards' :
  consume_edge og G dag backwards output node start successor aggregating
    = Ok (og', G', dag', backwards') ->
  nx.has_edge og' node successor = false.
Proof.
  unfold consume_edge. intros Hc.
  apply bind_Ok in Hc as [[[[og1 G1] dag1] backwards1] [_ Hc]].
  bind_inv Hc. inversion Hc; subst. eapply remove_edge_has_edge; eassumption.
Qed.

Lemma get_statement_data_edge g a b f statement :
  get_statement_data g a b f = Ok statement ->
  nx.edge_attrs g a b = Some (edge_data statement).
Proof.
  unfold get_statement_data. intros Hs.
  bind_inv Hs. bind_inv Hs. bind_inv Hs. inversion Hs; subst. simpl.
  destruct (nx.edge_attrs g a b); simpl in *; congruence.
Qed.

Lemma read_adj (v : View) (original_graph g : Graph) e :
  read v original_graph = Ok g -> In e (nx._adj g) -> In e (nx._adj original_graph).
Proof.
  revert g. induction v as [| graph IH hn he path_to]; simpl; intros g Hr Hin.
  - inversion Hr; subst. assumption.
  - bind_inv Hr. apply (IH _ Ha).
    destruct e as [[u v] d].
    destruct path_to as [target |].
    + bind_inv Hr. inversion Hr; subst.
      apply subgraph_view_adj in Hin as [Hin _].
      now apply restricted_view_adj in Hin as [Hin _].
    + inversion Hr; subst. now apply restricted_view_adj in Hin as [Hin _].
Qed.

(** A pass that has no state to save deletes the edge it took and keeps its
    views. *)
Lemma consume_edge_plain og G dag backwards output node start successor aggregating g :
  read G og = Ok g ->
  nx.has_edge og node successor = true ->
  aggregating = false \/ successor = output \/
    has_outside_dependencies og g successor = Ok false ->
  exists og',
    nx.remove_edge og node successor = Ok og' /\
    consume_edge og G dag backwards output node start successor aggregating
      = Ok (og', G, dag, backwards).
Proof.
  intros Hg He Hplain. unfold consume_edge.
  assert (Hr : exists og', nx.remove_edge og node successor = Ok og').
  { unfold nx.remove_edge. rewrite He. eauto. }
  destruct Hr as [og' Hr]. exists og'. split; [exact Hr |].
  destruct Hplain as [-> | [-> | Hout]].
  - cbn [andb bind]. now rewrite Hr.
  - rewrite String.eqb_refl, andb_false_r. cbn [bind]. now rewrite Hr.
  - destruct (aggregating && negb (String.eqb successor output)); cbn [bind].
    + rewrite Hg. cbn [bind]. rewrite Hout. cbn [bind]. now rewrite Hr.
    + now rewrite Hr.
Qed.

(** C10: at a node with no branch left that has a "wrt" successor [w] as
    well as a successor in the dependency graph, the statement the loop
    yields first is that of the edge to [w].  When the pass has no state to
    save (it is not in a branch, or [w] is the output, or [w] has no outside
    dependencies) the edge to [w] is deleted from the graph and the loop goes
    on from [w] with the same views.  In every case, either the pass raises
    and this statement is the only one yielded, or the edge to [w] is deleted
    and the loop goes on from [w].  The two views are those a frame derived
    from [G], possibly at an earlier state of the graph; when they are those
    of the present state, the edge to [w] is a "wrt" edge. *)
Theorem wrt_successor_is_taken_first
    (fuel : nat) (og0 original_graph : Graph) (G dag backwards : View)
    (output node start : string) (aggregating : bool)
    (g d b : Graph) (needs_preserving : bool) (unaggregated : list string)
    (w s : string) (ws ss : list string) :
  closed original_graph ->
  dag_and_backwards og0 G = Ok (dag, backwards) ->
  read G original_graph = Ok g -> nx.edges g <> [] ->
  read dag original_graph = Ok d -> read backwards original_graph = Ok b ->
  get_branches d b node = Ok ([], needs_preserving) ->
  unaggregated_successors original_graph dag node = Ok unaggregated ->
  List.length unaggregated <= 1 ->
  nx.successors b node = Ok (w :: ws) ->
  nx.successors d node = Ok (s :: ss) ->
  let run :=
    traverse_loop (S fuel) original_graph G dag backwards output node start aggregating in
  exists statement,
    get_statement_data g node w aggregating = Ok statement /\
    (og0 = original_graph -> get_type (edge_data statement) = "wrt") /\
    (exists rest, emitted run = statement :: rest) /\
    (aggregating = false \/ w = output \/
       has_outside_dependencies original_graph g w = Ok false ->
     exists og',
       nx.remove_edge original_graph node w = Ok og' /\
       nx.has_edge og' node w = false /\
       run = after [statement]
               (traverse_loop fuel og' G dag backwards output w start aggregating)) /\
    (forall e,
       consume_edge original_graph G dag backwards output node start w aggregating
         = Raise e ->
       emitted run = [statement] /\ raised run = Some e) /\
    (forall og' G' dag' backwards',
       consume_edge original_graph G dag backwards output node start w aggregating
         = Ok (og', G', dag', backwards') ->
       nx.has_edge og' node w = false /\
       run = after [statement]
               (traverse_loop fuel og' G' dag' backwards' output w start aggregating)).
Proof.
  intros Hcl Hviews Hg He Hd Hb Hbr Hun Hle Hsb Hsd run.
  pose proof (read_closed G Hcl Hg) as Hcg.
  destruct (dag_and_backwards_inv _ _ Hviews) as [g0 [Hg0 [Hdag Hback]]].
  (* the "wrt" successor is a successor in [g] *)
  assert (Hbg : b = nx.restricted_view g []
                  (filter (fun e => negb (String.eqb (edge_type g0 (fst e) (snd e)) "wrt"))
                          (nx.edges g0))).
  { subst backwards. simpl in Hb. rewrite Hg in Hb. simpl in Hb. congruence. }
  assert (Hw : exists dd, In ((node, w), dd) (nx._adj b)).
  { apply succ_In. unfold nx.successors in Hsb.
    destruct (nx.has_node b node); [| discriminate].
    inversion Hsb as [Hs]. rewrite Hs. simpl. auto. }
  destruct Hw as [dd Hw]. rewrite Hbg in Hw.
  apply restricted_view_adj in Hw as [Hwg Hhidden].
  destruct (Hcg _ _ _ Hwg) as [Hnode Hwn].
  destruct (lookup_In _ _ Hnode) as [da Hda].
  destruct (lookup_In _ _ Hwn) as [db Hdb].
  destruct (lookup_edge_In _ _ _ Hwg) as [e Hedge].
  set (statement := {| a_data := da; b_data := db; edge_data := e;
                       is_aggregating := aggregating |}).
  assert (Hst : get_statement_data g node w aggregating = Ok statement).
  { unfold get_statement_data, nx.node_attrs, nx.edge_attrs.
    rewrite Hda, Hdb, Hedge. reflexivity. }
  assert (Hog : nx.has_edge original_graph node w = true).
  { apply has_edge_In. exists dd. exact (@read_adj G original_graph g _ Hg Hwg). }
  assert (Hrun : run =
            match consume_edge original_graph G dag backwards output node start w
                               aggregating with
            | Raise e' =>
                {| graph_after := original_graph; emitted := [statement];
                   raised := Some e' |}
            | Ok (og', G', dag', backwards') =>
                after [statement]
                  (traverse_loop fuel og' G' dag' backwards' output w start aggregating)
            end).
  { unfold run. rewrite traverse_loop_S.
    rewrite (@next_step_no_branch _ _ _ _ node aggregating _ _ _ _ _ Hg He Hd Hb Hbr Hun).
    replace (Nat.ltb 1 (List.length unaggregated)) with false
      by (symmetry; apply Nat.ltb_ge; assumption).
    rewrite Hsb, Hsd. simpl. rewrite Hst. simpl.
    destruct (consume_edge original_graph G dag backwards output node start w aggregating)
      as [[[[og' G'] dag'] backwards'] | e']; reflexivity. }
  clearbody run.
  exists statement. split; [assumption |]. split; [| split; [| split; [| split]]].
  - intros Heq. subst og0. rewrite Hg in Hg0. inversion Hg0; subst g0. clear Hg0.
    simpl. change (get_type e) with
      (match Some e with Some d0 => get_type d0 | None => "" end).
    rewrite <- Hedge. fold (edge_type g node w).
    destruct (String.eqb (edge_type g node w) "wrt") eqn:Ht;
      [now apply String.eqb_eq in Ht |].
    exfalso. assert (Hin : mem_pair (node, w)
      (filter (fun e0 => negb (String.eqb (edge_type g (fst e0) (snd e0)) "wrt"))
              (nx.edges g)) = true); [| congruence].
    apply mem_pair_In. apply filter_In. split.
    + apply edges_In. split; [assumption |]. apply succ_In. eauto.
    + simpl. rewrite Ht. reflexivity.
  - rewrite Hrun.
    destruct (consume_edge original_graph G dag backwards output node start w aggregating)
      as [[[[og' G'] dag'] backwards'] | e']; cbn [after emitted app]; eauto.
  - intros Hplain.
    destruct (@consume_edge_plain original_graph G dag backwards output node start w
                aggregating g Hg Hog Hplain) as [og' [Hr Hc]].
    exists og'. split; [exact Hr |].
    split; [eapply remove_edge_has_edge; exact Hr |].
    rewrite Hrun, Hc. reflexivity.
  - intros e' Hc. rewrite Hrun, Hc. split; reflexivity.
  - intros og' G' dag' backwards' Hc. split.
    + eapply consume_edge_removes; exact Hc.
    + rewrite Hrun, Hc. reflexivity.
Qed.

Lemma fatal_on_fork :
  aborts_fatally
    (traverse_loop 1 (fst fork) whole
       (fst (frame_views (fst fork) whole)) (snd (frame_views (fst fork) whole))
       (snd fork) OB_label data_label false).
Proof.
  eapply (proj2 (@fatal_iff_several_unaggregated_successors
                   0 (fst fork) whole _ _ (snd fork) OB_label data_label false
                   _ _ _ _ _ _ _ _ _ _ _)).
  Unshelve.
  all: try (vm_compute; reflexivity).
  - vm_compute. lia.
  - vm_compute. discriminate.
Defined.

Lemma wrt_successor_first_in_scenario :
  exists statement og',
    get_statement_data (fst scenario) (snd scenario_upto_count) OB_label false
      = Ok statement /\
    get_type (edge_data statement) = "wrt" /\
    nx.remove_edge (fst scenario) (snd scenario_upto_count) OB_label = Ok og' /\
    nx.has_edge og' (snd scenario_upto_count) OB_label = false /\
    traverse_loop 1 (fst scenario) whole
      (fst (frame_views (fst scenario) whole)) (snd (frame_views (fst scenario) whole))
      (snd scenario) (snd scenario_upto_count) data_label false
    = after [statement]
        (traverse_loop 0 og' whole
           (fst (frame_views (fst scenario) whole))
           (snd (frame_views (fst scenario) whole))
           (snd scenario) OB_label data_label false).
Proof.
  destruct (@wrt_successor_is_taken_first
              0 (fst scenario) (fst scenario) whole
              (fst (frame_views (fst scenario) whole))
              (snd (frame_views (fst scenario) whole))
              (snd scenario) (snd scenario_upto_count) data_label false
              (fst scenario)
              (nx.restricted_view (fst scenario) []
                 (filter (fun e => String.eqb (edge_type (fst scenario) (fst e) (snd e)) "wrt")
                         (nx.edges (fst scenario))))
              (nx.restricted_view (fst scenario) []
                 (filter (fun e => negb (String.eqb (edge_type (fst scenario) (fst e) (snd e))
                                                    "wrt"))
                         (nx.edges (fst scenario))))
              true [snd scenario] OB_label (snd scenario) [] [])
    as [statement [Hs [Ht [_ [Hplain _]]]]].
  - intros u v d Hin. vm_compute in Hin.
    repeat (destruct Hin as [Hin | Hin];
            [inversion Hin; subst; split; vm_compute; tauto |]).
    contradiction.
  - vm_compute. reflexivity.
  - vm_compute. reflexivity.
  - vm_compute. discriminate.
  - vm_compute. reflexivity.
  - vm_compute. reflexivity.
  - vm_compute. reflexivity.
  - vm_compute. reflexivity.
  - vm_compute. lia.
  - vm_compute. reflexivity.
  - vm_compute. reflexivity.
  - destruct (Hplain (or_introl eq_refl)) as [og' [Hr [Hgone Hrun]]].
    exists statement, og'.
    split; [exact Hs |]. split; [exact (Ht eq_refl) |].
    split; [exact Hr |]. split; [exact Hgone | exact Hrun].
Defined.

(** ** The caller's graph *)

Lemma assign_last (heap : Heap) (g g' : Graph) :
  assign (heap ++ [g]) (List.length heap) g' = heap ++ [g'].
Proof. induction heap as [| x r IH]; simpl; [reflexivity | now rewrite IH]. Qed.

Lemma compile_unfold fuel heap G g output node :
  nth_error heap G = Some g ->
  compile fuel heap G output node =
  let r := traverse_query_graph fuel (nx.copy g) output node in
  Some (heap ++ [graph_after r], emitted r, raised r).
Proof.
  intros Hg. unfold compile, copy. rewrite Hg.
  rewrite nth_error_app2 by lia. rewrite Nat.sub_diag. simpl.
  rewrite assign_last. reflexivity.
Qed.

(** *** What a run consumes *)

Lemma next_step_Advance og G dag backwards node aggregating successor statement :
  next_step og G dag backwards node aggregating = Ok (Advance successor statement) ->
  exists g,
    read G og = Ok g /\ get_statement_data g node successor aggregating = Ok statement.
Proof.
  unfold next_step. intros Hn.
  apply bind_Ok in Hn as [g [Hg Hn]]. exists g. split; [exact Hg |].
  destruct (nx.edges g); [discriminate |].
  apply bind_Ok in Hn as [d [_ Hn]].
  apply bind_Ok in Hn as [b [_ Hn]].
  apply bind_Ok in Hn as [[branches needs] [_ Hn]].
  destruct branches; [| discriminate].
  apply bind_Ok in Hn as [unaggregated [_ Hn]].
  destruct (Nat.ltb 1 (List.length unaggregated)); [discriminate |].
  apply bind_Ok in Hn as [sb [_ Hn]].
  apply bind_Ok in Hn as [sd [_ Hn]].
  destruct (sb ++ sd) as [| successor' rest]; [discriminate |].
  apply bind_Ok in Hn as [statement' [Hs Hn]].
  injection Hn as <- <-. exact Hs.
Qed.

Lemma consume_edge_inv og G dag backwards output node start successor aggregating
    og' G' dag' backwards' :
  consume_edge og G dag backwards output node start successor aggregating
    = Ok (og', G', dag', backwards') ->
  exists og1,
    (og1 = og \/ exists saved, save_state og start successor = Ok (og1, saved)) /\
    nx.remove_edge og1 node successor = Ok og'.
Proof.
  unfold consume_edge. intros Hc.
  apply bind_Ok in Hc as [[[[og1 G1] dag1] backwards1] [Hsave Hc]].
  apply bind_Ok in Hc as [og2 [Hr Hc]]. injection Hc as <- _ _ _.
  exists og1. split; [| exact Hr].
  destruct (aggregating && negb (String.eqb successor output)).
  - apply bind_Ok in Hsave as [g [_ Hsave]].
    apply bind_Ok in Hsave as [outside [_ Hsave]].
    destruct outside.
    + apply bind_Ok in Hsave as [[og_saved saved] [Hs Hsave]].
      apply bind_Ok in Hsave as [G2 [_ Hsave]].
      apply bind_Ok in Hsave as [[dag2 backwards2] [_ Hsave]].
      injection Hsave as <- _ _ _. right. eauto.
    + injection Hsave as <- _ _ _. now left.
  - injection Hsave as <- _ _ _. now left.
Qed.

Lemma leave_branch_inv og branch og' :
  leave_branch og branch = Ok og' ->
  exists agg wrt g1,
    nx.remove_edge og agg wrt = Ok g1 /\ nx.remove_node g1 agg = Ok og'.
Proof.
  unfold leave_branch. intros Hl.
  apply bind_Ok in Hl as [agg [_ Hl]].
  apply bind_Ok in Hl as [wrt [_ Hl]].
  apply bind_Ok in Hl as [g1 [Hr Hl]]. eauto.
Qed.

Lemma consumes_app g steps1 g1 :
  consumes g steps1 g1 ->
  forall steps2 g2, consumes g1 steps2 g2 -> consumes g (steps1 ++ steps2) g2.
Proof.
  induction 1 as [g | g a b statement ga gb steps g' Hin Hsave Hr _ IH
                  | g agg wrt ga gb steps g' Hr Hn _ IH]; intros steps2 g2 H2.
  - exact H2.
  - cbn [app]. eapply consumes_edge; eauto.
  - eapply consumes_branch; eauto.
Qed.

(** A run of the loop that ends without an exception has read every
    statement it yielded from an edge of [original_graph] and deleted that
    edge, and has deleted the "wrt" edge and the aggregation node of every
    branch it compiled. *)
Lemma traverse_loop_consumes (fuel : nat) :
  forall og G dag backwards output node start aggregating,
    raised (traverse_loop fuel og G dag backwards output node start aggregating) = None ->
    exists steps,
      map snd steps
      = emitted (traverse_loop fuel og G dag backwards output node start aggregating) /\
      consumes og steps
        (graph_after (traverse_loop fuel og G dag backwards output node start aggregating)).
Proof.
  induction fuel as [| fuel IH]; intros og G dag backwards output node start aggregating.
  - cbn. discriminate.
  - rewrite traverse_loop_S.
    destruct (next_step og G dag backwards node aggregating)
      as [[| branch | successor statement] | e] eqn:Hn.
    + intros _. exists []. split; [reflexivity | apply consumes_nothing].
    + destruct (enter_branch og G branch node)
        as [[[[agg sub_graph] sub_dag] sub_backwards] | e]; [| cbn; discriminate].
      cbv zeta.
      specialize (IH og sub_graph sub_dag sub_backwards agg node node true) as IHsub.
      destruct (raised (traverse_loop fuel og sub_graph sub_dag sub_backwards agg node
                                      node true)) as [e |] eqn:Hsub.
      { intros Hr. rewrite Hsub in Hr. discriminate. }
      destruct (IHsub eq_refl) as [steps1 [Hm1 Hc1]].
      destruct (leave_branch _ branch) as [og' | e] eqn:Hl; [| cbn; discriminate].
      cbn [after raised emitted graph_after]. intros Hrest.
      destruct (IH og' G dag backwards output node start aggregating Hrest)
        as [steps2 [Hm2 Hc2]].
      destruct (leave_branch_inv _ _ Hl) as [agg' [wrt [g1 [Hre Hrn]]]].
      exists (steps1 ++ steps2). split.
      * rewrite map_app, Hm1, Hm2. reflexivity.
      * eapply consumes_app; [exact Hc1 |].
        eapply consumes_branch; [exact Hre | exact Hrn | exact Hc2].
    + destruct (consume_edge og G dag backwards output node start successor aggregating)
        as [[[[og' G'] dag'] backwards'] | e] eqn:Hc; [| cbn; discriminate].
      cbn [after raised emitted graph_after]. intros Hrest.
      destruct (IH og' G' dag' backwards' output successor start aggregating Hrest)
        as [steps [Hm Hcs]].
      destruct (next_step_Advance _ _ _ _ _ _ Hn) as [g [Hg Hs]].
      destruct (consume_edge_inv _ _ _ _ _ _ _ _ _ Hc) as [og1 [Hsave Hr]].
      exists ((node, successor, statement) :: steps). split.
      * cbn [map snd app]. now rewrite Hm.
      * eapply consumes_edge; [| | exact Hr | exact Hcs].
        -- apply (@read_adj G og g _ Hg). apply lookup_edge_Some.
           exact (get_statement_data_edge _ _ _ _ Hs).
        -- destruct Hsave as [-> | [saved Hsave]]; [now left | right; eauto].
    + cbn. discriminate.
Qed.

Lemma traverse_query_graph_consumes fuel g output node :
  raised (traverse_query_graph fuel g output node) = None ->
  exists steps,
    map snd steps = emitted (traverse_query_graph fuel g output node) /\
    consumes g steps (graph_after (traverse_query_graph fuel g output node)).
Proof.
  unfold traverse_query_graph.
  destruct (G <- subgraph_view g Original None None None [] None ;;
            ' (dag, backwards) <- dag_and_backwards g G ;; Ok (G, dag, backwards))
    as [[[G dag] backwards] | e]; [| cbn; discriminate].
  apply traverse_loop_consumes.
Qed.

(** C1, as the code has it: the compiler copies the caller's graph on entry
    and consumes the copy.  The object the caller passed is the same after
    the call as before, and a second call on it yields the same statements
    and ends the same way.  The copy is a new object; when the run ends
    without an exception, each statement it yielded was read from an edge of
    the copy and that edge was then deleted from the copy, as were the "wrt"
    edge and the aggregation node of each branch compiled
    ([consumes]). *)
Theorem compile_leaves_caller_graph
    (fuel : nat) (heap heap' : Heap) (G : nat) (g : Graph) (output node : string)
    (statements : list Statement) (e : option exn) :
  nth_error heap G = Some g ->
  compile fuel heap G output node = Some (heap', statements, e) ->
  nth_error heap' G = Some g /\
  (exists heap'', compile fuel heap' G output node = Some (heap'', statements, e)) /\
  exists original_graph,
    heap' = heap ++ [original_graph] /\
    (e = None ->
     exists steps,
       map snd steps = statements /\ consumes (nx.copy g) steps original_graph).
Proof.
  intros Hg Hc. rewrite (compile_unfold fuel heap G output node Hg) in Hc.
  simpl in Hc. inversion Hc; subst. clear Hc.
  assert (Hg' : nth_error (heap ++ [graph_after (traverse_query_graph fuel (nx.copy g)
                                                    output node)]) G
                = Some g).
  { rewrite nth_error_app1; [assumption |]. apply nth_error_Some. congruence. }
  split; [assumption |]. split.
  - rewrite (compile_unfold fuel _ G output node Hg'). simpl. eauto.
  - eexists. split; [reflexivity |].
    intros Hnone. now apply traverse_query_graph_consumes.
Qed.

Lemma compile_chain_twice :
  exists heap' statements original_graph steps,
    compile 10 [fst chain] 0 (snd chain) data_label = Some (heap', statements, None) /\
    nth_error heap' 0 = Some (fst chain) /\
    (exists heap'',
       compile 10 heap' 0 (snd chain) data_label = Some (heap'', statements, None)) /\
    heap' = [fst chain; original_graph] /\
    List.length steps = 3 /\ map snd steps = statements /\
    consumes (nx.copy (fst chain)) steps original_graph /\
    nx.edges original_graph = [].
Proof.
  pose (r := traverse_query_graph 10 (nx.copy (fst chain)) (snd chain) data_label).
  assert (Hraised : raised r = None) by (vm_compute; reflexivity).
  assert (Hlength : List.length (emitted r) = 3) by (vm_compute; reflexivity).
  assert (Hedges : nx.edges (graph_after r) = []) by (vm_compute; reflexivity).
  assert (Hc : compile 10 [fst chain] 0 (snd chain) data_label
               = Some ([fst chain; graph_after r], emitted r, None)).
  { rewrite (@compile_unfold 10 [fst chain] 0 (fst chain) (snd chain) data_label eq_refl).
    cbv zeta. fold r. rewrite Hraised. reflexivity. }
  destruct (@compile_leaves_caller_graph 10 [fst chain] [fst chain; graph_after r] 0
              (fst chain) (snd chain) data_label (emitted r) None eq_refl Hc)
    as [Hsame [Hagain [original_graph [Hheap Hsteps]]]].
  destruct (Hsteps eq_refl) as [steps [Hm Hcs]].
  assert (Heq : graph_after r = original_graph).
  { apply (f_equal (fun l => nth 1 l (graph_after r))) in Hheap. exact Hheap. }
  exists [fst chain; graph_after r], (emitted r), original_graph, steps.
  split; [exact Hc |]. split; [exact Hsame |]. split; [exact Hagain |].
  split; [exact Hheap |].
  split; [rewrite <- Hlength, <- Hm; symmetry; apply length_map |].
  split; [exact Hm |]. split; [exact Hcs |].
  rewrite <- Heq. exact Hedges.
Defined.

(** C1, as the claim states it, fails on the pure traversal chain: the three
    statements are yielded, the graph the caller passed still has its three
    edges, and compiling it again yields three statements again. *)
Lemma caller_graph_not_consumed :
  exists heap' statements g,
    compile 10 [fst chain] 0 (snd chain) data_label = Some (heap', statements, None) /\
    List.length statements = 3 /\
    nth_error heap' 0 = Some g /\
    List.length (nx.edges g) = 3 /\
    exists heap'' statements',
      compile 10 heap' 0 (snd chain) data_label = Some (heap'', statements', None) /\
      List.length statements' = 3.
Proof.
  do 3 eexists.
  split; [vm_compute; reflexivity |].
  split; [reflexivity |].
  split; [reflexivity |].
  split; [reflexivity |].
  do 2 eexists. split; [vm_compute; reflexivity | reflexivity].
Qed.

(** ** Labels *)

Lemma append_assoc (a b c : string) : ((a ++ b) ++ c = a ++ (b ++ c))%string.
Proof. induction a as [| x r IH]; simpl; [reflexivity | now rewrite IH]. Qed.

Lemma free_of_split c s1 s2 r1 r2 :
  free_of c s1 -> free_of c s2 ->
  (s1 ++ String c r1 = s2 ++ String c r2)%string -> s1 = s2.
Proof.
  revert s2. induction s1 as [| a s1 IH]; intros [| b s2]; simpl; intros H1 H2 Heq.
  - reflexivity.
  - inversion Heq; subst. destruct H2 as [Hb _]. congruence.
  - inversion Heq; subst. destruct H1 as [Ha _]. congruence.
  - inversion Heq; subst. f_equal. destruct H1, H2. eapply IH; eauto.
Qed.

Lemma string_of_uint_free d :
  free_of (ascii_of_nat 10) (NilEmpty.string_of_uint d).
Proof.
  induction d; simpl; auto; split; auto; discriminate.
Qed.

Lemma str_of_nat_inj n m : str_of_nat n = str_of_nat m -> n = m.
Proof.
  unfold str_of_nat. intros Heq.
  assert (Hu : Nat.to_uint n = Nat.to_uint m).
  { pose proof (NilEmpty.usu (Nat.to_uint n)) as Hn.
    pose proof (NilEmpty.usu (Nat.to_uint m)) as Hm.
    rewrite Heq in Hn. congruence. }
  rewrite <- (DecimalNat.Unsigned.of_to n), <- (DecimalNat.Unsigned.of_to m).
  now rewrite Hu.
Qed.

Lemma has_id_inj k n m : has_id k n -> has_id k m -> n = m.
Proof.
  intros [r1 H1] [r2 H2]. apply str_of_nat_inj. subst k.
  unfold newline in H2. simpl in H2.
  eapply free_of_split; [| | exact H2]; apply string_of_uint_free.
Qed.

(** ** Dictionary updates *)

Section UpdateFacts.
Context {A E : Type} `{Attrs A} `{Attrs E}.

Lemma update_node_fresh n (a : A) (d : list (string * A)) :
  ~ In n (map fst d) -> nx.update_node n a d = d ++ [(n, update no_attrs a)].
Proof.
  induction d as [| [k v] r IH]; simpl; intros Hn; [reflexivity |].
  destruct (String.eqb k n) eqn:Hk.
  - apply String.eqb_eq in Hk. tauto.
  - rewrite IH by tauto. reflexivity.
Qed.

Lemma update_node_keys n (a : A) (d : list (string * A)) :
  In n (map fst d) -> map fst (nx.update_node n a d) = map fst d.
Proof.
  induction d as [| [k v] r IH]; simpl; intros Hn; [contradiction |].
  destruct (String.eqb k n) eqn:Hk; simpl; [reflexivity |].
  f_equal. apply IH. destruct Hn as [Hn | Hn]; [| assumption].
  subst. rewrite String.eqb_refl in Hk. discriminate.
Qed.

Lemma update_edge_fresh e (a : E) (d : list ((string * string) * E)) :
  ~ In e (map fst d) -> nx.update_edge e a d = d ++ [(e, update no_attrs a)].
Proof.
  induction d as [| [k v] r IH]; simpl; intros Hn; [reflexivity |].
  destruct (pair_eqb k e) eqn:Hk.
  - apply pair_eqb_eq in Hk. tauto.
  - rewrite IH by tauto. reflexivity.
Qed.

Lemma update_edge_In e (a : E) (d : list ((string * string) * E)) x :
  In x (nx.update_edge e a d) -> In x d \/ exists old, x = (e, update old a).
Proof.
  induction d as [| [k v] r IH]; simpl; intros Hin.
  - destruct Hin as [Hin | []]. right. eauto.
  - destruct (pair_eqb k e) eqn:Hk.
    + apply pair_eqb_eq in Hk. subst k. destruct Hin as [Hin | Hin]; [| auto].
      right. eauto.
    + destruct Hin as [Hin | Hin]; [auto |].
      destruct (IH Hin) as [Hold | Hnew]; auto.
Qed.

Lemma lookup_app_l {V : Type} n (d d' : list (string * V)) :
  In n (map fst d) -> nx.lookup n (d ++ d') = nx.lookup n d.
Proof.
  induction d as [| [k v] r IH]; simpl; intros Hn; [contradiction |].
  destruct (String.eqb k n) eqn:Hk; [reflexivity |].
  apply IH. destruct Hn as [Hn | Hn]; [| assumption].
  subst. rewrite String.eqb_refl in Hk. discriminate.
Qed.

Lemma lookup_app_r {V : Type} n (d d' : list (string * V)) :
  ~ In n (map fst d) -> nx.lookup n (d ++ d') = nx.lookup n d'.
Proof.
  induction d as [| [k v] r IH]; simpl; intros Hn; [reflexivity |].
  destruct (String.eqb k n) eqn:Hk.
  - apply String.eqb_eq in Hk. tauto.
  - apply IH. tauto.
Qed.

Lemma lookup_nth {V : Type} n (d : list (string * V)) v :
  nx.lookup n d = Some v -> exists pos, nth_error d pos = Some (n, v).
Proof.
  induction d as [| [k w] r IH]; simpl; intros Hl; [discriminate |].
  destruct (String.eqb k n) eqn:Hk.
  - apply String.eqb_eq in Hk. inversion Hl; subst. exists 0. reflexivity.
  - destruct (IH Hl) as [pos Hpos]. exists (S pos). assumption.
Qed.

(** [add_edge] between two nodes of the graph leaves the node dictionary
    alone. *)
Lemma add_edge_nodes (g : nx.DiGraph A E) u v (a : E) :
  In u (nx.nodes g) -> In v (nx.nodes g) ->
  nx.add_edge g u v a
  = {| nx._node := nx._node g; nx._adj := nx.update_edge (u, v) a (nx._adj g) |}.
Proof.
  intros Hu Hv. unfold nx.add_edge.
  apply has_node_In in Hu. rewrite Hu.
  apply has_node_In in Hv. rewrite Hv. reflexivity.
Qed.

End UpdateFacts.

Lemma update_no_attrs_edge (a : EdgeData) : update no_attrs a = a.
Proof.
  destruct a as [t l o s]. unfold update, no_attrs. simpl.
  destruct t, l, o, s; reflexivity.
Qed.

Lemma get_type_update old a t :
  type_ a = Some t -> get_type (update old a) = t.
Proof. unfold get_type. simpl. intros Ht. rewrite Ht. reflexivity. Qed.

(** ** What the builder maintains *)

Unset Implicit Arguments.

Lemma node_data_In g n d : node_data g n = Ok d -> In n (nx.nodes g).
Proof.
  unfold node_data, nx.node_attrs, nx.nodes.
  destruct (nx.lookup n (nx._node g)) as [a |] eqn:Hl; [| discriminate].
  intros _. eapply lookup_Some; eassumption.
Qed.

Lemma node_data_same_nodes (g g' : Graph) n :
  nx._node g' = nx._node g -> node_data g' n = node_data g n.
Proof. unfold node_data, nx.node_attrs. now intros ->. Qed.

Lemma forward_closed g : forward g -> closed g.
Proof.
  intros Hf u v e Hin. destruct (Hf _ _ _ Hin) as [du [dv [Hu [Hv _]]]].
  split; eapply node_data_In; eassumption.
Qed.

Lemma numbered_node_data g k :
  numbered g -> In k (nx.nodes g) ->
  exists d, node_data g k = Ok d /\ d.(i_) < nx.number_of_nodes g.
Proof.
  intros Hn Hin. destruct (lookup_In _ _ Hin) as [a Ha].
  destruct (lookup_nth _ _ Ha) as [pos Hpos].
  destruct (Hn _ _ _ Hpos) as [d [-> [Hi _]]].
  exists d. split.
  - unfold node_data, nx.node_attrs. now rewrite Ha.
  - rewrite Hi. unfold nx.number_of_nodes. apply nth_error_Some. congruence.
Qed.

Lemma numbered_fresh g k :
  numbered g -> has_id k (nx.number_of_nodes g) -> ~ In k (nx.nodes g).
Proof.
  intros Hn Hid Hin. destruct (lookup_In _ _ Hin) as [a Ha].
  destruct (lookup_nth _ _ Ha) as [pos Hpos].
  destruct (Hn _ _ _ Hpos) as [d [_ [_ Hid']]].
  assert (Hlt : pos < List.length (nx._node g)) by (apply nth_error_Some; congruence).
  pose proof (has_id_inj Hid Hid') as Heq. unfold nx.number_of_nodes in Heq. lia.
Qed.

Lemma make_node_label g parent sg sc lbl ty op st g' n :
  make_node g parent sg sc lbl ty op st = (g', n) -> has_id n (nx.number_of_nodes g).
Proof.
  unfold make_node. intros Hm.
  destruct (nx.node_attrs g lbl) as [[d |] |]; destruct parent; inversion Hm; subst;
    eexists; rewrite !append_assoc; reflexivity.
Qed.

Lemma make_node_spec g parent sg sc lbl ty op st g' n :
  numbered g -> closed g -> In parent (nx.nodes g) ->
  make_node g (Some parent) sg sc lbl ty op st = (g', n) ->
  ~ In n (nx.nodes g) /\
  nx._node g' = nx._node g ++
    [(n, Some {| subgraph_ := sg; scalars_ := sc; name_ := lbl;
                 i_ := nx.number_of_nodes g |})] /\
  nx._adj g' = nx._adj g ++
    [((parent, n), {| type_ := Some ty; label_ := Some (ty ++ "-" ++ op)%string;
                      operation_ := Some op; style_ := st |})].
Proof.
  intros Hn Hc Hp Hm.
  pose proof (numbered_fresh _ _ Hn (make_node_label _ _ _ _ _ _ _ _ _ _ Hm)) as Hfresh.
  unfold make_node in Hm.
  remember (match nx.node_attrs g lbl with
            | Some (Some d) => (str_of_nat (nx.number_of_nodes g) ++ newline ++ name_ d)%string
            | _ => (str_of_nat (nx.number_of_nodes g) ++ newline ++ lbl)%string
            end ++ newline ++ graph2string sg)%string as lab eqn:Hlab.
  inversion Hm; subst g' n. clear Hm.
  split; [assumption |].
  set (d := Some {| subgraph_ := sg; scalars_ := sc; name_ := lbl;
                    i_ := nx.number_of_nodes g |}).
  assert (Hnode : nx._node (nx.add_node g lab d) = nx._node g ++ [(lab, d)]).
  { unfold nx.add_node. simpl. now rewrite update_node_fresh. }
  assert (Hp' : In parent (nx.nodes (nx.add_node g lab d))).
  { unfold nx.nodes. rewrite Hnode, map_app. apply in_or_app. left. exact Hp. }
  assert (Hl' : In lab (nx.nodes (nx.add_node g lab d))).
  { unfold nx.nodes. rewrite Hnode, map_app. apply in_or_app. right. simpl. auto. }
  rewrite (add_edge_nodes _ _ _ _ Hp' Hl'). simpl. split; [exact Hnode |].
  rewrite update_edge_fresh.
  - rewrite update_no_attrs_edge. reflexivity.
  - intros Hin. apply in_map_iff in Hin as [[[u v] e] [Hk Hin]].
    simpl in Hk. inversion Hk; subst. apply Hfresh. eapply Hc. eassumption.
Qed.

Lemma numbered_snoc (g : Graph) n d (adj : list ((string * string) * EdgeData)) :
  numbered g -> has_id n (nx.number_of_nodes g) -> d.(i_) = nx.number_of_nodes g ->
  numbered ({| nx._node := nx._node g ++ [(n, Some d)]; nx._adj := adj |} : Graph).
Proof.
  intros Hn Hid Hi pos k a. simpl. intros Hnth.
  destruct (Nat.lt_ge_cases pos (List.length (nx._node g))) as [Hlt | Hge].
  - rewrite nth_error_app1 in Hnth by assumption. eapply Hn; eassumption.
  - rewrite nth_error_app2 in Hnth by assumption.
    destruct (pos - List.length (nx._node g)) as [| m] eqn:Hm; simpl in Hnth.
    + inversion Hnth; subst. exists d.
      assert (pos = nx.number_of_nodes g) by (unfold nx.number_of_nodes; lia).
      subst pos. auto.
    + destruct m; discriminate.
Qed.

Lemma node_data_snoc (g : Graph) n a (adj : list ((string * string) * EdgeData)) k dk :
  node_data g k = Ok dk ->
  node_data ({| nx._node := nx._node g ++ [(n, a)]; nx._adj := adj |} : Graph) k = Ok dk.
Proof.
  intros Hk. pose proof (node_data_In _ _ _ Hk) as Hin.
  unfold node_data, nx.node_attrs in *. simpl.
  rewrite lookup_app_l by exact Hin. exact Hk.
Qed.

Lemma node_data_new (g : Graph) n d (adj : list ((string * string) * EdgeData)) :
  ~ In n (nx.nodes g) ->
  node_data ({| nx._node := nx._node g ++ [(n, Some d)]; nx._adj := adj |} : Graph) n = Ok d.
Proof.
  intros Hfresh. unfold node_data, nx.node_attrs. simpl.
  rewrite lookup_app_r by exact Hfresh. simpl. now rewrite String.eqb_refl.
Qed.

(** [make_node] under a parent of the graph: a new last node, numbered by
    the count, and an edge to it from the parent. *)
Lemma make_node_invariant g parent sg sc lbl ty op st g' n :
  builder_invariant g -> In parent (nx.nodes g) ->
  make_node g (Some parent) sg sc lbl ty op st = (g', n) ->
  builder_invariant g' /\
  ~ In n (nx.nodes g) /\
  nx.nodes g' = nx.nodes g ++ [n] /\
  (exists d, node_data g' n = Ok d /\ d.(i_) = nx.number_of_nodes g) /\
  (forall k dk, node_data g k = Ok dk -> node_data g' k = Ok dk).
Proof.
  intros [Hn Hf] Hp Hm.
  pose proof (make_node_label _ _ _ _ _ _ _ _ _ _ Hm) as Hid.
  destruct (make_node_spec _ _ _ _ _ _ _ _ _ _ Hn (forward_closed _ Hf) Hp Hm)
    as [Hfresh [Hnode Hadj]].
  destruct g' as [node' adj']. simpl in Hnode, Hadj. subst node' adj'.
  assert (Hold : forall k dk, node_data g k = Ok dk ->
            node_data {| nx._node := nx._node g ++
                           [(n, Some {| subgraph_ := sg; scalars_ := sc; name_ := lbl;
                                        i_ := nx.number_of_nodes g |})];
                         nx._adj := nx._adj g ++
                           [((parent, n),
                             {| type_ := Some ty; label_ := Some (ty ++ "-" ++ op)%string;
                                operation_ := Some op; style_ := st |})] |} k = Ok dk).
  { intros k dk Hk. now apply node_data_snoc. }
  split; [split |]; [| | split; [| split; [| split]]].
  - apply numbered_snoc; auto.
  - intros u v e Hin. simpl in Hin. apply in_app_or in Hin as [Hin | [Hin | []]].
    + destruct (Hf _ _ _ Hin) as [du [dv [Hu [Hv Ho]]]].
      exists du, dv. auto.
    + inversion Hin; subst u v e. clear Hin.
      destruct (numbered_node_data _ _ Hn Hp) as [dp [Hdp Hlt]].
      exists dp. eexists. split; [now apply Hold |].
      split; [now apply node_data_new |]. left. simpl. exact Hlt.
  - assumption.
  - unfold nx.nodes. simpl. rewrite map_app. reflexivity.
  - eexists. split; [now apply node_data_new | reflexivity].
  - exact Hold.
Qed.

Lemma add_edge_invariant g u v a du dv :
  builder_invariant g -> node_data g u = Ok du -> node_data g v = Ok dv ->
  du.(i_) < dv.(i_) \/ type_ a = Some "wrt" ->
  builder_invariant (nx.add_edge g u v a) /\
  nx._node (nx.add_edge g u v a) = nx._node g.
Proof.
  intros [Hn Hf] Hu Hv Ho.
  rewrite (add_edge_nodes _ _ _ a (node_data_In _ _ _ Hu) (node_data_In _ _ _ Hv)).
  split; [| reflexivity]. split.
  - intros pos k x Hnth. simpl in Hnth. eapply Hn; eassumption.
  - intros u' v' e Hin. simpl in Hin.
    apply update_edge_In in Hin as [Hin | [old Hnew]].
    + destruct (Hf _ _ _ Hin) as [du' [dv' [Hu' [Hv' Ho']]]]. exists du', dv'. auto.
    + inversion Hnew; subst u' v' e. exists du, dv.
      split; [exact Hu |]. split; [exact Hv |].
      destruct Ho as [Hlt | Hw]; [left; exact Hlt | right].
      now apply get_type_update.
Qed.

Lemma add_dependencies_invariant (a : EdgeData) n dn dependencies : forall g,
  builder_invariant g -> node_data g n = Ok dn ->
  Forall (fun dep => exists dd, node_data g dep = Ok dd /\ dd.(i_) < dn.(i_)) dependencies ->
  builder_invariant (fold_left (fun g dep => nx.add_edge g dep n a) dependencies g) /\
  nx._node (fold_left (fun g dep => nx.add_edge g dep n a) dependencies g) = nx._node g.
Proof.
  induction dependencies as [| dep deps IH]; simpl; intros g Hinv Hn Hall; [auto |].
  inversion Hall as [| ? ? [dd [Hdd Hlt]] Hrest]; subst.
  destruct (add_edge_invariant _ _ _ a _ _ Hinv Hdd Hn (or_introl Hlt)) as [Hinv' Hnodes].
  destruct (IH (nx.add_edge g dep n a) Hinv') as [Hinv'' Hnodes''].
  - now rewrite (node_data_same_nodes _ _ _ Hnodes).
  - eapply Forall_impl; [| exact Hrest]. intros x [dx [Hx Hltx]].
    exists dx. now rewrite (node_data_same_nodes _ _ _ Hnodes).
  - split; [exact Hinv'' | congruence].
Qed.

Lemma init_invariant : builder_invariant (G QueryGraph_init).
Proof.
  remember (G QueryGraph_init) as g0 eqn:Heq. vm_compute in Heq. subst g0. split.
  - intros [| pos] k a Hnth; simpl in Hnth.
    + inversion Hnth; subst. eexists. split; [reflexivity |]. split; [reflexivity |].
      exists ("data" ++ newline ++ "data")%string. reflexivity.
    + destruct pos; discriminate.
  - intros u v e Hin. destruct Hin.
Qed.

Lemma dependencies_are_older g g' dn dependencies :
  numbered g ->
  (forall k dk, node_data g k = Ok dk -> node_data g' k = Ok dk) ->
  dn.(i_) = nx.number_of_nodes g ->
  Forall (fun d => In d (nx.nodes g)) dependencies ->
  Forall (fun dep => exists dd, node_data g' dep = Ok dd /\ dd.(i_) < dn.(i_)) dependencies.
Proof.
  intros Hn Hold Hi Hall. eapply Forall_impl; [| exact Hall].
  intros dep Hin. destruct (numbered_node_data _ _ Hn Hin) as [dd [Hdd Hlt]].
  exists dd. split; [now apply Hold | lia].
Qed.

Opaque make_node.

(** Every graph the builder produces has its nodes numbered in creation
    order and its dependency edges pointing forward. *)
Lemma built_invariant g : built g -> builder_invariant g.
Proof.
  induction 1 as [| g parent path g' n Hb IH Hadd
                  | g parent deps op g' n Hb IH Hdeps Hadd
                  | g parent wrt op g' n Hb IH Hadd
                  | g parent deps op g' n Hb IH Hdeps Hadd].
  - apply init_invariant.
  - unfold add_traversal in Hadd.
    apply bind_Ok in Hadd as [d [Hd Hadd]]. apply bind_Ok in Hadd as [p0 [_ Hadd]].
    destruct (make_node _ _ _ _ _ _ _ _) as [g1 n1] eqn:Hm.
    inversion Hadd; subst g' n. clear Hadd.
    eapply make_node_invariant; [exact IH | eapply node_data_In; exact Hd | exact Hm].
  - unfold add_filter in Hadd. apply bind_Ok in Hadd as [d [Hd Hadd]].
    destruct (make_node g (Some parent) (subgraph_ d) [] (name_ d) "filter"
                        ("WHERE " ++ op)%string None) as [g1 n1] eqn:Hm.
    inversion Hadd; subst g' n. clear Hadd.
    destruct (make_node_invariant _ _ _ _ _ _ _ _ _ _ IH (node_data_In _ _ _ Hd) Hm)
      as [Hinv [_ [_ [[dn [Hdn Hi]] Hold]]]].
    eapply add_dependencies_invariant; [exact Hinv | exact Hdn |].
    eapply dependencies_are_older; eauto. apply IH.
  - unfold add_aggregation in Hadd.
    apply bind_Ok in Hadd as [w [Hw Hadd]]. apply bind_Ok in Hadd as [p [Hp Hadd]].
    destruct (make_node g (Some parent) (subgraph_ w) (scalars_ p ++ [op]) op "aggr" op None)
      as [g1 n1] eqn:Hm.
    inversion Hadd; subst g' n. clear Hadd.
    destruct (make_node_invariant _ _ _ _ _ _ _ _ _ _ IH (node_data_In _ _ _ Hp) Hm)
      as [Hinv [_ [_ [[dn [Hdn Hi]] Hold]]]].
    eapply add_edge_invariant; [exact Hinv | exact Hdn | exact (Hold _ _ Hw) |].
    right. reflexivity.
  - unfold add_operation in Hadd. apply bind_Ok in Hadd as [p [Hp Hadd]].
    destruct (make_node g (Some parent) (subgraph_ p) (scalars_ p ++ [op]) op "operation"
                        ("WITH *, " ++ op ++ " as ...")%string None) as [g1 n1] eqn:Hm.
    inversion Hadd; subst g' n. clear Hadd.
    destruct (make_node_invariant _ _ _ _ _ _ _ _ _ _ IH (node_data_In _ _ _ Hp) Hm)
      as [Hinv [_ [_ [[dn [Hdn Hi]] Hold]]]].
    eapply add_dependencies_invariant; [exact Hinv | exact Hdn |].
    eapply dependencies_are_older; eauto. apply IH.
Qed.

Transparent make_node.

(** ** Acyclicity *)

Lemma dependency_edge_forward g u v :
  forward g -> nx.has_edge (without_type g "wrt") u v = true ->
  exists du dv, node_data g u = Ok du /\ node_data g v = Ok dv /\ du.(i_) < dv.(i_).
Proof.
  intros Hf He. apply has_edge_In in He as [e Hin].
  unfold without_type in Hin. apply subgraph_view_adj in Hin as [Hin [_ [_ Ht]]].
  apply negb_true_iff in Ht.
  destruct (lookup_edge_In _ _ _ Hin) as [e0 He0].
  assert (Hty : edge_type g u v = get_type e0).
  { unfold edge_type, nx.edge_attrs. now rewrite He0. }
  apply lookup_edge_Some in He0.
  destruct (Hf _ _ _ He0) as [du [dv [Hu [Hv [Hlt | Hw]]]]].
  - exists du, dv. auto.
  - rewrite Hty, Hw in Ht. discriminate.
Qed.

Lemma walk_forward g u v :
  forward g -> walk (without_type g "wrt") u v ->
  exists du dv, node_data g u = Ok du /\ node_data g v = Ok dv /\ du.(i_) < dv.(i_).
Proof.
  intros Hf Hw. induction Hw as [u v He | u v w He Hw IH].
  - now apply dependency_edge_forward.
  - destruct (dependency_edge_forward _ _ _ Hf He) as [du [dv [Hu [Hv Hlt]]]].
    destruct IH as [dv' [dw [Hv' [Hw' Hlt']]]].
    exists du, dw. split; [exact Hu |]. split; [exact Hw' |].
    rewrite Hv in Hv'. inversion Hv'; subst. lia.
Qed.

Lemma builder_calls_built (calls : list BuilderCall) : forall g g',
  built g -> builder_calls g calls = Ok g' -> dependencies_known g calls = true ->
  built g'.
Proof.
  induction calls as [| c r IH]; intros g g' Hb Hcalls Hknown.
  - cbn in Hcalls. injection Hcalls as <-. exact Hb.
  - cbn [builder_calls] in Hcalls. cbn [dependencies_known] in Hknown.
    apply andb_prop in Hknown as [Hdeps Hknown].
    assert (Hnodes : Forall (fun d => In d (nx.nodes g)) (dependencies_of c)).
    { apply Forall_forall. intros d Hd.
      apply (proj1 (forallb_forall _ _) Hdeps) in Hd. now apply mem_In in Hd. }
    destruct (builder_call g c) as [[g1 n] | e] eqn:Hc; [| discriminate].
    cbn [bind] in Hcalls. apply (IH g1 g'); [| exact Hcalls | exact Hknown].
    destruct c as [path parent | parent dependencies operation | parent wrt operation
                  | parent dependencies operation]; cbn [builder_call dependencies_of] in *.
    + exact (@built_traversal g _ path g1 n Hb Hc).
    + exact (@built_operation g parent dependencies operation g1 n Hb Hnodes Hc).
    + exact (@built_aggregation g parent wrt operation g1 n Hb Hc).
    + exact (@built_filter g parent dependencies operation g1 n Hb Hnodes Hc).
Qed.

(** C9, as the code has it: after a sequence of builder calls that all
    return, each naming as dependencies only nodes the graph already has,
    no node is its own ancestor in the dependency graph. *)
Theorem builder_keeps_dependency_graph_acyclic (calls : list BuilderCall) (g : Graph) :
  builder_calls (G QueryGraph_init) calls = Ok g ->
  dependencies_known (G QueryGraph_init) calls = true ->
  forall n, ~ is_ancestor g n n.
Proof.
  intros Hcalls Hknown n Hw.
  pose proof (@builder_calls_built calls (G QueryGraph_init) g built_init Hcalls Hknown)
    as Hb.
  destruct (built_invariant _ Hb) as [_ Hf].
  destruct (walk_forward _ _ _ Hf Hw) as [du [dv [Hu [Hv Hlt]]]].
  rewrite Hu in Hv. inversion Hv; subst. lia.
Qed.

(** C9, as the claim states it, fails: a filter may name any string as a
    dependency.  When the string is the label the next filter will get, the
    two calls return and the two filters depend on each other. *)
Lemma builder_makes_a_cycle :
  exists g,
    builder_calls (G QueryGraph_init) cyclic_calls = Ok g /\
    is_ancestor g (snd filter_on_next_filter) (snd filter_on_next_filter).
Proof.
  eexists. split; [vm_compute; reflexivity |].
  apply walk_step with (v := label_of_next_filter).
  - vm_compute. reflexivity.
  - apply walk_edge. vm_compute. reflexivity.
Qed.

Lemma built_scenario_run : built (fst scenario_run).
Proof.
  apply (@built_traversal (fst scenario_OB) (snd scenario_OB) ["run"]
                         (fst scenario_run) (snd scenario_run)).
  - apply (@built_traversal (G QueryGraph_init) data_label ["OB"]
                           (fst scenario_OB) (snd scenario_OB)).
    + apply built_init.
    + vm_compute. reflexivity.
  - vm_compute. reflexivity.
Qed.

Lemma built_scenario : built (fst scenario).
Proof.
  apply (@built_filter (fst scenario_upto_count) (snd scenario_OB)
                      [snd scenario_upto_count] "count > 0"
                      (fst scenario) (snd scenario)).
  - apply (@built_aggregation (fst scenario_red) (snd scenario_red) (snd scenario_OB)
                             "count(*)" (fst scenario_upto_count)
                             (snd scenario_upto_count)).
    + apply (@built_filter (fst scenario_run) (snd scenario_run) [] "camera == 'red'"
                          (fst scenario_red) (snd scenario_red)).
      * apply built_scenario_run.
      * constructor.
      * vm_compute. reflexivity.
    + vm_compute. reflexivity.
  - constructor; [| constructor]. vm_compute. tauto.
  - vm_compute. reflexivity.
Qed.

Lemma scenario_is_acyclic_at_OB :
  builder_calls (G QueryGraph_init) scenario_calls = Ok (fst scenario) /\
  ~ is_ancestor (fst scenario) OB_label OB_label.
Proof.
  split; [vm_compute; reflexivity |].
  apply (builder_keeps_dependency_graph_acyclic scenario_calls (fst scenario)).
  - vm_compute. reflexivity.
  - vm_compute. reflexivity.
Defined.

(** ** Aggregation *)

Section AppendFacts.
Context {A E : Type} `{Attrs A} `{Attrs E}.

Lemma lookup_edge_app_r e (d d' : list ((string * string) * E)) :
  ~ In e (map fst d) -> nx.lookup_edge e (d ++ d') = nx.lookup_edge e d'.
Proof.
  induction d as [| [k v] r IH]; simpl; intros Hn; [reflexivity |].
  destruct (pair_eqb k e) eqn:Hk.
  - apply pair_eqb_eq in Hk. tauto.
  - apply IH. tauto.
Qed.

Lemma filter_none {T : Type} (f : T -> bool) l :
  (forall x, In x l -> f x = false) -> filter f l = [].
Proof.
  induction l as [| x r IH]; simpl; intros Hf; [reflexivity |].
  rewrite (Hf x) by auto. apply IH. auto.
Qed.

Lemma succ_of_fresh (g : nx.DiGraph A E) n :
  closed g -> ~ In n (nx.nodes g) ->
  filter (fun kv : (string * string) * E => String.eqb (fst (fst kv)) n) (nx._adj g) = [].
Proof.
  intros Hc Hfresh. apply filter_none. intros [[u v] d] Hin. simpl.
  apply String.eqb_neq. intros ->. apply Hfresh.
  destruct (Hc _ _ _ Hin) as [Hu _]. exact Hu.
Qed.

Lemma edge_key_of_fresh_l (g : nx.DiGraph A E) n v :
  closed g -> ~ In n (nx.nodes g) -> ~ In (n, v) (map fst (nx._adj g)).
Proof.
  intros Hc Hfresh Hin. apply in_map_iff in Hin as [[[u' v'] d] [Hk Hin]].
  simpl in Hk. inversion Hk; subst. apply Hfresh.
  destruct (Hc _ _ _ Hin) as [Hu _]. exact Hu.
Qed.

Lemma edge_key_of_fresh_r (g : nx.DiGraph A E) n u :
  closed g -> ~ In n (nx.nodes g) -> ~ In (u, n) (map fst (nx._adj g)).
Proof.
  intros Hc Hfresh Hin. apply in_map_iff in Hin as [[[u' v'] d] [Hk Hin]].
  simpl in Hk. inversion Hk; subst. apply Hfresh.
  destruct (Hc _ _ _ Hin) as [_ Hv]. exact Hv.
Qed.

End AppendFacts.

Opaque make_node.

(** C2, as the code has it: [add_aggregation] makes no test of ancestry.
    In a graph the builder produced, for every two nodes [parent] and [wrt]
    it returns a node that was not in the graph, appended to the nodes, with
    an "aggr" edge from [parent] to it and with [wrt] as its one successor,
    by a "wrt" edge. *)
Theorem add_aggregation_needs_no_ancestry (g : Graph) (parent wrt operation : string) :
  built g -> In parent (nx.nodes g) -> In wrt (nx.nodes g) ->
  exists g' n e,
    add_aggregation g parent wrt operation "aggr" = Ok (g', n) /\
    ~ In n (nx.nodes g) /\
    nx.nodes g' = nx.nodes g ++ [n] /\
    nx.edge_attrs g' parent n = Some e /\ type_ e = Some "aggr" /\
    nx.succ g' n = [wrt] /\
    edge_type g' n wrt = "wrt".
Proof.
  intros Hb Hp Hw. destruct (built_invariant _ Hb) as [Hn Hf].
  pose proof (forward_closed _ Hf) as Hc.
  destruct (numbered_node_data _ _ Hn Hp) as [dp [Hdp _]].
  destruct (numbered_node_data _ _ Hn Hw) as [dw [Hdw _]].
  unfold add_aggregation. rewrite Hdw, Hdp. simpl.
  destruct (make_node g (Some parent) (subgraph_ dw) (scalars_ dp ++ [operation])
                      operation "aggr" operation None) as [g1 n] eqn:Hm.
  destruct (make_node_spec _ _ _ _ _ _ _ _ _ _ Hn Hc Hp Hm) as [Hfresh [Hnode Hadj]].
  assert (Hn1 : In n (nx.nodes g1)).
  { unfold nx.nodes. rewrite Hnode, map_app. apply in_or_app. right. simpl. auto. }
  assert (Hw1 : In wrt (nx.nodes g1)).
  { unfold nx.nodes. rewrite Hnode, map_app. apply in_or_app. left. exact Hw. }
  assert (Hpn : parent <> n) by (intros ->; contradiction).
  rewrite (add_edge_nodes _ _ _ _ Hn1 Hw1).
  rewrite Hadj, update_edge_fresh, update_no_attrs_edge.
  2:{ rewrite map_app. intros Hin. apply in_app_or in Hin as [Hin | [Hin | []]].
      - now apply (edge_key_of_fresh_l g n wrt Hc Hfresh).
      - simpl in Hin. inversion Hin. congruence. }
  do 3 eexists. split; [reflexivity |].
  split; [exact Hfresh |]. split; [| split; [| split; [| split]]].
  - unfold nx.nodes. simpl. rewrite Hnode, map_app. reflexivity.
  - unfold nx.edge_attrs. simpl. rewrite <- app_assoc.
    rewrite lookup_edge_app_r by now apply edge_key_of_fresh_r.
    cbn [app nx.lookup_edge]. rewrite pair_eqb_refl. reflexivity.
  - reflexivity.
  - unfold nx.succ. simpl. rewrite !filter_app, !map_app.
    rewrite (succ_of_fresh g n Hc Hfresh). cbn [filter fst snd app map].
    replace (String.eqb parent n) with false by (symmetry; now apply String.eqb_neq).
    rewrite String.eqb_refl. reflexivity.
  - unfold edge_type, nx.edge_attrs. simpl. rewrite <- app_assoc.
    rewrite lookup_edge_app_r by now apply edge_key_of_fresh_l.
    cbn [app nx.lookup_edge].
    replace (pair_eqb (parent, n) (n, wrt)) with false
      by (symmetry; apply pair_eqb_neq; congruence).
    rewrite pair_eqb_refl. reflexivity.
Qed.

Transparent make_node.

Lemma aggregation_on_scenario_run :
  exists g' n e,
    add_aggregation (fst scenario_run) OB_label run_label "count(*)" "aggr" = Ok (g', n) /\
    ~ In n (nx.nodes (fst scenario_run)) /\
    nx.nodes g' = nx.nodes (fst scenario_run) ++ [n] /\
    nx.edge_attrs g' OB_label n = Some e /\ type_ e = Some "aggr" /\
    nx.succ g' n = [run_label] /\
    edge_type g' n run_label = "wrt".
Proof.
  apply (add_aggregation_needs_no_ancestry (fst scenario_run) OB_label run_label "count(*)"
           built_scenario_run).
  - vm_compute. tauto.
  - vm_compute. tauto.
Defined.

(** C2, as the claim states it, fails: the run is a node, it is not an
    ancestor of the OB (it descends from it), and aggregating the OB with
    respect to the run is accepted. *)
Lemma add_aggregation_accepts_a_descendant :
  In OB_label (nx.nodes (fst scenario_run)) /\
  In run_label (nx.nodes (fst scenario_run)) /\
  ~ is_ancestor (fst scenario_run) run_label OB_label /\
  exists g' n,
    add_aggregation (fst scenario_run) OB_label run_label "count(*)" "aggr" = Ok (g', n).
Proof.
  split; [vm_compute; tauto |]. split; [vm_compute; tauto |]. split.
  - intros Hw. destruct (built_invariant _ built_scenario_run) as [_ Hf].
    destruct (walk_forward _ _ _ Hf Hw) as [du [dv [Hu [Hv Hlt]]]].
    vm_compute in Hu. vm_compute in Hv. inversion Hu; subst. inversion Hv; subst.
    simpl in Hlt. lia.
  - do 2 eexists. vm_compute. reflexivity.
Qed.

(** C8 on the graph with two branches: compiling it removes the first
    aggregation node and then saves a state, and the node created for that
    gets the number 8, which the output node already has. *)
Lemma identity_reused_after_removal :
  let r := traverse_query_graph 50 (fst two_branches) (snd two_branches) data_label in
  let saved := (str_of_nat 8 ++ newline ++ "save-state" ++ newline ++ "data->OB")%string in
  raised r = None /\
  snd two_branches <> saved /\
  In (snd two_branches) (nx.nodes (graph_after r)) /\
  In saved (nx.nodes (graph_after r)) /\
  identity (graph_after r) (snd two_branches) = Some 8 /\
  identity (graph_after r) saved = Some 8.
Proof.
  vm_compute. repeat split; try discriminate; tauto.
Qed.

(** ** Edge data under [add_edge] and [remove_edge] *)

Section EdgeFacts.
Context {A E : Type} `{Attrs A} `{Attrs E}.

Lemma add_edge_adj (g : nx.DiGraph A E) u v (a : E) :
  nx._adj (nx.add_edge g u v a) = nx.update_edge (u, v) a (nx._adj g).
Proof.
  unfold nx.add_edge. destruct (nx.has_node g u); simpl.
  - destruct (nx.has_node g v); reflexivity.
  - destruct (nx.has_node (nx.add_node g u no_attrs) v); reflexivity.
Qed.

Lemma lookup_update_edge_same e (a : E) (d : list ((string * string) * E)) :
  nx.lookup_edge e (nx.update_edge e a d)
  = Some (update (match nx.lookup_edge e d with Some o => o | None => no_attrs end) a).
Proof.
  induction d as [| [k v] r IH]; simpl.
  - now rewrite pair_eqb_refl.
  - destruct (pair_eqb k e) eqn:Hk; simpl; rewrite Hk; [reflexivity | exact IH].
Qed.

Lemma lookup_update_edge_other e k (a : E) (d : list ((string * string) * E)) :
  k <> e -> nx.lookup_edge k (nx.update_edge e a d) = nx.lookup_edge k d.
Proof.
  intros Hne. induction d as [| [k' v] r IH]; simpl.
  - replace (pair_eqb e k) with false; [reflexivity |].
    symmetry. apply pair_eqb_neq. congruence.
  - destruct (pair_eqb k' e) eqn:Hk; simpl.
    + apply pair_eqb_eq in Hk. subst k'.
      replace (pair_eqb e k) with false; [reflexivity |].
      symmetry. apply pair_eqb_neq. congruence.
    + now rewrite IH.
Qed.

Lemma lookup_filter_other e k (d : list ((string * string) * E)) :
  k <> e ->
  nx.lookup_edge k (filter (fun kv => negb (pair_eqb (fst kv) e)) d) = nx.lookup_edge k d.
Proof.
  intros Hne. induction d as [| [k' v] r IH]; simpl; [reflexivity |].
  destruct (pair_eqb k' e) eqn:Hk; simpl.
  - apply pair_eqb_eq in Hk. subst k'.
    replace (pair_eqb e k) with false; [exact IH |].
    symmetry. apply pair_eqb_neq. congruence.
  - now rewrite IH.
Qed.

Lemma edge_attrs_add_edge_same (g : nx.DiGraph A E) u v (a : E) :
  nx.edge_attrs (nx.add_edge g u v a) u v
  = Some (update (match nx.edge_attrs g u v with Some o => o | None => no_attrs end) a).
Proof. unfold nx.edge_attrs. rewrite add_edge_adj. apply lookup_update_edge_same. Qed.

Lemma edge_attrs_add_edge_other (g : nx.DiGraph A E) u v (a : E) x y :
  (x, y) <> (u, v) -> nx.edge_attrs (nx.add_edge g u v a) x y = nx.edge_attrs g x y.
Proof.
  intros Hne. unfold nx.edge_attrs. rewrite add_edge_adj.
  now apply lookup_update_edge_other.
Qed.

Lemma edge_attrs_remove_edge_same (g g' : nx.DiGraph A E) u v :
  nx.remove_edge g u v = Ok g' -> nx.edge_attrs g' u v = None.
Proof.
  intros Hr. apply remove_edge_has_edge in Hr. unfold nx.has_edge in Hr.
  destruct (nx.edge_attrs g' u v); [discriminate | reflexivity].
Qed.

Lemma edge_attrs_remove_edge_other (g g' : nx.DiGraph A E) u v x y :
  nx.remove_edge g u v = Ok g' -> (x, y) <> (u, v) ->
  nx.edge_attrs g' x y = nx.edge_attrs g x y.
Proof.
  unfold nx.remove_edge. destruct (nx.has_edge g u v); [| discriminate].
  intros Hr Hne. inversion Hr; subst. unfold nx.edge_attrs. simpl.
  now apply lookup_filter_other.
Qed.

End EdgeFacts.

(** ** Moving edges *)

Lemma move_edge_spec src dst g g' :
  src <> dst -> move_edge src dst g = Ok g' ->
  exists d,
    attrs_at g src = Some d /\
    attrs_at g' src = None /\
    attrs_at g' dst
      = Some (update (match attrs_at g dst with Some o => o | None => no_attrs end) d) /\
    forall k, k <> src -> k <> dst -> attrs_at g' k = attrs_at g k.
Proof.
  destruct src as [a b], dst as [a' b']. unfold move_edge, attrs_at. cbn [fst snd].
  intros Hne Hm. apply bind_Ok in Hm as [d [Hd Hm]].
  destruct (nx.edge_attrs g a b) as [d0 |] eqn:Hab; [| discriminate].
  inversion Hd; subst d0. clear Hd. exists d. split; [reflexivity |].
  split; [| split].
  - eapply edge_attrs_remove_edge_same. exact Hm.
  - rewrite (edge_attrs_remove_edge_other _ _ _ _ _ _ Hm) by congruence.
    apply edge_attrs_add_edge_same.
  - intros [x y] Hs Hd. cbn [fst snd].
    rewrite (edge_attrs_remove_edge_other _ _ _ _ _ _ Hm) by congruence.
    apply edge_attrs_add_edge_other. congruence.
Qed.

Lemma move_edges_Raise moves e : move_edges moves (Raise e) = Raise e.
Proof. induction moves as [| m r IH]; simpl; [reflexivity | exact IH]. Qed.

Lemma move_edges_cons m moves g g' :
  move_edges (m :: moves) (Ok g) = Ok g' ->
  exists g1, move_edge (fst m) (snd m) g = Ok g1 /\ move_edges moves (Ok g1) = Ok g'.
Proof.
  simpl. destruct (move_edge (fst m) (snd m) g) as [g1 | e] eqn:Hm.
  - intros Hr. exists g1. auto.
  - unfold move_edges. fold (move_edges moves (Raise e)).
    rewrite move_edges_Raise. discriminate.
Qed.

Lemma moves_separate_tail m moves :
  moves_separate (m :: moves) -> moves_separate moves.
Proof. intros Hs a b Ha Hb. apply Hs; right; assumption. Qed.

(** A key that no move reads or writes keeps its data. *)
Lemma move_edges_frame moves : forall g g',
  move_edges moves (Ok g) = Ok g' -> moves_separate moves ->
  forall k, (forall m, In m moves -> fst m <> k /\ snd m <> k) ->
            attrs_at g' k = attrs_at g k.
Proof.
  induction moves as [| m r IH]; intros g g' Hfold Hsep k Hk.
  - simpl in Hfold. inversion Hfold; subst. reflexivity.
  - apply move_edges_cons in Hfold as [g1 [Hm Hfold]].
    assert (Hne : fst m <> snd m).
    { apply Hsep; left; reflexivity. }
    destruct (move_edge_spec _ _ _ _ Hne Hm) as [d [_ [_ [_ Hframe]]]].
    rewrite (IH _ _ Hfold (moves_separate_tail _ _ Hsep) k).
    + destruct (Hk m (or_introl eq_refl)) as [H1 H2]. apply Hframe; congruence.
    + intros m' Hin. apply Hk. right. exact Hin.
Qed.

(** Every edge that is moved was there. *)
Lemma move_edges_sources moves : forall g g',
  move_edges moves (Ok g) = Ok g' -> moves_separate moves ->
  forall m, In m moves -> attrs_at g (fst m) <> None.
Proof.
  induction moves as [| m1 r IH]; intros g g' Hfold Hsep m Hin; [destruct Hin |].
  apply move_edges_cons in Hfold as [g1 [Hm Hfold]].
  assert (Hne : fst m1 <> snd m1).
  { apply Hsep; left; reflexivity. }
  destruct (move_edge_spec _ _ _ _ Hne Hm) as [d [Hd [Hnone [_ Hframe]]]].
  destruct Hin as [-> | Hin]; [congruence |].
  pose proof (IH _ _ Hfold (moves_separate_tail _ _ Hsep) m Hin) as Hsome.
  assert (H1 : fst m <> fst m1) by (intros Heq; rewrite Heq in Hsome; contradiction).
  assert (H2 : fst m <> snd m1).
  { apply Hsep; [right; exact Hin | left; reflexivity]. }
  rewrite <- (Hframe _ H1 H2). exact Hsome.
Qed.

(** An edge moved to ends that had no edge is there with its data, and is
    gone from where it was. *)
Lemma move_edges_moved moves : forall g g',
  move_edges moves (Ok g) = Ok g' -> moves_separate moves ->
  (forall m m', In m moves -> In m' moves -> snd m = snd m' -> fst m = fst m') ->
  forall src dst, In (src, dst) moves -> attrs_at g dst = None ->
                  attrs_at g' dst = attrs_at g src /\ attrs_at g' src = None.
Proof.
  induction moves as [| m1 r IH]; intros g g' Hfold Hsep Hinj src dst Hin Hdst;
    [destruct Hin |].
  pose proof Hsep as Hs.
  apply move_edges_cons in Hfold as [g1 [Hm Hfold]].
  assert (Hne : fst m1 <> snd m1) by (apply Hs; left; reflexivity).
  destruct (move_edge_spec _ _ _ _ Hne Hm) as [d [Hd [Hnone [Hnew Hframe]]]].
  pose proof (move_edges_sources _ _ _ Hfold (moves_separate_tail _ _ Hsep)) as Hsrc.
  destruct Hin as [Heq | Hin].
  - subst m1. cbn [fst snd] in *. rewrite Hdst, update_no_attrs_edge in Hnew.
    assert (Hfree : forall m, In m r -> fst m <> src /\ snd m <> src /\
                                         fst m <> dst /\ snd m <> dst).
    { intros m Hm'.
      assert (H1 : fst m <> src).
      { intros Heq. apply (Hsrc m Hm'). now rewrite Heq. }
      split; [exact H1 |]. split; [| split].
      - intros Heq. apply (Hs (src, dst) m); [left; reflexivity | right; exact Hm' |].
        simpl. congruence.
      - apply (Hs m (src, dst)); [right; exact Hm' | left; reflexivity].
      - intros Heq. apply H1.
        apply (Hinj m (src, dst)); [right; exact Hm' | left; reflexivity | exact Heq]. }
    split.
    + rewrite (move_edges_frame _ _ _ Hfold (moves_separate_tail _ _ Hsep) dst).
      * congruence.
      * intros m Hm'. destruct (Hfree m Hm') as [_ [_ [H3 H4]]]. auto.
    + rewrite (move_edges_frame _ _ _ Hfold (moves_separate_tail _ _ Hsep) src).
      * exact Hnone.
      * intros m Hm'. destruct (Hfree m Hm') as [H1 [H2 _]]. auto.
  - assert (H1 : src <> fst m1).
    { intros Heq. apply (Hsrc (src, dst) Hin). simpl. now rewrite Heq. }
    assert (H2 : src <> snd m1).
    { apply (Hs (src, dst) m1); [right; exact Hin | left; reflexivity]. }
    assert (H3 : dst <> fst m1).
    { intros Heq. apply (Hs m1 (src, dst)); [left; reflexivity | right; exact Hin |].
      simpl. congruence. }
    assert (H4 : dst <> snd m1).
    { intros Heq. apply H1.
      apply (Hinj (src, dst) m1); [right; exact Hin | left; reflexivity | exact Heq]. }
    destruct (IH _ _ Hfold (moves_separate_tail _ _ Hsep)
                 (fun m m' Hm' Hm'' => Hinj m m' (or_intror Hm') (or_intror Hm''))
                 src dst Hin) as [Hd' Hs'].
    + rewrite (Hframe _ H3 H4). exact Hdst.
    + split; [| exact Hs']. rewrite Hd'. apply Hframe; assumption.
Qed.


(** ** State preservation *)

Lemma bind_ret (c : result Graph) : bind c (fun g => Ok g) = c.
Proof. destruct c; reflexivity. Qed.

Lemma move_out_edges_are_moves aggregated_node unwound es : forall acc,
  fold_left (move_out_edge aggregated_node unwound) es acc
  = move_edges (map (fun e => (e, (unwound, snd e)))
                    (filter (fun e => negb (String.eqb (snd e) aggregated_node)) es)) acc.
Proof.
  induction es as [| e r IH]; intros acc; [reflexivity |].
  cbn [fold_left filter]. rewrite IH. unfold move_out_edge at 1.
  destruct (negb (String.eqb (snd e) aggregated_node)).
  - reflexivity.
  - now rewrite bind_ret.
Qed.

Lemma move_in_edges_are_moves unwound es : forall acc,
  fold_left (move_in_edge unwound) es acc
  = move_edges (map (fun e => (e, (fst e, unwound))) es) acc.
Proof.
  induction es as [| e r IH]; intros acc; [reflexivity |].
  cbn [fold_left map]. rewrite IH. reflexivity.
Qed.

Lemma edge_attrs_add_node (g : Graph) n a x y :
  nx.edge_attrs (nx.add_node g n a) x y = nx.edge_attrs g x y.
Proof. reflexivity. Qed.

Lemma make_node_edge_attrs g parent sg sc lbl ty op st g' n :
  make_node g (Some parent) sg sc lbl ty op st = (g', n) ->
  nx.edge_attrs g' parent n <> None /\
  forall x y, (x, y) <> (parent, n) -> nx.edge_attrs g' x y = nx.edge_attrs g x y.
Proof.
  unfold make_node. intros Hm. cbv zeta in Hm. injection Hm as Hg Hn.
  rewrite Hn in Hg. subst g'. split.
  - rewrite edge_attrs_add_edge_same. discriminate.
  - intros x y Hne.
    rewrite edge_attrs_add_edge_other by exact Hne. apply edge_attrs_add_node.
Qed.

Lemma add_aggregation_edge_attrs g parent wrt op ty g' n :
  add_aggregation g parent wrt op ty = Ok (g', n) ->
  In parent (nx.nodes g) /\ In wrt (nx.nodes g) /\
  (parent <> n -> nx.edge_attrs g' parent n <> None) /\
  forall x y, (x, y) <> (parent, n) -> (x, y) <> (n, wrt) ->
              nx.edge_attrs g' x y = nx.edge_attrs g x y.
Proof.
  unfold add_aggregation. intros Ha.
  apply bind_Ok in Ha as [w [Hw Ha]]. apply bind_Ok in Ha as [p [Hp Ha]].
  destruct (make_node g (Some parent) (subgraph_ w) (scalars_ p ++ [op]) op ty op None)
    as [g1 n1] eqn:Hm.
  inversion Ha; subst g' n1. clear Ha.
  destruct (make_node_edge_attrs _ _ _ _ _ _ _ _ _ _ Hm) as [Hsome Hother].
  split; [eapply node_data_In; exact Hp |]. split; [eapply node_data_In; exact Hw |].
  split.
  - intros Hne. rewrite edge_attrs_add_edge_other by congruence. exact Hsome.
  - intros x y H1 H2. rewrite edge_attrs_add_edge_other by exact H2. now apply Hother.
Qed.

Lemma closed_edge_attrs (g : Graph) x y d :
  closed g -> nx.edge_attrs g x y = Some d -> In x (nx.nodes g) /\ In y (nx.nodes g).
Proof.
  intros Hc Hd. apply lookup_edge_Some in Hd. eapply Hc. exact Hd.
Qed.

Lemma succ_edge_attrs (g : Graph) n v :
  In v (nx.succ g n) <-> nx.edge_attrs g n v <> None.
Proof.
  rewrite succ_In. split.
  - intros [d Hin]. apply lookup_edge_In in Hin as [d' Hd]. unfold nx.edge_attrs.
    congruence.
  - intros Hne. destruct (nx.edge_attrs g n v) as [d |] eqn:Hd; [| congruence].
    exists d. now apply lookup_edge_Some.
Qed.

Lemma has_edge_attrs (g : Graph) x y :
  nx.has_edge g x y = true <-> nx.edge_attrs g x y <> None.
Proof.
  unfold nx.has_edge. destruct (nx.edge_attrs g x y); split; intros; congruence.
Qed.

Lemma pred_wrt_edge_attrs (g : Graph) n u :
  In u (nx.pred (only_type g "wrt") n) -> nx.edge_attrs g u n <> None.
Proof.
  intros Hin. apply pred_only_type in Hin as [d [Hin _]].
  apply lookup_edge_In in Hin as [d' Hd]. unfold nx.edge_attrs. congruence.
Qed.

Lemma wrt_edge_pred (g : Graph) n u d :
  nx.edge_attrs g u n = Some d -> get_type d = "wrt" ->
  In u (nx.pred (only_type g "wrt") n).
Proof.
  intros Hd Ht. eapply only_type_pred.
  - apply lookup_edge_Some. exact Hd.
  - unfold edge_type. rewrite Hd. exact Ht.
Qed.

Opaque make_node.

(** C5: let [preserve_state_for_subqueries] return the checkpoint and unwind
    nodes it made, both new to the graph, at a fork node that has no edge to
    itself.  Then every edge that left the fork node leaves the unwind node
    with the same data, every "wrt" edge that entered the fork node enters
    the unwind node with the same data and the fork node no more, and the
    one edge that leaves the fork node goes to the checkpoint. *)
Theorem preserve_state_reattaches
    (graph : Graph) (start node : string) (g' : Graph) (checkpoint unwind : string) :
  closed graph ->
  nx.has_edge graph node node = false ->
  ~ In checkpoint (nx.nodes graph) -> ~ In unwind (nx.nodes graph) ->
  checkpoint <> unwind ->
  preserve_state_for_subqueries graph start node = Ok (g', checkpoint, unwind) ->
  (forall v d, nx.edge_attrs graph node v = Some d ->
               nx.edge_attrs g' unwind v = Some d) /\
  (forall u d, nx.edge_attrs graph u node = Some d -> get_type d = "wrt" ->
               nx.edge_attrs g' u unwind = Some d /\ nx.edge_attrs g' u node = None) /\
  (forall v, nx.has_edge g' node v = true <-> v = checkpoint).
Proof.
  intros Hc Hself Hagg Hunw Hau Hp.
  unfold preserve_state_for_subqueries in Hp.
  apply bind_Ok in Hp as [path [_ Hp]].
  apply bind_Ok in Hp as [wrt [_ Hp]].
  apply bind_Ok in Hp as [[g1 agg] [Hadd Hp]].
  apply bind_Ok in Hp as [nd [_ Hp]].
  destruct (make_node _ _ _ _ _ _ _ _) as [g2 unw] eqn:Hm.
  apply bind_Ok in Hp as [g3 [Hout Hp]].
  apply bind_Ok in Hp as [g4 [Hin Hp]].
  inversion Hp; subst g4 agg unw. clear Hp.
  rewrite move_out_edges_are_moves in Hout.
  rewrite move_in_edges_are_moves in Hin.
  destruct (add_aggregation_edge_attrs _ _ _ _ _ _ _ Hadd) as [Hnode [Hwrt [Hna Hg1]]].
  destruct (make_node_edge_attrs _ _ _ _ _ _ _ _ _ _ Hm) as [_ Hg2].
  assert (Hnc : node <> checkpoint) by (intros ->; contradiction).
  assert (Hnu : node <> unwind) by (intros ->; contradiction).
  assert (Hloop : nx.edge_attrs graph node node = None).
  { unfold nx.has_edge in Hself. destruct (nx.edge_attrs graph node node);
      [discriminate | reflexivity]. }
  (* the edges of the graph with both new nodes, before the loops *)
  assert (Hnew : forall x y, (x, y) <> (node, checkpoint) -> x <> checkpoint ->
                             nx.edge_attrs g2 x y = nx.edge_attrs graph x y).
  { intros x y H1 H2. rewrite Hg2 by congruence. apply Hg1; congruence. }
  assert (Hcheck : nx.edge_attrs g2 node checkpoint <> None).
  { rewrite Hg2 by congruence. now apply Hna. }
  assert (Hold : forall x y d, nx.edge_attrs graph x y = Some d ->
                   x <> checkpoint /\ x <> unwind /\ y <> checkpoint /\ y <> unwind).
  { intros x y d Hd. destruct (closed_edge_attrs _ _ _ _ Hc Hd) as [Hx Hy].
    repeat split; intros ->; contradiction. }
  assert (Hfresh : forall y, nx.edge_attrs g2 unwind y = None).
  { intros y. rewrite Hnew by congruence.
    destruct (nx.edge_attrs graph unwind y) as [d |] eqn:Hd; [| reflexivity].
    destruct (Hold _ _ _ Hd) as [_ [H _]]. congruence. }
  (* the first loop *)
  set (M1 := map (fun e : string * string => (e, (unwind, snd e)))
                 (filter (fun e => negb (String.eqb (snd e) checkpoint))
                         (nx.out_edges g2 node))) in *.
  assert (HM1 : forall m, In m M1 <->
            exists v, m = ((node, v), (unwind, v)) /\
                      nx.edge_attrs g2 node v <> None /\ v <> checkpoint).
  { intros m. unfold M1. rewrite in_map_iff. split.
    - intros [e [Hm1 He]]. apply filter_In in He as [He Hv].
      unfold nx.out_edges in He. apply in_map_iff in He as [v [Hev Hv']].
      subst e m. simpl in *. exists v. split; [reflexivity |].
      split; [now apply succ_edge_attrs |].
      apply negb_true_iff in Hv. now apply String.eqb_neq.
    - intros [v [-> [Hv Hne]]]. exists (node, v). split; [reflexivity |].
      apply filter_In. split.
      + unfold nx.out_edges. apply in_map_iff. exists v.
        split; [reflexivity | now apply succ_edge_attrs].
      + simpl. apply negb_true_iff. now apply String.eqb_neq. }
  assert (Hsep1 : moves_separate M1).
  { intros m m' H1 H2. apply HM1 in H1 as [v [-> _]]. apply HM1 in H2 as [v' [-> _]].
    simpl. congruence. }
  assert (Hinj1 : forall m m', In m M1 -> In m' M1 -> snd m = snd m' -> fst m = fst m').
  { intros m m' H1 H2. apply HM1 in H1 as [v [-> _]]. apply HM1 in H2 as [v' [-> _]].
    simpl. congruence. }
  assert (Hmoved1 : forall v, nx.edge_attrs g2 node v <> None -> v <> checkpoint ->
            nx.edge_attrs g3 unwind v = nx.edge_attrs g2 node v /\
            nx.edge_attrs g3 node v = None).
  { intros v Hv Hne.
    apply (move_edges_moved M1 g2 g3 Hout Hsep1 Hinj1 (node, v) (unwind, v)).
    - apply HM1. eauto.
    - apply Hfresh. }
  assert (Hframe1 : forall x y, x <> unwind -> (x = node -> y = checkpoint) ->
            nx.edge_attrs g3 x y = nx.edge_attrs g2 x y).
  { intros x y Hx Hy.
    apply (move_edges_frame M1 g2 g3 Hout Hsep1 (x, y)).
    intros m Hm1. apply HM1 in Hm1 as [v [-> [_ Hv]]]. simpl. split.
    - intros Heq. inversion Heq; subst. apply Hv. now apply Hy.
    - congruence. }
  assert (Hg3node : forall v, v <> checkpoint -> nx.edge_attrs g3 node v = None).
  { intros v Hv. destruct (nx.edge_attrs g2 node v) as [d |] eqn:Hd.
    - apply Hmoved1; congruence.
    - rewrite <- Hd. apply (move_edges_frame M1 g2 g3 Hout Hsep1 (node, v)).
      intros m Hm1. apply HM1 in Hm1 as [v' [-> [Hv' _]]]. simpl. split.
      + intros Heq. inversion Heq; subst. congruence.
      + congruence. }
  (* the second loop *)
  set (M2 := map (fun e : string * string => (e, (fst e, unwind)))
                 (nx.in_edges (only_type g3 "wrt") node)) in *.
  assert (HM2 : forall m, In m M2 <->
            exists u, m = ((u, node), (u, unwind)) /\
                      In u (nx.pred (only_type g3 "wrt") node)).
  { intros m. unfold M2, nx.in_edges. rewrite map_map, in_map_iff. simpl.
    split; intros [u [Hu Hin']]; exists u; split; auto. }
  assert (Hsep2 : moves_separate M2).
  { intros m m' H1 H2. apply HM2 in H1 as [u [-> _]]. apply HM2 in H2 as [u' [-> _]].
    simpl. congruence. }
  assert (Hinj2 : forall m m', In m M2 -> In m' M2 -> snd m = snd m' -> fst m = fst m').
  { intros m m' H1 H2. apply HM2 in H1 as [u [-> _]]. apply HM2 in H2 as [u' [-> _]].
    simpl. congruence. }
  assert (Hpred : forall u, In u (nx.pred (only_type g3 "wrt") node) ->
                            u <> node /\ u <> unwind).
  { intros u Hu. apply pred_wrt_edge_attrs in Hu. split; intros ->.
    - apply Hu. apply Hg3node. congruence.
    - apply Hu. destruct (nx.edge_attrs g2 node node) as [d |] eqn:Hd.
      + rewrite Hnew in Hd by congruence. congruence.
      + destruct (nx.edge_attrs g3 unwind node) as [d' |] eqn:Hd'; [| reflexivity].
        rewrite <- Hd'. rewrite <- (Hfresh node).
        apply (move_edges_frame M1 g2 g3 Hout Hsep1 (unwind, node)).
        intros m Hm1. apply HM1 in Hm1 as [v [-> [Hv _]]]. simpl. split.
        * congruence.
        * intros Heq. inversion Heq; subst. congruence. }
  assert (Hframe2 : forall x y, y <> unwind -> (y = node -> x = node \/ x = unwind) ->
            nx.edge_attrs g' x y = nx.edge_attrs g3 x y).
  { intros x y Hy Hx.
    apply (move_edges_frame M2 g3 g' Hin Hsep2 (x, y)).
    intros m Hm2. apply HM2 in Hm2 as [u [-> Hu]]. simpl.
    destruct (Hpred u Hu) as [H1 H2]. split.
    - intros Heq. inversion Heq; subst. destruct (Hx eq_refl); congruence.
    - congruence. }
  split; [| split].
  - (* edges that left the fork node *)
    intros v d Hd. destruct (Hold _ _ _ Hd) as [_ [_ [Hvc Hvu]]].
    assert (Hvn : v <> node) by (intros ->; congruence).
    assert (Hd2 : nx.edge_attrs g2 node v = Some d).
    { rewrite Hnew; congruence. }
    rewrite Hframe2 by congruence.
    destruct (Hmoved1 v) as [Hmv _]; congruence.
  - (* "wrt" edges that entered the fork node *)
    intros u d Hd Ht. destruct (Hold _ _ _ Hd) as [Huc [Huu _]].
    assert (Hun : u <> node) by (intros ->; congruence).
    assert (Hd3 : nx.edge_attrs g3 u node = Some d).
    { rewrite Hframe1 by congruence. rewrite Hnew; congruence. }
    assert (Hnone : nx.edge_attrs g3 u unwind = None).
    { rewrite Hframe1 by congruence. rewrite Hnew by congruence.
      destruct (nx.edge_attrs graph u unwind) as [d' |] eqn:Hd'; [| reflexivity].
      destruct (Hold _ _ _ Hd') as [_ [_ [_ H]]]. congruence. }
    destruct (move_edges_moved M2 g3 g' Hin Hsep2 Hinj2 (u, node) (u, unwind))
      as [Hnew2 Hgone]; [| exact Hnone |].
    + apply HM2. exists u. split; [reflexivity |]. eapply wrt_edge_pred; eassumption.
    + unfold attrs_at in *. simpl in *. split; congruence.
  - (* what still leaves the fork node *)
    intros v. rewrite has_edge_attrs.
    destruct (String.eqb v unwind) eqn:Hvu.
    + apply String.eqb_eq in Hvu. subst v. split; [| congruence].
      intros Hne. exfalso. apply Hne.
      assert (Hx : nx.edge_attrs g' node unwind = nx.edge_attrs g3 node unwind).
      { apply (move_edges_frame M2 g3 g' Hin Hsep2 (node, unwind)).
        intros m Hm2. apply HM2 in Hm2 as [u [-> Hu]]. simpl.
        destruct (Hpred u Hu) as [H1 H2]. split; congruence. }
      rewrite Hx. apply Hg3node. congruence.
    + apply String.eqb_neq in Hvu. rewrite Hframe2.
      * split.
        -- intros Hne. destruct (String.eqb v checkpoint) eqn:Hvc;
             [now apply String.eqb_eq in Hvc |].
           apply String.eqb_neq in Hvc. now rewrite Hg3node in Hne.
        -- intros ->. rewrite Hframe1 by congruence. exact Hcheck.
      * exact Hvu.
      * auto.
Qed.

Transparent make_node.

(** Tactic: a concrete label is not in a concrete list of labels. *)
Ltac not_in_list :=
  let H := fresh "H" in
  vm_compute; intros H;
  repeat (destruct H as [H | H]; [discriminate H |]); exact H.

Ltac nodup_list :=
  vm_compute; repeat (constructor; [not_in_list |]); constructor.

Lemma preserve_state_on_scenario :
  (forall v d, nx.edge_attrs (fst scenario) run_label v = Some d ->
               nx.edge_attrs (fst (fst scenario_preserved)) (snd scenario_preserved) v
               = Some d) /\
  (forall u d, nx.edge_attrs (fst scenario) u run_label = Some d -> get_type d = "wrt" ->
               nx.edge_attrs (fst (fst scenario_preserved)) u (snd scenario_preserved)
               = Some d /\
               nx.edge_attrs (fst (fst scenario_preserved)) u run_label = None) /\
  (forall v, nx.has_edge (fst (fst scenario_preserved)) run_label v = true <->
             v = snd (fst scenario_preserved)).
Proof.
  apply (preserve_state_reattaches (fst scenario) data_label run_label
           (fst (fst scenario_preserved)) (snd (fst scenario_preserved))
           (snd scenario_preserved)).
  - apply forward_closed. apply built_invariant. apply built_scenario.
  - vm_compute. reflexivity.
  - not_in_list.
  - not_in_list.
  - vm_compute. discriminate.
  - vm_compute. reflexivity.
Defined.

Lemma branches_of_scenario_at_OB :
  aggregations_wrt (fst scenario) OB_label = [snd scenario_upto_count] /\
  NoDup (aggregations_wrt (fst scenario) OB_label) /\
  (forall A, In A (aggregations_wrt (fst scenario) OB_label) <->
             nx.has_edge (fst scenario) A OB_label = true /\
             edge_type (fst scenario) A OB_label = "wrt") /\
  Forall2 (is_branch (without_type (fst scenario) "wrt") OB_label)
          (aggregations_wrt (fst scenario) OB_label)
          [[run_label; snd scenario_red; snd scenario_upto_count; OB_label]].
Proof.
  split; [vm_compute; reflexivity |].
  apply (@get_branches_one_per_aggregation (fst scenario) OB_label
           [[run_label; snd scenario_red; snd scenario_upto_count; OB_label]] true).
  - nodup_list.
  - vm_compute. reflexivity.
Defined.

(** ** Breadth-first search *)

Lemma star_trans next x y z : star next x y -> star next y z -> star next x z.
Proof.
  induction 1 as [x | x w y Hw Hs IH]; intros Hz; [exact Hz |].
  eapply star_step; [exact Hw | exact (IH Hz)].
Qed.

Lemma star_snoc next x y z : star next x y -> In z (next y) -> star next x z.
Proof.
  intros Hs Hz. eapply star_trans; [exact Hs |].
  eapply star_step; [exact Hz | apply star_refl].
Qed.

Lemma add_new_spec ws : forall seen,
  exists news,
    nx.add_new seen ws = seen ++ news /\
    (forall x, In x news -> In x ws /\ ~ In x seen) /\
    (forall x, In x ws -> In x seen \/ In x news) /\
    (NoDup seen -> NoDup (seen ++ news)).
Proof.
  unfold nx.add_new. induction ws as [| w r IH]; intros seen; simpl.
  - exists []. rewrite app_nil_r. repeat split; auto; try contradiction.
  - destruct (mem w seen) eqn:Hw.
    + destruct (IH seen) as [news [Heq [H1 [H2 H3]]]]. exists news.
      split; [exact Heq |]. split; [| split]; auto.
      * intros x Hx. destruct (H1 x Hx). auto.
      * intros x [-> | Hx]; [left; now apply mem_In | auto].
    + apply mem_false in Hw.
      destruct (IH (seen ++ [w])) as [news [Heq [H1 [H2 H3]]]]. exists (w :: news).
      split; [rewrite Heq, <- app_assoc; reflexivity |]. split; [| split].
      * intros x [-> | Hx]; [auto |]. destruct (H1 x Hx) as [Hin Hnot].
        split; [auto |]. intros Hs. apply Hnot. apply in_or_app. auto.
      * intros x [-> | Hx]; [right; left; reflexivity |].
        destruct (H2 x Hx) as [Hs | Hn]; [| right; right; exact Hn].
        apply in_app_or in Hs as [Hs | [-> | []]]; [left; exact Hs | right; left; reflexivity].
      * intros Hnd. replace (seen ++ w :: news) with ((seen ++ [w]) ++ news)
          by (rewrite <- app_assoc; reflexivity).
        apply H3. apply NoDup_app; [exact Hnd | repeat constructor; intros [] | ].
        intros x Hx [-> | []]. contradiction.
Qed.

Lemma skipn_app_length {T : Type} (l l' : list T) : skipn (List.length l) (l ++ l') = l'.
Proof. induction l as [| x r IH]; simpl; [reflexivity | exact IH]. Qed.

Lemma bfs_sound next : forall fuel seen level,
  incl level seen ->
  forall y, In y (nx.bfs fuel next seen level) -> exists x, In x seen /\ star next x y.
Proof.
  induction fuel as [| fuel IH]; intros seen level Hl y Hy; simpl in Hy.
  - exists y. split; [exact Hy | apply star_refl].
  - destruct level as [| l0 lr] eqn:Hlev.
    + exists y. split; [exact Hy | apply star_refl].
    + rewrite <- Hlev in *. clear Hlev l0 lr.
      destruct (add_new_spec (flat_map next level) seen) as [news [Heq [H1 [H2 H3]]]].
      rewrite Heq, skipn_app_length in Hy.
      destruct (IH (seen ++ news) news) with (y := y) as [x [Hx Hs]].
      * intros z Hz. apply in_or_app. auto.
      * exact Hy.
      * apply in_app_or in Hx as [Hx | Hx]; [exists x; auto |].
        destruct (H1 x Hx) as [Hin _]. apply in_flat_map in Hin as [z [Hz Hzx]].
        exists z. split; [apply Hl; exact Hz |].
        eapply star_step; [exact Hzx | exact Hs].
Qed.

Lemma bfs_closed univ next :
  (forall x, In x univ -> incl (next x) univ) ->
  forall fuel seen level,
    NoDup seen -> incl seen univ -> incl level seen ->
    (forall x, In x seen -> In x level \/ incl (next x) seen) ->
    level = [] \/ List.length univ - List.length seen < fuel ->
    incl seen (nx.bfs fuel next seen level) /\
    forall x, In x (nx.bfs fuel next seen level) ->
              incl (next x) (nx.bfs fuel next seen level).
Proof.
  intros Hu. induction fuel as [| fuel IH]; intros seen level Hnd Hsu Hls Hp Hf.
  - simpl. split; [apply incl_refl |]. intros x Hx.
    destruct Hf as [-> | Hf]; [| lia]. destruct (Hp x Hx) as [[] | H]. exact H.
  - simpl. destruct level as [| l0 lr] eqn:Hlev.
    + split; [apply incl_refl |]. intros x Hx. destruct (Hp x Hx) as [[] | H]. exact H.
    + rewrite <- Hlev in *. assert (Hne : level <> []) by (rewrite Hlev; discriminate).
      clear Hlev l0 lr.
      destruct (add_new_spec (flat_map next level) seen) as [news [Heq [H1 [H2 H3]]]].
      rewrite Heq, skipn_app_length.
      assert (Hsu' : incl (seen ++ news) univ).
      { intros x Hx. apply in_app_or in Hx as [Hx | Hx]; [auto |].
        destruct (H1 x Hx) as [Hin _]. apply in_flat_map in Hin as [z [Hz Hzx]].
        apply (Hu z); auto. }
      destruct (IH (seen ++ news) news) as [Hincl Hclosed].
      * auto.
      * exact Hsu'.
      * intros z Hz. apply in_or_app. auto.
      * intros x Hx. apply in_app_or in Hx as [Hx | Hx]; [| auto].
        right. destruct (Hp x Hx) as [Hxl | Hxn].
        -- intros y Hy. assert (Hin : In y (flat_map next level)).
           { apply in_flat_map. eauto. }
           destruct (H2 y Hin); apply in_or_app; auto.
        -- intros y Hy. apply in_or_app. left. auto.
      * destruct news as [| n0 nr]; [left; reflexivity | right].
        pose proof (NoDup_incl_length (H3 Hnd) Hsu') as Hlen.
        rewrite length_app in *. simpl in *. destruct Hf as [Hf | Hf]; [congruence | lia].
      * split; [| exact Hclosed].
        intros x Hx. apply Hincl. apply in_or_app. auto.
Qed.

Lemma bfs_complete univ next source :
  (forall x, In x univ -> incl (next x) univ) -> In source univ ->
  forall y, star next source y ->
            In y (nx.bfs (S (List.length univ)) next [source] [source]).
Proof.
  intros Hu Hs y Hstar.
  destruct (bfs_closed univ next Hu (S (List.length univ)) [source] [source])
    as [Hincl Hclosed].
  - repeat constructor. intros [].
  - intros x [-> | []]. exact Hs.
  - apply incl_refl.
  - intros x Hx. left. exact Hx.
  - right. simpl. lia.
  - assert (Hin : In source (nx.bfs (S (List.length univ)) next [source] [source])).
    { apply Hincl. left. reflexivity. }
    remember (nx.bfs (S (List.length univ)) next [source] [source]) as r eqn:Hr.
    clear Hincl Hs Hr. induction Hstar as [x | x w y Hw Hst IH]; [exact Hin |].
    apply IH. apply (Hclosed x Hin). exact Hw.
Qed.

Opaque nx.bfs.

Section Reachability.
Context {A E : Type} `{Attrs A} `{Attrs E}.
Implicit Types g : nx.DiGraph A E.

Lemma succ_in_nodes g x : closed g -> incl (nx.succ g x) (nx.nodes g).
Proof.
  intros Hc y Hy. apply succ_In in Hy as [d Hd]. destruct (Hc _ _ _ Hd) as [_ Hv]. exact Hv.
Qed.

Lemma pred_in_nodes g x : closed g -> incl (nx.pred g x) (nx.nodes g).
Proof.
  intros Hc y Hy. apply pred_In in Hy as [d Hd]. destruct (Hc _ _ _ Hd) as [Hu _]. exact Hu.
Qed.

Lemma pred_succ g x w : In w (nx.pred g x) <-> In x (nx.succ g w).
Proof. rewrite pred_In, succ_In. reflexivity. Qed.

Lemma star_pred_succ g x y : star (nx.pred g) x y -> star (nx.succ g) y x.
Proof.
  induction 1 as [x | x w y Hw Hs IH]; [apply star_refl |].
  eapply star_snoc; [exact IH | now apply pred_succ].
Qed.

Lemma star_succ_pred g x y : star (nx.succ g) x y -> star (nx.pred g) y x.
Proof.
  induction 1 as [x | x w y Hw Hs IH]; [apply star_refl |].
  eapply star_snoc; [exact IH | now apply pred_succ].
Qed.

Lemma remove_item_In n l x : In x (nx.remove_item n l) <-> In x l /\ x <> n.
Proof.
  unfold nx.remove_item. rewrite filter_In, negb_true_iff, String.eqb_neq. reflexivity.
Qed.

Lemma number_of_nodes_length g : nx.number_of_nodes g = List.length (nx.nodes g).
Proof. unfold nx.number_of_nodes, nx.nodes. now rewrite length_map. Qed.

Lemma descendants_sound g n l x :
  nx.descendants g n = Ok l -> In x l -> star (nx.succ g) n x.
Proof.
  unfold nx.descendants. destruct (nx.has_node g n); [| discriminate].
  intros [= <-] Hx. apply remove_item_In in Hx as [Hx _].
  destruct (bfs_sound _ _ _ _ (incl_refl _) _ Hx) as [s [[Hs0 | []] Hs]].
  subst s. exact Hs.
Qed.

Lemma descendants_complete g n l x :
  closed g -> nx.descendants g n = Ok l -> star (nx.succ g) n x -> x = n \/ In x l.
Proof.
  unfold nx.descendants. intros Hc. destruct (nx.has_node g n) eqn:Hn; [| discriminate].
  intros [= <-] Hs.
  destruct (string_dec x n) as [-> | Hne]; [left; reflexivity | right].
  apply remove_item_In. split; [| exact Hne].
  rewrite number_of_nodes_length. apply bfs_complete.
  - intros y _. now apply succ_in_nodes.
  - now apply has_node_In.
  - exact Hs.
Qed.

Lemma ancestors_sound g n l x :
  nx.ancestors g n = Ok l -> In x l -> star (nx.succ g) x n.
Proof.
  unfold nx.ancestors. destruct (nx.has_node g n); [| discriminate].
  intros [= <-] Hx. apply remove_item_In in Hx as [Hx _].
  destruct (bfs_sound _ _ _ _ (incl_refl _) _ Hx) as [s [[Hs0 | []] Hs]].
  subst s. now apply star_pred_succ.
Qed.

Lemma ancestors_complete g n l x :
  closed g -> nx.ancestors g n = Ok l -> star (nx.succ g) x n -> x = n \/ In x l.
Proof.
  unfold nx.ancestors. intros Hc. destruct (nx.has_node g n) eqn:Hn; [| discriminate].
  intros [= <-] Hs.
  destruct (string_dec x n) as [-> | Hne]; [left; reflexivity | right].
  apply remove_item_In. split; [| exact Hne].
  rewrite number_of_nodes_length. apply bfs_complete.
  - intros y _. now apply pred_in_nodes.
  - now apply has_node_In.
  - now apply star_succ_pred.
Qed.

End Reachability.

Transparent nx.bfs.

(** ** The topological sort lists every node *)

Section TopologicalSort.
Context {A E : Type} `{Attrs A} `{Attrs E}.
Implicit Types g : nx.DiGraph A E.

Lemma decrement_keys child : forall im im' z,
  nx.decrement child im = Some (im', z) ->
  forall x, In x (map fst im) -> In x (map fst im') \/ (z = true /\ x = child).
Proof.
  induction im as [| [k d] r IH]; simpl; intros im' z Hd x Hx; [discriminate |].
  destruct (String.eqb k child) eqn:Hk.
  - apply String.eqb_eq in Hk. subst k.
    destruct (d - 1) as [| d']; inversion Hd; subst; simpl.
    + destruct Hx as [-> | Hx]; auto.
    + destruct Hx as [-> | Hx]; auto.
  - destruct (nx.decrement child r) as [[r' z'] |] eqn:Hr; [| discriminate].
    inversion Hd; subst. simpl. destruct Hx as [-> | Hx]; [auto |].
    destruct (IH _ _ eq_refl x Hx) as [Hin | Hz]; auto.
Qed.

Lemma visit_children_Raise children e :
  fold_left
    (fun (acc : result (list (string * nat) * list string)) child =>
       bind acc (fun '(indegree_map, zero_indegree) =>
         match nx.decrement child indegree_map with
         | None => Raise (RuntimeError "Graph changed during iteration")
         | Some (indegree_map', true) => Ok (indegree_map', zero_indegree ++ [child])
         | Some (indegree_map', false) => Ok (indegree_map', zero_indegree)
         end))
    children (Raise e) = Raise e.
Proof. induction children as [| c r IH]; simpl; [reflexivity | exact IH]. Qed.

Lemma visit_children_keys children : forall st st',
  nx.visit_children children st = Ok st' ->
  forall x, In x (map fst (fst st)) \/ In x (snd st) ->
            In x (map fst (fst st')) \/ In x (snd st').
Proof.
  unfold nx.visit_children.
  induction children as [| c r IH]; intros [im z] st' Hv x Hx; simpl in Hv.
  - inversion Hv; subst. exact Hx.
  - destruct (nx.decrement c im) as [[im1 b] |] eqn:Hd.
    + assert (Hx1 : In x (map fst im1) \/ In x (if b then z ++ [c] else z)).
      { destruct Hx as [Hx | Hx].
        - destruct (decrement_keys _ _ _ _ Hd x Hx) as [Hin | [-> ->]]; [auto |].
          right. apply in_or_app. right. left. reflexivity.
        - right. destruct b; [apply in_or_app |]; auto. }
      destruct b; eapply (IH (_, _)); eauto.
    + rewrite visit_children_Raise in Hv. discriminate.
Qed.

Lemma visit_generation_Raise g generation e :
  fold_left
    (fun (acc : result (list (string * nat) * list string)) node =>
       bind acc (fun st => nx.visit_children (nx.succ g node) st))
    generation (Raise e) = Raise e.
Proof. induction generation as [| c r IH]; simpl; [reflexivity | exact IH]. Qed.

Lemma visit_generation_keys g generation : forall st st',
  fold_left
    (fun (acc : result (list (string * nat) * list string)) node =>
       bind acc (fun st => nx.visit_children (nx.succ g node) st))
    generation (Ok st) = Ok st' ->
  forall x, In x (map fst (fst st)) \/ In x (snd st) ->
            In x (map fst (fst st')) \/ In x (snd st').
Proof.
  induction generation as [| c r IH]; intros st st' Hv x Hx; simpl in Hv.
  - inversion Hv; subst. exact Hx.
  - destruct (nx.visit_children (nx.succ g c) st) as [st1 |] eqn:Hc.
    + eapply IH; [exact Hv |]. eapply visit_children_keys; eauto.
    + rewrite visit_generation_Raise in Hv. discriminate.
Qed.

Lemma topological_generations_complete g : forall fuel im zero l,
  nx.topological_generations fuel g im zero = Ok l ->
  forall x, In x zero \/ In x (map fst im) -> In x l.
Proof.
  induction fuel as [| fuel IH]; intros im zero l Ht x Hx.
  - destruct zero as [| z0 zr]; simpl in Ht; [| discriminate].
    destruct im as [| i0 ir]; [| discriminate].
    destruct Hx as [[] | []].
  - destruct zero as [| z0 zr] eqn:Hz.
    + simpl in Ht. destruct im as [| i0 ir]; [| discriminate].
      destruct Hx as [[] | []].
    + rewrite <- Hz in *. assert (Ht' :
        bind (nx.visit_generation g zero im)
             (fun '(im', zero') =>
                bind (nx.topological_generations fuel g im' zero')
                     (fun rest => Ok (zero ++ rest))) = Ok l).
      { rewrite Hz in *. exact Ht. }
      clear Ht Hz z0 zr.
      apply bind_Ok in Ht' as [[im' zero'] [Hv Ht']].
      apply bind_Ok in Ht' as [rest [Hr Ht']]. inversion Ht'; subst.
      apply in_or_app. destruct Hx as [Hx | Hx]; [left; exact Hx | right].
      apply (IH _ _ _ Hr).
      unfold nx.visit_generation in Hv.
      destruct (visit_generation_keys g zero (im, []) (im', zero') Hv x (or_introl Hx));
        auto.
Qed.

Lemma topological_sort_complete g l :
  nx.topological_sort g = Ok l -> forall x, In x (nx.nodes g) -> In x l.
Proof.
  unfold nx.topological_sort. intros Ht x Hx.
  apply (topological_generations_complete _ _ _ _ _ Ht).
  destruct (Nat.eqb (nx.in_degree g x) 0) eqn:Hd.
  - left. apply filter_In. auto.
  - right. apply in_map_iff. exists (x, nx.in_degree g x). split; [reflexivity |].
    apply filter_In. split.
    + apply in_map_iff. eauto.
    + simpl. now rewrite Hd.
Qed.

End TopologicalSort.

(** ** The parse tree *)

Lemma flatten_app a b : flatten (a ++ b) = flatten a ++ flatten b.
Proof. unfold flatten. apply flat_map_app. Qed.

Lemma flatten_nested l : flatten (map Nested l) = flat_map flatten l.
Proof.
  unfold flatten. induction l as [| x r IH]; simpl; [reflexivity |].
  now rewrite IH.
Qed.

Lemma flatten_subqueries (subqueries : list (list Query)) :
  subqueries <> [] ->
  flatten (map Nested (removelast subqueries) ++ last subqueries [])
  = flat_map flatten subqueries.
Proof.
  intros Hne. rewrite flatten_app, flatten_nested.
  rewrite (app_removelast_last [] Hne) at 3.
  rewrite flat_map_app. simpl. now rewrite app_nil_r.
Qed.

Lemma remove_first_other d n todo :
  In n todo -> n <> d -> In n (remove_first d todo).
Proof.
  induction todo as [| x r IH]; simpl; intros Hin Hne; [contradiction |].
  destruct (String.eqb x d) eqn:Hx.
  - apply String.eqb_eq in Hx. subst x. destruct Hin as [-> | Hin]; [congruence | exact Hin].
  - destruct Hin as [-> | Hin]; [left; reflexivity | right; auto].
Qed.

Lemma remove_done_other done : forall todo n,
  In n todo -> ~ In n done -> In n (fold_left (fun t d => remove_first d t) done todo).
Proof.
  induction done as [| d r IH]; simpl; intros todo n Hin Hnot; [exact Hin |].
  apply IH; [| tauto]. apply remove_first_other; [exact Hin |].
  intros ->. tauto.
Qed.

Lemma append_to_same key align d :
  nx.lookup key (append_to key align d)
  = Some (match nx.lookup key d with Some l => l ++ [align] | None => [align] end).
Proof.
  induction d as [| [k l] r IH]; simpl.
  - now rewrite String.eqb_refl.
  - destruct (String.eqb k key) eqn:Hk; simpl; rewrite Hk; [reflexivity | exact IH].
Qed.

Lemma append_to_other key align d k :
  k <> key -> nx.lookup k (append_to key align d) = nx.lookup k d.
Proof.
  intros Hne. induction d as [| [k' l] r IH]; simpl.
  - replace (String.eqb key k) with false; [reflexivity |].
    symmetry. apply String.eqb_neq. congruence.
  - destruct (String.eqb k' key) eqn:Hk; simpl.
    + apply String.eqb_eq in Hk. subst k'.
      replace (String.eqb key k) with false; [reflexivity |].
      symmetry. apply String.eqb_neq. congruence.
    + now rewrite IH.
Qed.

Lemma Forall2_last {T U : Type} (R : T -> U -> Prop) l x l' :
  Forall2 R (l ++ [x]) l' -> exists y, In y l' /\ R x y.
Proof.
  intros HF. apply Forall2_app_inv_l in HF as [l1 [l2 [_ [H2 ->]]]].
  inversion H2 as [| ? y ? ? Hxy _]; subst. exists y. split; [| exact Hxy].
  apply in_or_app. right. left. reflexivity.
Qed.

Lemma intersection_In sets l x :
  intersection sets = Ok l -> In x l -> forall s, In s sets -> In x s.
Proof.
  unfold intersection. destruct sets as [| s0 r]; [discriminate |].
  intros [= <-] Hx.
  assert (Hgen : forall r acc, In x (fold_left (fun acc t => filter (fun b => mem b t) acc) r acc) ->
                 In x acc /\ forall s, In s r -> In x s).
  { clear. induction r as [| t r IH]; simpl; intros acc Hin; [split; [exact Hin | intros s []] |].
    destruct (IH _ Hin) as [Hf Hr]. apply filter_In in Hf as [Hacc Ht].
    split; [exact Hacc |]. intros s [-> | Hs]; [now apply mem_In | auto]. }
  destruct (Hgen _ _ Hx) as [H0 Hr]. intros s [-> | Hs]; [| auto].
  eapply nodup_In. exact H0.
Qed.

Lemma farthest_In distances best :
  farthest distances = Ok best -> In best distances.
Proof.
  unfold farthest. destruct distances as [| x r]; [discriminate |].
  intros [= <-].
  assert (Hgen : forall (r : list (string * nat)) (b : string * nat), In (fold_left
            (fun best y : string * nat => if Nat.ltb (snd best) (snd y) then y else best) r b)
            (b :: r)).
  { clear. induction r as [| y r IH]; simpl; intros b; [auto |].
    destruct (IH (if Nat.ltb (snd b) (snd y) then y else b)) as [Heq | Hin].
    - destruct (Nat.ltb (snd b) (snd y)); rewrite <- Heq; auto.
    - auto. }
  apply Hgen.
Qed.

Lemma Forall2_In_r {T U : Type} (R : T -> U -> Prop) l l' y :
  Forall2 R l l' -> In y l' -> exists x, In x l /\ R x y.
Proof.
  induction 1 as [| x y' l l' Hxy HF IH]; simpl; [intros [] |].
  intros [-> | Hin]; [eauto |]. destruct (IH Hin) as [x' [Hx' HR]]. eauto.
Qed.

Lemma shortest_path_nodes (g : TreeGraph) source target path :
  nx.shortest_path g source target = Ok path ->
  In source (nx.nodes g) /\ In target (nx.nodes g).
Proof.
  unfold nx.shortest_path.
  destruct (nx.has_node g source && nx.has_node g target) eqn:Hn; [| discriminate].
  intros _. apply andb_true_iff in Hn as [Hs Ht].
  split; now apply has_node_In.
Qed.

Section ParseFacts.
Variable is_alignment : string -> bool.
Variable action_branches : string -> list string.
Variable action_reference : string -> string.
Variable parents : string -> list string.
Variable find_hierarchy_branches : string -> list string.

(** The shared hierarchy branch of an alignment is a node of the graph and
    a hierarchy branch of each of its parents. *)
Lemma shared_hierarchy_branch_spec (g : TreeGraph) a h :
  shared_hierarchy_branch parents find_hierarchy_branches g a = Ok h ->
  In h (nx.nodes g) /\ forall p, In p (parents a) -> In h (find_hierarchy_branches p).
Proof.
  unfold shared_hierarchy_branch. intros Hs.
  apply bind_Ok in Hs as [branches [Hb Hs]].
  apply bind_Ok in Hs as [distances [Hd Hs]].
  apply bind_Ok in Hs as [best [Hbest Hs]].
  injection Hs as <-.
  apply farthest_In in Hbest. apply mapM_Forall2 in Hd.
  destruct (Forall2_In_r _ _ _ _ Hd Hbest) as [b [Hin Hb']].
  apply bind_Ok in Hb' as [d [Hl Hb']]. injection Hb' as <-. cbn [fst].
  unfold shortest_path_length in Hl. apply bind_Ok in Hl as [path [Hp _]].
  apply shortest_path_nodes in Hp as [Hbn _]. split; [exact Hbn |].
  intros p Hp. apply (intersection_In _ _ _ Hb Hin). now apply in_map.
Qed.

Lemma collect_shared_aligns_Raise (g : TreeGraph) aligns e sa :
  fold_left
    (fun acc align =>
       shared_aligns <- acc ;;
       key <- shared_hierarchy_branch parents find_hierarchy_branches g align ;;
       Ok (append_to key align shared_aligns))
    aligns (Raise e) = Ok sa -> False.
Proof.
  induction aligns as [| a r IH]; simpl; [discriminate | exact IH].
Qed.

Lemma collect_shared_aligns_spec (g : TreeGraph) aligns sa :
  collect_shared_aligns parents find_hierarchy_branches g aligns = Ok sa ->
  shared_aligns_ok parents find_hierarchy_branches g aligns sa.
Proof.
  unfold collect_shared_aligns.
  assert (Hgen : forall rest acc all,
            shared_aligns_ok parents find_hierarchy_branches g all acc ->
            incl rest all ->
            fold_left
              (fun acc align =>
                 shared_aligns <- acc ;;
                 key <- shared_hierarchy_branch parents find_hierarchy_branches g align ;;
                 Ok (append_to key align shared_aligns))
              rest (Ok acc) = Ok sa ->
            shared_aligns_ok parents find_hierarchy_branches g all sa).
  { induction rest as [| a r IH]; intros acc all Hacc Hincl Hf.
    - simpl in Hf. injection Hf as <-. exact Hacc.
    - cbn [fold_left] in Hf. cbn [bind] in Hf.
      destruct (shared_hierarchy_branch parents find_hierarchy_branches g a) as [key | e] eqn:Hk.
      + cbn [bind] in Hf. apply (IH _ all) in Hf; [exact Hf | | ].
        * intros k l Hl. destruct (string_dec k key) as [-> | Hne].
          -- rewrite append_to_same in Hl. injection Hl as <-.
             destruct (nx.lookup key acc) as [old |] eqn:Hold.
             ++ split; [now destruct old |].
                intros x Hx. apply in_app_or in Hx as [Hx | [<- | []]].
                ** now apply (Hacc _ _ Hold).
                ** split; [apply Hincl; now left | exact Hk].
             ++ split; [discriminate |].
                intros x [<- | []]. split; [apply Hincl; now left | exact Hk].
          -- rewrite append_to_other in Hl by exact Hne. now apply Hacc.
        * intros x Hx. apply Hincl. now right.
      + cbn [bind] in Hf. now apply collect_shared_aligns_Raise in Hf. }
  intros Hf. apply (Hgen aligns [] aligns); [| apply incl_refl | exact Hf].
  intros key l Hl. discriminate.
Qed.

(** The sub-graph between two nodes keeps the paths between its nodes. *)
Lemma between_spec (g : TreeGraph) node input_node ng :
  closed g ->
  between g node input_node = Ok ng ->
  closed ng /\
  incl (nx.nodes ng) (nx.nodes g) /\
  (forall u v, In u (nx.nodes ng) -> In v (nx.nodes ng) -> reaches g u v -> reaches ng u v) /\
  (In node (nx.nodes g) -> reaches g node input_node -> In node (nx.nodes ng)).
Proof.
  intros Hc Hb. unfold between in Hb.
  apply bind_Ok in Hb as [before [Hbefore Hb]].
  apply bind_Ok in Hb as [after [Hafter Hb]].
  injection Hb as <-.
  set (fn := fun n => mem n (before ++ [node]) && mem n (after ++ [input_node])).
  assert (Hfn : forall n, fn n = true <->
            reaches g node n /\ reaches g n input_node).
  { intros n. unfold fn. rewrite andb_true_iff, !mem_In, !in_app_iff. simpl.
    split.
    - intros [[Hb | [<- | []]] [Ha | [<- | []]]]; split;
        try apply star_refl;
        try (now apply (descendants_sound _ _ _ _ Hbefore));
        try (now apply (ancestors_sound _ _ _ _ Hafter)).
    - intros [Hd Ha]. split.
      + destruct (descendants_complete _ _ _ _ Hc Hbefore Hd) as [-> | Hin]; auto.
      + destruct (ancestors_complete _ _ _ _ Hc Hafter Ha) as [-> | Hin]; auto. }
  split; [now apply subgraph_view_closed |].
  split; [intros n Hn; now apply subgraph_view_nodes in Hn |].
  split.
  - intros u v Hu Hv Hr. unfold reaches in *.
    induction Hr as [x | x y z Hy Hs IH]; [apply star_refl |].
    apply subgraph_view_nodes in Hu as [Hxn Hxf].
    pose proof Hv as Hv'. apply subgraph_view_nodes in Hv' as [Hzn Hzf].
    apply Hfn in Hxf as [Hnx _]. apply Hfn in Hzf as [_ Hzi].
    assert (Hyf : fn y = true).
    { apply Hfn. split.
      - eapply star_snoc; eassumption.
      - eapply star_trans; eassumption. }
    assert (Hyn : In y (nx.nodes g)) by (now apply (succ_in_nodes g x Hc)).
    apply star_step with y.
    + apply succ_In in Hy as [d Hd]. apply succ_In. exists d.
      apply subgraph_view_adj. repeat split; auto.
      apply Hfn. split; [exact Hnx |]. eapply star_step; [| apply Hfn in Hyf; apply Hyf].
      apply succ_In. eauto.
    + apply IH; [| exact Hv]. apply subgraph_view_nodes. auto.
  - intros Hn Hr. apply subgraph_view_nodes. split; [exact Hn |].
    apply Hfn. split; [apply star_refl | exact Hr].
Qed.

End ParseFacts.

Lemma between_input (g : TreeGraph) node input_node ng :
  between g node input_node = Ok ng -> In input_node (nx.nodes g).
Proof.
  unfold between. intros Hb.
  apply bind_Ok in Hb as [before [_ Hb]].
  apply bind_Ok in Hb as [after [Hafter _]].
  unfold nx.ancestors in Hafter.
  destruct (nx.has_node g input_node) eqn:Hn; [| discriminate].
  now apply has_node_In.
Qed.

Section ParseComplete.
Variable is_alignment : string -> bool.
Variable action_branches : string -> list string.
Variable action_reference : string -> string.
Variable parents : string -> list string.
Variable find_hierarchy_branches : string -> list string.
Variable G : TreeGraph.
Hypothesis G_closed : closed G.
Hypothesis reference_is_parent :
  forall a, In a (nx.nodes G) -> is_alignment a = true ->
            In (action_reference a) (parents a).
Hypothesis hierarchy_branches_above :
  forall a p b, In a (nx.nodes G) -> is_alignment a = true ->
                In p (parents a) -> In b (find_hierarchy_branches p) -> reaches G b p.

Lemma part_of_refl : part_of G G.
Proof. split; [exact G_closed |]. split; [apply incl_refl | auto]. Qed.

Lemma between_part_of g node input_node ng :
  part_of G g -> between g node input_node = Ok ng -> part_of G ng.
Proof.
  intros [Hc [Hi Hr]] Hb.
  destruct (between_spec g node input_node ng Hc Hb) as [Hc' [Hi' [Hr' _]]].
  split; [exact Hc' |]. split.
  - intros n Hn. auto.
  - intros u v Hu Hv Huv. apply Hr'; auto.
Qed.

(** The loop over [todo] loses nothing, when the sub-graphs are parsed
    without loss. *)
Lemma parse_todo_complete parse_sub g shared_aligns :
  part_of G g ->
  (forall ng q, part_of G ng -> parse_sub ng = Ok q -> incl (nx.nodes ng) (flatten q)) ->
  shared_aligns_ok parents find_hierarchy_branches g
    (rev (filter is_alignment (nx.nodes g))) shared_aligns ->
  forall fuel todo query q,
    parse_todo action_branches action_reference parse_sub g shared_aligns fuel todo query
      = Ok q ->
    forall n, In n todo \/ In n (flatten query) -> In n (flatten q).
Proof.
  intros Hp Hsub Hsa. induction fuel as [| fuel IH]; intros todo query q Hq n Hn.
  - destruct todo as [| node todo]; simpl in Hq; [| discriminate].
    injection Hq as <-. destruct Hn as [[] | Hn]. exact Hn.
  - destruct todo as [| node todo].
    { simpl in Hq. injection Hq as <-. destruct Hn as [[] | Hn]. exact Hn. }
    cbn [parse_todo] in Hq.
    destruct (nx.lookup node shared_aligns) as [align_list |] eqn:Hl.
    + destruct (Hsa _ _ Hl) as [Hne Hal].
      destruct align_list as [| align rest]; [congruence |].
      cbn [firstn] in Hq.
      apply bind_Ok in Hq as [subqueries [Hm Hq]].
      apply mapM_Forall2 in Hm.
      assert (Hsq : subqueries <> []).
      { intros ->. inversion Hm as [Hnil |]. now destruct (action_branches align). }
      assert (Hnode : In node (flat_map flatten subqueries)).
      { destruct (Forall2_last _ _ _ _ Hm) as [sq [Hin Hrun]].
        apply bind_Ok in Hrun as [ng [Hbetween Hparse]].
        destruct (Hal align (or_introl eq_refl)) as [Hal1 Hshared].
        apply in_rev in Hal1. apply filter_In in Hal1 as [Hag His].
        destruct (shared_hierarchy_branch_spec _ _ _ _ _ Hshared) as [Hng Hhb].
        destruct Hp as [Hc [Hi Hr]].
        pose proof (reference_is_parent align (Hi _ Hag) His) as Hrp.
        pose proof (hierarchy_branches_above align _ node (Hi _ Hag) His Hrp (Hhb _ Hrp))
          as Hreach.
        pose proof (between_input _ _ _ _ Hbetween) as Hrg.
        destruct (between_spec g node (action_reference align) ng Hc Hbetween)
          as [_ [_ [_ Hin']]].
        apply in_flat_map. exists sq. split; [exact Hin |].
        apply (Hsub ng sq); [| exact Hparse |].
        - apply (between_part_of g node (action_reference align)); [| exact Hbetween].
          split; [exact Hc |]. split; assumption.
        - apply Hin'; [exact Hng |]. apply Hr; assumption. }
      apply (IH _ _ _ Hq).
      rewrite flatten_app, (flatten_subqueries _ Hsq), in_app_iff.
      destruct Hn as [[<- | Hn] | Hn].
      * right. right. exact Hnode.
      * destruct (in_dec string_dec n (flat_map flatten subqueries)) as [Hd | Hd].
        -- right. right. exact Hd.
        -- left. now apply remove_done_other.
      * right. left. exact Hn.
    + apply (IH _ _ _ Hq).
      rewrite flatten_app, in_app_iff. simpl.
      destruct Hn as [[<- | Hn] | Hn]; auto.
Qed.

Lemma parse_complete_part : forall fuel g q,
  part_of G g ->
  parse is_alignment action_branches action_reference parents find_hierarchy_branches
        fuel g = Ok q ->
  incl (nx.nodes g) (flatten q).
Proof.
  induction fuel as [| fuel IH]; intros g q Hp Hq; [discriminate |].
  cbn [parse] in Hq.
  apply bind_Ok in Hq as [shared_aligns [Hsa Hq]].
  apply bind_Ok in Hq as [todo [Ht Hq]].
  apply collect_shared_aligns_spec in Hsa.
  intros n Hn.
  apply (parse_todo_complete _ g shared_aligns Hp (fun ng q' => IH ng q') Hsa _ _ _ _ Hq).
  left. now apply (topological_sort_complete g).
Qed.

End ParseComplete.

(** C7: the parse loses no node.  [Alignment], [parents] and
    [find_hierarchy_branches] belong to [weaveio.readquery.tree]; of them it is
    taken that the reference of an alignment is one of its parents and that
    the hierarchy branches of a parent lie above it in the graph.  Whenever
    [parse] returns, on a graph whose edges join its nodes, every node of the
    graph is in the flattened result: the sub-graph of the reference input of
    the one alignment that is treated contains the shared node, the
    alignments that are skipped stay in [todo] and are emitted as plain
    nodes. *)
Theorem parse_loses_no_node
    (is_alignment : string -> bool)
    (action_branches : string -> list string)
    (action_reference : string -> string)
    (parents find_hierarchy_branches : string -> list string)
    (fuel : nat) (graph : TreeGraph) (query : list Query) :
  closed graph ->
  (forall a, In a (nx.nodes graph) -> is_alignment a = true ->
             In (action_reference a) (parents a)) ->
  (forall a p b, In a (nx.nodes graph) -> is_alignment a = true ->
                 In p (parents a) -> In b (find_hierarchy_branches p) ->
                 reaches graph b p) ->
  parse is_alignment action_branches action_reference parents find_hierarchy_branches
        fuel graph = Ok query ->
  incl (nx.nodes graph) (flatten query).
Proof.
  intros Hc Href Hhb Hq.
  apply (parse_complete_part is_alignment action_branches action_reference parents
           find_hierarchy_branches graph Href Hhb fuel graph query); [| exact Hq].
  now apply part_of_refl.
Qed.

(** ** The example of [parse_tree.py] *)

Lemma closedb_closed g : closedb g = true -> closed g.
Proof.
  unfold closedb. rewrite forallb_forall. intros Hall u v d Hin.
  specialize (Hall _ Hin). simpl in Hall. apply andb_true_iff in Hall as [Hu Hv].
  split; now apply (proj1 (mem_In _ _)).
Qed.

Lemma example_tree_closed : closed example_tree.
Proof. apply closedb_closed. vm_compute. reflexivity. Qed.

Lemma example_alignments a :
  example_is_alignment a = true -> a = "align0"%string \/ a = "align1"%string.
Proof.
  unfold example_is_alignment. rewrite orb_true_iff, !String.eqb_eq. tauto.
Qed.

Lemma example_reference_is_parent a :
  In a (nx.nodes example_tree) -> example_is_alignment a = true ->
  In (example_reference a) (example_parents a).
Proof.
  intros _ His. destruct (example_alignments a His) as [Ha | Ha]; rewrite Ha;
    apply (proj1 (mem_In _ _)); vm_compute; reflexivity.
Qed.

Lemma example_hierarchy_branches_above a p b :
  In a (nx.nodes example_tree) -> example_is_alignment a = true ->
  In p (example_parents a) -> In b (example_hierarchy_branches p) ->
  reaches example_tree b p.
Proof.
  intros _ His Hp [<- | []].
  assert (Hd : In p ["any_ob_runs"; "any_ob_targets"; "or1"; "any_ob_exposures"]%string).
  { destruct (example_alignments a His) as [Ha | Ha]; rewrite Ha in Hp;
      vm_compute in Hp; simpl; tauto. }
  apply (descendants_sound example_tree "ob"
           ["target"; "run"; "exposure"; "ob_targets"; "ob_runs"; "ob_exposures";
            "any_ob_targets"; "any_ob_runs"; "any_ob_exposures"; "align0"; "align1";
            "or1"; "or2"; "final"]%string p).
  - vm_compute. reflexivity.
  - simpl in Hd. destruct Hd as [<- | [<- | [<- | [<- | []]]]];
      apply (proj1 (mem_In _ _)); vm_compute; reflexivity.
Qed.

Lemma parse_example_loses_no_node :
  incl (nx.nodes example_tree) (flatten example_query).
Proof.
  apply (parse_loses_no_node example_is_alignment example_branches example_reference
           example_parents example_hierarchy_branches 5 example_tree example_query).
  - exact example_tree_closed.
  - exact example_reference_is_parent.
  - exact example_hierarchy_branches_above.
  - vm_compute. reflexivity.
Defined.

(** ** The deque without repetition *)

Lemma remove_first_In d x l : In x (remove_first d l) -> In x l.
Proof.
  induction l as [| y r IH]; simpl; [auto |].
  destruct (String.eqb y d); simpl; intuition.
Qed.

Lemma remove_first_NoDup d l : NoDup l -> NoDup (remove_first d l).
Proof.
  induction 1 as [| y r Hy Hr IH]; simpl; [constructor |].
  destruct (String.eqb y d); [exact Hr |].
  constructor; [| exact IH]. intros Hin. apply Hy. now apply remove_first_In in Hin.
Qed.

Lemma remove_first_gone d l : NoDup l -> ~ In d (remove_first d l).
Proof.
  induction 1 as [| y r Hy Hr IH]; simpl; [auto |].
  destruct (String.eqb y d) eqn:Hyd.
  - apply String.eqb_eq in Hyd. now subst.
  - apply String.eqb_neq in Hyd. simpl. intuition.
Qed.

Lemma remove_first_absent d l : ~ In d l -> remove_first d l = l.
Proof.
  induction l as [| y r IH]; simpl; [reflexivity |]. intros Hn.
  destruct (String.eqb y d) eqn:Hyd.
  - apply String.eqb_eq in Hyd. tauto.
  - f_equal. tauto.
Qed.

Lemma remove_first_length d l :
  In d l -> S (List.length (remove_first d l)) = List.length l.
Proof.
  induction l as [| y r IH]; simpl; [tauto |]. intros Hin.
  destruct (String.eqb y d) eqn:Hyd; [reflexivity |].
  apply String.eqb_neq in Hyd. simpl. destruct Hin as [-> | Hin]; [congruence | auto].
Qed.

Lemma NoDup_snoc (l : list string) x : NoDup l -> ~ In x l -> NoDup (l ++ [x]).
Proof.
  intros Hl Hx. apply (Permutation_NoDup (l := x :: l)).
  - change (x :: l) with ([x] ++ l). apply Permutation_app_comm.
  - now constructor.
Qed.

Lemma NoDup_tl (l : list string) : NoDup l -> NoDup (tl l).
Proof. destruct 1; simpl; [constructor | assumption]. Qed.

Lemma removelast_incl (l : list string) x : In x (removelast l) -> In x l.
Proof.
  induction l as [| y r IH]; simpl; [auto |].
  destruct r as [| z r']; [intros [] |]. intros [-> | Hin]; auto.
Qed.

Lemma NoDup_removelast (l : list string) : NoDup l -> NoDup (removelast l).
Proof.
  induction 1 as [| y r Hy Hr IH]; simpl; [constructor |].
  destruct r as [| z r']; [constructor |].
  constructor; [| exact IH]. intros Hin. apply Hy. now apply removelast_incl.
Qed.

Lemma NoDup_insert (l : list string) k x :
  NoDup l -> ~ In x l -> NoDup (firstn k l ++ x :: skipn k l).
Proof.
  intros Hl Hx. apply (Permutation_NoDup (l := x :: l)).
  - rewrite <- (firstn_skipn k l) at 1. apply Permutation_middle.
  - now constructor.
Qed.

Lemma with_items_ok d l :
  deque_ok d -> NoDup l -> List.length l <= List.length (UniqueDeque.items d) ->
  deque_ok (UniqueDeque.with_items d l).
Proof.
  intros [_ Hm] Hl Hlen. split; [exact Hl |]. simpl. intros m Hmax.
  specialize (Hm m Hmax). lia.
Qed.

Lemma super_append_ok d x :
  deque_ok d -> ~ In x (UniqueDeque.items d) -> deque_ok (UniqueDeque.super_append d x).
Proof.
  intros [Hn Hm] Hx. unfold UniqueDeque.super_append.
  pose proof (NoDup_snoc _ x Hn Hx) as Hs.
  destruct (UniqueDeque.maxlen d) as [m |] eqn:Hmax.
  - specialize (Hm m eq_refl).
    destruct (Nat.ltb m (List.length (UniqueDeque.items d ++ [x]))) eqn:Hlt.
    + split; simpl; [now apply NoDup_tl |]. rewrite Hmax. intros m' [= <-].
      destruct (UniqueDeque.items d); simpl in *; [lia |].
      rewrite length_app. simpl. rewrite length_app in Hlt. simpl in Hlt. lia.
    + apply Nat.ltb_ge in Hlt. split; simpl; [exact Hs |]. rewrite Hmax.
      intros m' [= <-]. exact Hlt.
  - split; simpl; [exact Hs |]. rewrite Hmax. discriminate.
Qed.

Lemma removelast_length (l : list string) :
  List.length (removelast l) = List.length l - 1.
Proof.
  destruct l as [| y r]; [reflexivity |].
  assert (Hne : y :: r <> []) by discriminate.
  pose proof (f_equal (@List.length string) (app_removelast_last EmptyString Hne)) as Hl.
  rewrite length_app in Hl.
  change (List.length [last (y :: r) EmptyString]) with 1 in Hl. lia.
Qed.

Lemma super_appendleft_ok d x :
  deque_ok d -> ~ In x (UniqueDeque.items d) ->
  deque_ok (UniqueDeque.super_appendleft d x).
Proof.
  intros [Hn Hm] Hx. unfold UniqueDeque.super_appendleft.
  assert (Hs : NoDup (x :: UniqueDeque.items d)) by now constructor.
  destruct (UniqueDeque.maxlen d) as [m |] eqn:Hmax.
  - specialize (Hm m eq_refl).
    destruct (Nat.ltb m (List.length (x :: UniqueDeque.items d))) eqn:Hlt.
    + split; cbn [UniqueDeque.items UniqueDeque.with_items UniqueDeque.maxlen];
        [now apply NoDup_removelast |].
      rewrite Hmax. intros m' [= <-]. rewrite removelast_length. simpl. lia.
    + apply Nat.ltb_ge in Hlt.
      split; cbn [UniqueDeque.items UniqueDeque.with_items UniqueDeque.maxlen];
        [exact Hs |].
      rewrite Hmax. intros m' [= <-]. exact Hlt.
  - split; cbn [UniqueDeque.items UniqueDeque.with_items UniqueDeque.maxlen];
      [exact Hs |].
    rewrite Hmax. discriminate.
Qed.

Lemma removed_ok d x :
  deque_ok d ->
  deque_ok (UniqueDeque.with_items d (remove_first x (UniqueDeque.items d))) /\
  ~ In x (UniqueDeque.items
            (UniqueDeque.with_items d (remove_first x (UniqueDeque.items d)))).
Proof.
  intros Hd. pose proof Hd as [Hn Hm]. split.
  - apply with_items_ok; [exact Hd | now apply remove_first_NoDup |].
    destruct (in_dec string_dec x (UniqueDeque.items d)) as [Hin | Hout].
    + pose proof (remove_first_length x _ Hin). lia.
    + now rewrite remove_first_absent.
  - simpl. now apply remove_first_gone.
Qed.

Lemma append_ok d x maintain : deque_ok d -> deque_ok (UniqueDeque.append d x maintain).
Proof.
  intros Hd. unfold UniqueDeque.append.
  destruct (mem x (UniqueDeque.items d)) eqn:Hx.
  - destruct maintain; [exact Hd |].
    destruct (removed_ok d x Hd) as [Hok Hgone]. now apply super_append_ok.
  - apply super_append_ok; [exact Hd |]. now apply mem_false.
Qed.

Lemma appendleft_ok d x maintain :
  deque_ok d -> deque_ok (UniqueDeque.appendleft d x maintain).
Proof.
  intros Hd. unfold UniqueDeque.appendleft.
  destruct (mem x (UniqueDeque.items d)) eqn:Hx.
  - destruct maintain; [exact Hd |].
    destruct (removed_ok d x Hd) as [Hok Hgone]. now apply super_appendleft_ok.
  - apply super_appendleft_ok; [exact Hd |]. now apply mem_false.
Qed.

Lemma fold_ok (f : UniqueDeque.t -> string -> UniqueDeque.t) l :
  (forall d x, deque_ok d -> deque_ok (f d x)) ->
  forall d, deque_ok d -> deque_ok (fold_left f l d).
Proof.
  intros Hf. induction l as [| x r IH]; simpl; intros d Hd; [exact Hd |].
  apply IH. now apply Hf.
Qed.

Lemma init_ok iterable maxlen maintain :
  deque_ok (UniqueDeque.init iterable maxlen maintain).
Proof.
  unfold UniqueDeque.init. apply fold_ok.
  - intros d x. apply append_ok.
  - split; simpl; [constructor | intros; lia].
Qed.

Lemma full_false d :
  deque_ok d ->
  (forall m, UniqueDeque.maxlen d = Some m -> List.length (UniqueDeque.items d) < m) ->
  UniqueDeque.full d = false.
Proof.
  intros _ Hlt. unfold UniqueDeque.full.
  destruct (UniqueDeque.maxlen d) as [m |]; [| reflexivity].
  apply Nat.eqb_neq. specialize (Hlt m eq_refl). lia.
Qed.

Lemma super_insert_ok d i x d' :
  deque_ok d -> ~ In x (UniqueDeque.items d) ->
  UniqueDeque.super_insert d i x = Ok d' -> deque_ok d'.
Proof.
  intros Hd Hx. unfold UniqueDeque.super_insert.
  destruct (negb (UniqueDeque.fits_ssize_t i)); [discriminate |].
  destruct (UniqueDeque.full d) eqn:Hfull; [discriminate |].
  destruct (Z.of_nat (List.length (UniqueDeque.items d)) <=? i)%Z.
  { intros [= <-]. now apply super_append_ok. }
  destruct ((i <=? - Z.of_nat (List.length (UniqueDeque.items d)))%Z || (i =? 0)%Z).
  { intros [= <-]. now apply super_appendleft_ok. }
  intros [= <-]. destruct Hd as [Hn Hm]. split.
  - simpl. now apply NoDup_insert.
  - simpl. intros m Hmax. specialize (Hm m Hmax).
    unfold UniqueDeque.full in Hfull. rewrite Hmax in Hfull.
    apply Nat.eqb_neq in Hfull.
    rewrite length_app. simpl. rewrite Nat.add_succ_r, <- length_app, firstn_skipn.
    lia.
Qed.

Lemma insert_ok d i x maintain d' :
  deque_ok d -> UniqueDeque.insert d i x maintain = Ok d' -> deque_ok d'.
Proof.
  intros Hd. unfold UniqueDeque.insert.
  destruct (mem x (UniqueDeque.items d)); [| now intros [= <-]].
  destruct (i =? _)%Z; [now intros [= <-] |].
  destruct maintain; [now intros [= <-] |].
  destruct (removed_ok d x Hd) as [Hok Hgone].
  destruct (_ <? i)%Z; [now apply super_insert_ok |].
  destruct (_ =? i)%Z; [now apply super_insert_ok |].
  now intros [= <-].
Qed.

Lemma do_call_ok d c d' : deque_ok d -> UniqueDeque.do_call d c = Ok d' -> deque_ok d'.
Proof.
  intros Hd. destruct c as [x mt | x mt | l mt | l mt | i x mt | | x]; simpl.
  - intros [= <-]. now apply append_ok.
  - intros [= <-]. now apply appendleft_ok.
  - intros [= <-]. apply fold_ok; [intros; now apply append_ok | exact Hd].
  - intros [= <-]. apply fold_ok; [intros; now apply appendleft_ok | exact Hd].
  - now apply insert_ok.
  - unfold UniqueDeque.popleft.
    destruct (UniqueDeque.items d) as [| y r] eqn:Hitems; [discriminate |].
    simpl. intros [= <-]. apply with_items_ok; [exact Hd | |].
    + destruct Hd as [Hn _]. rewrite Hitems in Hn. now inversion Hn.
    + rewrite Hitems. simpl. lia.
  - unfold UniqueDeque.super_remove.
    destruct (mem x (UniqueDeque.items d)); [| discriminate].
    intros [= <-]. now apply removed_ok.
Qed.

Lemma do_calls_Raise calls e d :
  fold_left (fun acc c => d <- acc ;; UniqueDeque.do_call d c) calls (Raise e) = Ok d ->
  False.
Proof. induction calls as [| c r IH]; simpl; [discriminate | exact IH]. Qed.

(** X1: a [UniqueDeque] never holds an item twice, and never more items
    than [maxlen]: this is so when it is made, from any iterable, and stays
    so under every sequence of calls of its methods that return. *)
Theorem unique_deque_has_no_repetition
    (iterable : list string) (maxlen : option nat) (maintain : bool)
    (calls : list UniqueDeque.call) (d : UniqueDeque.t) :
  UniqueDeque.do_calls (UniqueDeque.init iterable maxlen maintain) calls = Ok d ->
  NoDup (UniqueDeque.items d) /\
  forall m, maxlen = Some m -> List.length (UniqueDeque.items d) <= m.
Proof.
  unfold UniqueDeque.do_calls. intros Hrun.
  assert (Hgen : forall calls d0, deque_ok d0 ->
            fold_left (fun acc c => d <- acc ;; UniqueDeque.do_call d c) calls (Ok d0) = Ok d ->
            deque_ok d /\ UniqueDeque.maxlen d = UniqueDeque.maxlen d0).
  { clear. induction calls as [| c r IH]; simpl; intros d0 Hd0 Hrun.
    - injection Hrun as <-. auto.
    - destruct (UniqueDeque.do_call d0 c) as [d1 |] eqn:Hc.
      + destruct (IH d1 (do_call_ok _ _ _ Hd0 Hc) Hrun) as [Hok Hmax].
        split; [exact Hok |]. rewrite Hmax. clear - Hc.
        destruct c as [x mt | x mt | l mt | l mt | i x mt | | x]; simpl in Hc.
        * injection Hc as <-. unfold UniqueDeque.append.
          destruct (mem _ _); [destruct mt |]; reflexivity.
        * injection Hc as <-. unfold UniqueDeque.appendleft.
          destruct (mem _ _); [destruct mt |]; reflexivity.
        * injection Hc as <-. unfold UniqueDeque.extend.
          revert d0. induction l as [| y l IHl]; simpl; intros d0; [reflexivity |].
          rewrite IHl. unfold UniqueDeque.append.
          destruct (mem _ _); [destruct mt |]; reflexivity.
        * injection Hc as <-. unfold UniqueDeque.extendleft.
          revert d0. induction (rev l) as [| y l' IHl]; simpl; intros d0; [reflexivity |].
          rewrite IHl. unfold UniqueDeque.appendleft.
          destruct (mem _ _); [destruct mt |]; reflexivity.
        * unfold UniqueDeque.insert, UniqueDeque.super_insert in Hc.
          repeat match type of Hc with
                 | (if ?b then _ else _) = _ => destruct b
                 end; try discriminate; injection Hc as <-; reflexivity.
        * unfold UniqueDeque.popleft in Hc.
          destruct (UniqueDeque.items d0); [discriminate |]. simpl in Hc.
          injection Hc as <-. reflexivity.
        * unfold UniqueDeque.super_remove in Hc.
          destruct (mem _ _); [| discriminate]. injection Hc as <-. reflexivity.
      + now apply do_calls_Raise in Hrun. }
  destruct (Hgen calls _ (init_ok iterable maxlen maintain) Hrun) as [[Hn Hm] Hmax].
  split; [exact Hn |]. intros m ->. apply Hm. rewrite Hmax.
  unfold UniqueDeque.init. clear.
  assert (Hfold : forall l d0,
            UniqueDeque.maxlen (fold_left (fun d x => UniqueDeque.append d x maintain) l d0)
            = UniqueDeque.maxlen d0).
  { induction l as [| y l IHl]; simpl; intros d0; [reflexivity |].
    rewrite IHl. unfold UniqueDeque.append.
    destruct (mem _ _); [destruct maintain |]; reflexivity. }
  now rewrite Hfold.
Qed.

Lemma unique_deque_example :
  NoDup ["c"; "d"; "b"] /\
  forall m, Some 3 = Some m -> List.length ["c"; "d"; "b"] <= m.
Proof.
  apply (unique_deque_has_no_repetition ["a"; "b"; "a"; "c"] (Some 3) true
           [UniqueDeque.Append "a" false; UniqueDeque.Extendleft ["d"; "c"] false;
            UniqueDeque.Insert 2 "d" false; UniqueDeque.Insert 0 "c" false]
           {| UniqueDeque.items := ["c"; "d"; "b"]; UniqueDeque.maxlen := Some 3 |}).
  vm_compute. reflexivity.
Defined.

(** *** An unbounded deque *)

Lemma append_unbounded d x maintain :
  UniqueDeque.maxlen d = None ->
  UniqueDeque.maxlen (UniqueDeque.append d x maintain) = None /\
  UniqueDeque.items (UniqueDeque.append d x maintain)
  = if mem x (UniqueDeque.items d) then
      if maintain then UniqueDeque.items d
      else remove_first x (UniqueDeque.items d) ++ [x]
    else UniqueDeque.items d ++ [x].
Proof.
  intros Hmax. unfold UniqueDeque.append, UniqueDeque.super_append.
  destruct (mem x (UniqueDeque.items d)); [destruct maintain |]; simpl; rewrite Hmax; auto.
Qed.

Lemma appendleft_unbounded d x :
  UniqueDeque.maxlen d = None ->
  UniqueDeque.maxlen (UniqueDeque.appendleft d x false) = None /\
  UniqueDeque.items (UniqueDeque.appendleft d x false)
  = x :: remove_first x (UniqueDeque.items d).
Proof.
  intros Hmax. unfold UniqueDeque.appendleft, UniqueDeque.super_appendleft.
  destruct (mem x (UniqueDeque.items d)) eqn:Hx;
    cbn [UniqueDeque.items UniqueDeque.with_items UniqueDeque.maxlen]; rewrite Hmax.
  - auto.
  - split; [reflexivity |]. rewrite remove_first_absent; [reflexivity |].
    now apply mem_false.
Qed.

Lemma remove_first_app_r x (l l' : list string) :
  ~ In x l -> remove_first x (l ++ l') = l ++ remove_first x l'.
Proof.
  induction l as [| y r IH]; simpl; intros Hx; [reflexivity |].
  destruct (String.eqb y x) eqn:Hyx.
  - apply String.eqb_eq in Hyx. tauto.
  - f_equal. apply IH. tauto.
Qed.

Lemma mem_cons y x (r : list string) : mem y (x :: r) = String.eqb y x || mem y r.
Proof. reflexivity. Qed.

Lemma remove_first_filter x (r l : list string) :
  NoDup l ->
  remove_first x (filter (fun y => negb (mem y r)) l)
  = filter (fun y => negb (mem y (x :: r))) l.
Proof.
  induction 1 as [| z l Hz Hl IH]; [reflexivity |].
  cbn [filter]. rewrite (mem_cons z x r).
  destruct (String.eqb z x) eqn:Hzx.
  - apply String.eqb_eq in Hzx. subst z. cbn [orb negb].
    assert (Hrest : filter (fun y => negb (mem y r)) l
                    = filter (fun y => negb (mem y (x :: r))) l).
    { apply filter_ext_in. intros y Hy. rewrite (mem_cons y x r).
      replace (String.eqb y x) with false; [reflexivity |].
      symmetry. apply String.eqb_neq. intros ->. contradiction. }
    destruct (mem x r); cbn [negb].
    + rewrite <- Hrest. apply remove_first_absent.
      intros Hin. apply filter_In in Hin as [Hin _]. contradiction.
    + cbn [remove_first]. rewrite String.eqb_refl. exact Hrest.
  - cbn [orb]. destruct (mem z r); cbn [negb]; [exact IH |].
    cbn [remove_first]. rewrite Hzx. f_equal. exact IH.
Qed.

(** X2: [extendleft] of distinct items on an unbounded deque, as the
    compiler calls it to put a branch in front of the queue: the deque then
    starts with the items, in their order, followed by the items it had that
    are not among them. *)
Theorem extendleft_puts_the_items_first (d : UniqueDeque.t) (iterable : list string) :
  UniqueDeque.maxlen d = None ->
  NoDup (UniqueDeque.items d) ->
  NoDup iterable ->
  UniqueDeque.items (UniqueDeque.extendleft d iterable false)
  = iterable ++ filter (fun y => negb (mem y iterable)) (UniqueDeque.items d).
Proof.
  intros Hmax Hd. unfold UniqueDeque.extendleft.
  induction iterable as [| x r IH]; intros Hr.
  - simpl. clear. induction (UniqueDeque.items d) as [| y l IHl]; simpl; [reflexivity |].
    now rewrite <- IHl.
  - inversion Hr as [| ? ? Hx Hr']; subst.
    cbn [rev]. rewrite fold_left_app. cbn [fold_left].
    set (d1 := fold_left (fun d x => UniqueDeque.appendleft d x false) (rev r) d) in *.
    assert (Hmax1 : UniqueDeque.maxlen d1 = None).
    { unfold d1. clear - Hmax. revert d Hmax.
      induction (rev r) as [| y l IHl]; simpl; intros d Hmax; [exact Hmax |].
      apply IHl. now apply appendleft_unbounded. }
    destruct (appendleft_unbounded d1 x Hmax1) as [_ ->].
    rewrite (IH Hr'), (remove_first_app_r _ _ _ Hx), (remove_first_filter _ _ _ Hd).
    reflexivity.
Qed.

Lemma extendleft_example :
  UniqueDeque.items
    (UniqueDeque.extendleft {| UniqueDeque.items := ["a"; "b"; "c"; "d"];
                               UniqueDeque.maxlen := None |} ["c"; "x"; "a"] false)
  = ["c"; "x"; "a"]
    ++ filter (fun y => negb (mem y ["c"; "x"; "a"])) ["a"; "b"; "c"; "d"].
Proof.
  apply (extendleft_puts_the_items_first
           {| UniqueDeque.items := ["a"; "b"; "c"; "d"]; UniqueDeque.maxlen := None |}
           ["c"; "x"; "a"]).
  - reflexivity.
  - nodup_list.
  - nodup_list.
Defined.

Lemma extend_In maintain l : forall d,
  UniqueDeque.maxlen d = None ->
  forall x, In x (UniqueDeque.items (fold_left (fun d x => UniqueDeque.append d x maintain) l d))
            <-> In x (UniqueDeque.items d) \/ In x l.
Proof.
  induction l as [| y r IH]; simpl; intros d Hmax x; [tauto |].
  destruct (append_unbounded d y maintain Hmax) as [Hmax' Hitems].
  rewrite (IH _ Hmax'), Hitems.
  destruct (mem y (UniqueDeque.items d)) eqn:Hy.
  - apply mem_In in Hy. destruct maintain.
    + split; [tauto |]. intros [H | [<- | H]]; auto.
    + rewrite in_app_iff. simpl. split.
      * intros [[H | [<- | []]] | H]; auto. left. now apply remove_first_In in H.
      * intros [H | [<- | H]]; auto.
        destruct (string_dec x y) as [-> | Hne]; [auto |].
        left. left. now apply remove_first_other.
  - rewrite in_app_iff. simpl. tauto.
Qed.

Lemma extend_distinct maintain l : forall d,
  UniqueDeque.maxlen d = None ->
  NoDup l -> (forall x, In x l -> ~ In x (UniqueDeque.items d)) ->
  UniqueDeque.items (fold_left (fun d x => UniqueDeque.append d x maintain) l d)
  = UniqueDeque.items d ++ l.
Proof.
  induction l as [| y r IH]; simpl; intros d Hmax Hl Hnew; [now rewrite app_nil_r |].
  inversion Hl as [| ? ? Hy Hr]; subst.
  destruct (append_unbounded d y maintain Hmax) as [Hmax' Hitems].
  assert (Hmem : mem y (UniqueDeque.items d) = false).
  { apply mem_false. apply Hnew. now left. }
  rewrite Hmem in Hitems.
  rewrite (IH _ Hmax' Hr), Hitems, <- app_assoc; [reflexivity |].
  intros x Hx. rewrite Hitems, in_app_iff. simpl.
  intros [H | [<- | []]]; [| contradiction].
  apply (Hnew x); auto.
Qed.

(** X3: an unbounded [UniqueDeque] made from an iterable holds the items of
    the iterable and nothing else, and it is the iterable itself, in its
    order, when that has no repetition. *)
Theorem unique_deque_of_an_iterable (iterable : list string) (maintain : bool) :
  (forall x, In x (UniqueDeque.items (UniqueDeque.init iterable None maintain))
             <-> In x iterable) /\
  (NoDup iterable ->
   UniqueDeque.items (UniqueDeque.init iterable None maintain) = iterable).
Proof.
  unfold UniqueDeque.init. split.
  - intros x. rewrite extend_In by reflexivity. simpl. tauto.
  - intros Hl. rewrite extend_distinct; auto.
Qed.

Lemma In_firstn_incl (k : nat) (l : list string) y : In y (firstn k l) -> In y l.
Proof.
  intros Hy. rewrite <- (firstn_skipn k l). apply in_or_app. now left.
Qed.

Lemma In_skipn_incl (k : nat) (l : list string) y : In y (skipn k l) -> In y l.
Proof.
  intros Hy. rewrite <- (firstn_skipn k l). apply in_or_app. now right.
Qed.

Lemma super_insert_incl d i x d' :
  UniqueDeque.super_insert d i x = Ok d' ->
  incl (UniqueDeque.items d') (x :: UniqueDeque.items d).
Proof.
  unfold UniqueDeque.super_insert.
  destruct (negb (UniqueDeque.fits_ssize_t i)); [discriminate |].
  destruct (UniqueDeque.full d); [discriminate |].
  destruct (_ <=? i)%Z.
  { intros [= <-]. unfold UniqueDeque.super_append. simpl.
    assert (Hall : incl (UniqueDeque.items d ++ [x]) (x :: UniqueDeque.items d)).
    { intros y Hy. apply in_app_or in Hy as [Hy | [<- | []]]; simpl; auto. }
    destruct (UniqueDeque.maxlen d) as [m |]; [| exact Hall].
    destruct (Nat.ltb _ _); [| exact Hall].
    intros y Hy. apply Hall. destruct (UniqueDeque.items d ++ [x]); simpl in *; auto. }
  destruct (_ || _).
  { intros [= <-]. unfold UniqueDeque.super_appendleft.
    cbn [UniqueDeque.items UniqueDeque.with_items].
    destruct (UniqueDeque.maxlen d) as [m |]; [| apply incl_refl].
    destruct (Nat.ltb _ _); [| apply incl_refl].
    intros y Hy. now apply removelast_incl. }
  intros [= <-]. simpl. intros y Hy.
  apply in_app_or in Hy as [Hy | [<- | Hy]].
  - right. eapply (In_firstn_incl). exact Hy.
  - now left.
  - right. eapply (In_skipn_incl). exact Hy.
Qed.

(** X4: [insert] never adds an item.  When it returns, an item that was not
    in the deque has not been inserted, and an item that stood after the
    position asked for has been removed and not put back.  It raises only
    for an item of the deque that stands before position [i], with
    [maintain] false, when [i - 1] is no [Py_ssize_t]: then [deque.insert]
    raises [OverflowError], after the item was removed.  For every index up
    to [PY_SSIZE_T_MAX + 1] it returns. *)
Theorem insert_never_adds_an_item
    (d : UniqueDeque.t) (i : Z) (x : string) (maintain : bool) :
  deque_ok d ->
  (forall d',
     UniqueDeque.insert d i x maintain = Ok d' ->
     incl (UniqueDeque.items d') (UniqueDeque.items d) /\
     (~ In x (UniqueDeque.items d) -> d' = d) /\
     (maintain = false -> In x (UniqueDeque.items d) ->
      (i < Z.of_nat (UniqueDeque.index x (UniqueDeque.items d)))%Z ->
      ~ In x (UniqueDeque.items d'))) /\
  (forall e,
     UniqueDeque.insert d i x maintain = Raise e ->
     e = OverflowError /\ maintain = false /\ In x (UniqueDeque.items d) /\
     (Z.of_nat (UniqueDeque.index x (UniqueDeque.items d)) < i)%Z /\
     (UniqueDeque.PY_SSIZE_T_MAX + 1 < i)%Z) /\
  ((i <= UniqueDeque.PY_SSIZE_T_MAX + 1)%Z ->
   exists d', UniqueDeque.insert d i x maintain = Ok d').
Proof.
  intros Hd. unfold UniqueDeque.insert.
  destruct (mem x (UniqueDeque.items d)) eqn:Hx.
  2: { apply mem_false in Hx. split; [| split].
       - intros d' [= <-]. repeat split; auto using incl_refl; tauto.
       - discriminate.
       - eauto. }
  apply mem_In in Hx.
  destruct (i =? _)%Z eqn:Hi.
  { apply Z.eqb_eq in Hi. split; [| split].
    - intros d' [= <-]. repeat split; auto using incl_refl; try tauto; intros; lia.
    - discriminate.
    - eauto. }
  destruct maintain.
  { split; [| split].
    - intros d' [= <-]. repeat split; auto using incl_refl; try tauto; discriminate.
    - discriminate.
    - eauto. }
  destruct (removed_ok d x Hd) as [Hok Hgone].
  set (d1 := UniqueDeque.with_items d (remove_first x (UniqueDeque.items d))) in *.
  assert (Hsub : incl (x :: UniqueDeque.items d1) (UniqueDeque.items d)).
  { intros y [<- | Hy]; [exact Hx |]. now apply remove_first_In in Hy. }
  assert (Hroom : UniqueDeque.full d1 = false).
  { apply full_false; [exact Hok |]. intros m Hmax. destruct Hd as [_ Hm].
    specialize (Hm m Hmax). pose proof (remove_first_length x _ Hx). simpl. lia. }
  assert (Hreturns : forall j, UniqueDeque.fits_ssize_t j = true ->
                               exists d', UniqueDeque.super_insert d1 j x = Ok d').
  { intros j Hj. unfold UniqueDeque.super_insert. rewrite Hj, Hroom. cbn [negb].
    destruct (_ <=? j)%Z; [eauto |]. destruct (_ || _); eauto. }
  assert (Hraises : forall j e, UniqueDeque.super_insert d1 j x = Raise e ->
                                e = OverflowError /\ UniqueDeque.fits_ssize_t j = false).
  { intros j e. unfold UniqueDeque.super_insert. rewrite Hroom.
    destruct (UniqueDeque.fits_ssize_t j); cbn [negb].
    - destruct (_ <=? j)%Z; [discriminate |]. destruct (_ || _); discriminate.
    - now intros [= <-]. }
  apply Z.eqb_neq in Hi.
  destruct (_ <? i)%Z eqn:Hlt.
  { apply Z.ltb_lt in Hlt.
    assert (Hfits : UniqueDeque.fits_ssize_t (i - 1) = true
                    <-> (i <= UniqueDeque.PY_SSIZE_T_MAX + 1)%Z).
    { unfold UniqueDeque.fits_ssize_t, UniqueDeque.PY_SSIZE_T_MAX.
      rewrite andb_true_iff, !Z.leb_le. lia. }
    split; [| split].
    - intros d' Hd'. split; [| split; [tauto | intros; lia]].
      intros y Hy. apply Hsub. now apply (super_insert_incl _ _ _ _ Hd').
    - intros e He. destruct (Hraises _ _ He) as [-> Hno].
      repeat split; auto.
      destruct (Z_le_gt_dec i (UniqueDeque.PY_SSIZE_T_MAX + 1)) as [Hle | Hgt]; [| lia].
      apply Hfits in Hle. congruence.
    - intros Hle. apply Hreturns. now apply Hfits. }
  destruct (_ =? i)%Z eqn:Heq; [apply Z.eqb_eq in Heq; congruence |].
  split; [| split].
  - intros d' [= <-]. split; [| split; [tauto | auto]].
    intros y Hy. apply Hsub. now right.
  - discriminate.
  - eauto.
Qed.

Lemma insert_removes_example :
  UniqueDeque.insert {| UniqueDeque.items := ["c"; "d"; "b"; "a"];
                        UniqueDeque.maxlen := None |} 0 "b" false
  = Ok {| UniqueDeque.items := ["c"; "d"; "a"]; UniqueDeque.maxlen := None |} /\
  ~ In "b" ["c"; "d"; "a"].
Proof.
  split; [reflexivity |].
  destruct (insert_never_adds_an_item
              {| UniqueDeque.items := ["c"; "d"; "b"; "a"]; UniqueDeque.maxlen := None |}
              0 "b" false) as [Hreturned _].
  { split; simpl; [nodup_list | discriminate]. }
  destruct (Hreturned _ eq_refl) as [_ [_ Hgone]].
  apply Hgone; [reflexivity | simpl; tauto | simpl; lia].
Defined.

(** ** More on the parse tree *)

Lemma frames_positive (S : list Query) : 1 <= frames S.
Proof. destruct S; cbn; lia. Qed.

Lemma frames_flat (l : list string) : frames (map Node l) = Datatypes.S (List.length l).
Proof.
  induction l as [| n r IH]; [reflexivity |].
  change (frames (map Node (n :: r)))
    with (Datatypes.S (Nat.max 0 (frames (map Node r)))).
  rewrite IH. reflexivity.
Qed.

Lemma flatten_flat (l : list string) : flatten (map Node l) = l.
Proof.
  unfold flatten. induction l as [| n r IH]; simpl; [reflexivity |]. now rewrite IH.
Qed.

(** X5: [flatten] returns the leaves of the nested list, from left to
    right, when the interpreter may still enter the frames the list needs,
    and raises [RecursionError] when it may not.  A list that has no nested
    list needs one frame more than it has items: it is given back unchanged
    when it is shorter than the frames left, and raises otherwise. *)
Theorem flatten_lists_the_leaves (depth : nat) :
  (forall S : list Query,
     flatten_within depth S
     = if Nat.leb (frames S) depth then Ok (flatten S) else Raise RecursionError) /\
  (forall l : list string,
     flatten_within depth (map Node l)
     = if Nat.ltb (List.length l) depth then Ok l else Raise RecursionError).
Proof.
  assert (Hall : forall depth (S : list Query),
            flatten_within depth S
            = if Nat.leb (frames S) depth then Ok (flatten S) else Raise RecursionError).
  { clear depth. induction depth as [| depth IH]; intros S.
    - pose proof (frames_positive S) as Hp.
      replace (Nat.leb (frames S) 0) with false by (symmetry; apply Nat.leb_gt; lia).
      reflexivity.
    - destruct S as [| [n | l] r].
      + reflexivity.
      + cbn [flatten_within]. rewrite (IH r).
        change (frames (Node n :: r)) with (Datatypes.S (Nat.max 0 (frames r))).
        cbn [Nat.max Nat.leb].
        destruct (Nat.leb (frames r) depth); reflexivity.
      + cbn [flatten_within]. rewrite (IH l), (IH r).
        change (frames (Nested l :: r))
          with (Datatypes.S (Nat.max (frames l) (frames r))).
        change (flatten (Nested l :: r)) with (flatten l ++ flatten r).
        cbn [Nat.leb].
        destruct (Nat.leb (frames l) depth) eqn:Hl;
          destruct (Nat.leb (frames r) depth) eqn:Hr; cbn [bind].
        * replace (Nat.leb (Nat.max (frames l) (frames r)) depth) with true;
            [reflexivity |].
          symmetry. apply Nat.leb_le. apply Nat.leb_le in Hl, Hr. lia.
        * replace (Nat.leb (Nat.max (frames l) (frames r)) depth) with false;
            [reflexivity |].
          symmetry. apply Nat.leb_gt. apply Nat.leb_gt in Hr. lia.
        * replace (Nat.leb (Nat.max (frames l) (frames r)) depth) with false;
            [reflexivity |].
          symmetry. apply Nat.leb_gt. apply Nat.leb_gt in Hl. lia.
        * replace (Nat.leb (Nat.max (frames l) (frames r)) depth) with false;
            [reflexivity |].
          symmetry. apply Nat.leb_gt. apply Nat.leb_gt in Hl. lia. }
  split; [apply Hall |].
  intros l. rewrite Hall, frames_flat, flatten_flat. reflexivity.
Qed.

Lemma intersection_spec sets l :
  intersection sets = Ok l ->
  forall x, In x l <-> (forall s, In s sets -> In x s).
Proof.
  intros Hi x. split; [intros Hx; now apply (intersection_In sets l x Hi) |].
  unfold intersection in Hi. destruct sets as [| s0 r]; [discriminate |].
  injection Hi as <-. intros Hall.
  assert (Hgen : forall r acc, In x acc -> (forall s, In s r -> In x s) ->
            In x (fold_left (fun acc t => filter (fun b => mem b t) acc) r acc)).
  { clear. induction r as [| t r IH]; simpl; intros acc Hacc Hr; [exact Hacc |].
    apply IH; [| auto]. apply filter_In. split; [exact Hacc |].
    apply mem_In. auto. }
  apply Hgen.
  - apply nodup_In. apply Hall. now left.
  - intros s Hs. apply Hall. now right.
Qed.

Lemma farthest_max distances best :
  farthest distances = Ok best -> forall y, In y distances -> snd y <= snd best.
Proof.
  unfold farthest. destruct distances as [| x r]; [discriminate |].
  intros [= <-].
  assert (Hgen : forall (r : list (string * nat)) (b : string * nat),
            snd b <= snd (fold_left
              (fun best y : string * nat => if Nat.ltb (snd best) (snd y) then y else best)
              r b) /\
            forall y, In y r ->
              snd y <= snd (fold_left
                (fun best y : string * nat => if Nat.ltb (snd best) (snd y) then y else best)
                r b)).
  { clear. induction r as [| z r IH]; simpl; intros b; [split; [lia | intros y []] |].
    destruct (IH (if Nat.ltb (snd b) (snd z) then z else b)) as [Hb Hr].
    destruct (Nat.ltb (snd b) (snd z)) eqn:Hlt.
    - apply Nat.ltb_lt in Hlt. split; [lia |]. intros y [<- | Hy]; auto.
    - apply Nat.ltb_ge in Hlt. split; [exact Hb |]. intros y [<- | Hy]; [lia | auto]. }
  destruct (Hgen r x) as [Hx Hr]. intros y [<- | Hy]; auto.
Qed.

Lemma Forall2_In_l {T U : Type} (R : T -> U -> Prop) l l' x :
  Forall2 R l l' -> In x l -> exists y, In y l' /\ R x y.
Proof.
  induction 1 as [| x' y l l' Hxy HF IH]; simpl; [intros [] |].
  intros [-> | Hin]; [eauto |]. destruct (IH Hin) as [y' [Hy' HR]]. eauto.
Qed.

(** X6: [shared_hierarchy_branch] returns a hierarchy branch that all the
    parents of the alignment have, and none that they all have is farther
    from the alignment in the graph. *)
Theorem shared_hierarchy_branch_is_the_farthest
    (parents find_hierarchy_branches : string -> list string)
    (graph : TreeGraph) (branch h : string) :
  shared_hierarchy_branch parents find_hierarchy_branches graph branch = Ok h ->
  (forall p, In p (parents branch) -> In h (find_hierarchy_branches p)) /\
  exists dh,
    shortest_path_length graph h branch = Ok dh /\
    forall b, (forall p, In p (parents branch) -> In b (find_hierarchy_branches p)) ->
      exists db, shortest_path_length graph b branch = Ok db /\ db <= dh.
Proof.
  intros Hs. pose proof (shared_hierarchy_branch_spec _ _ _ _ _ Hs) as [_ Hcommon].
  split; [exact Hcommon |].
  unfold shared_hierarchy_branch in Hs.
  apply bind_Ok in Hs as [branches [Hb Hs]].
  apply bind_Ok in Hs as [distances [Hd Hs]].
  apply bind_Ok in Hs as [best [Hbest Hs]].
  injection Hs as <-. apply mapM_Forall2 in Hd.
  destruct (Forall2_In_r _ _ _ _ Hd (farthest_In _ _ Hbest)) as [b0 [Hin0 Hb0]].
  apply bind_Ok in Hb0 as [d0 [Hl0 Hb0]]. injection Hb0 as <-. cbn [fst].
  exists d0. split; [exact Hl0 |].
  intros b Hall.
  assert (Hbin : In b branches).
  { apply (intersection_spec _ _ Hb). intros s Hs.
    apply in_map_iff in Hs as [p [<- Hp]]. auto. }
  destruct (Forall2_In_l _ _ _ _ Hd Hbin) as [y [Hy Hby]].
  apply bind_Ok in Hby as [db [Hdb Hby]]. injection Hby as <-.
  exists db. split; [exact Hdb |].
  apply (farthest_max _ _ Hbest) in Hy. exact Hy.
Qed.

Lemma parse_todo_plain (action_branches : string -> list string)
    (action_reference : string -> string) parse_sub (g : TreeGraph) :
  forall fuel todo query,
    List.length todo <= fuel ->
    parse_todo action_branches action_reference parse_sub g [] fuel todo query
    = Ok (query ++ map Node todo).
Proof.
  induction fuel as [| fuel IH]; intros todo query Hlen.
  - destruct todo; [| simpl in Hlen; lia]. simpl. now rewrite app_nil_r.
  - destruct todo as [| node todo]; [simpl; now rewrite app_nil_r |].
    cbn [parse_todo nx.lookup]. rewrite IH by (simpl in Hlen; lia).
    rewrite <- app_assoc. reflexivity.
Qed.

(** X7: a graph without alignment is parsed to its topological order, as
    plain nodes. *)
Theorem parse_without_alignment
    (is_alignment : string -> bool)
    (action_branches : string -> list string)
    (action_reference : string -> string)
    (parents find_hierarchy_branches : string -> list string)
    (fuel : nat) (graph : TreeGraph) (order : list string) :
  (forall n, In n (nx.nodes graph) -> is_alignment n = false) ->
  nx.topological_sort graph = Ok order ->
  parse is_alignment action_branches action_reference parents find_hierarchy_branches
        (S fuel) graph = Ok (map Node order).
Proof.
  intros Hnone Ht. cbn [parse].
  rewrite (filter_none is_alignment (nx.nodes graph) Hnone).
  cbn [rev collect_shared_aligns fold_left bind]. unfold collect_shared_aligns.
  cbn [fold_left bind]. rewrite Ht. cbn [bind].
  now rewrite parse_todo_plain.
Qed.

Lemma collect_raises (parents find_hierarchy_branches : string -> list string)
    (g : TreeGraph) a :
  (forall h, shared_hierarchy_branch parents find_hierarchy_branches g a <> Ok h) ->
  forall aligns acc, In a aligns ->
    forall sa,
      fold_left
        (fun acc align =>
           shared_aligns <- acc ;;
           key <- shared_hierarchy_branch parents find_hierarchy_branches g align ;;
           Ok (append_to key align shared_aligns))
        aligns acc <> Ok sa.
Proof.
  intros Hbad. induction aligns as [| x r IH]; intros acc Hin sa; [destruct Hin |].
  cbn [fold_left]. destruct Hin as [-> | Hin]; [| now apply IH].
  destruct acc as [d | e]; cbn [bind].
  - destruct (shared_hierarchy_branch parents find_hierarchy_branches g a) as [h | e] eqn:Hs.
    + now destruct (Hbad h).
    + cbn [bind]. intros Hf.
      now apply (collect_shared_aligns_Raise parents find_hierarchy_branches) in Hf.
  - intros Hf. now apply (collect_shared_aligns_Raise parents find_hierarchy_branches) in Hf.
Qed.

(** X8: [parse] returns no query for a graph with an alignment that has no
    parent, or whose parents have no hierarchy branch in common: the
    reduction or the maximum of nothing raises. *)
Theorem parse_raises_without_shared_branch
    (is_alignment : string -> bool)
    (action_branches : string -> list string)
    (action_reference : string -> string)
    (parents find_hierarchy_branches : string -> list string)
    (fuel : nat) (graph : TreeGraph) (a : string) (query : list Query) :
  In a (nx.nodes graph) -> is_alignment a = true ->
  parents a = [] \/
  (forall b, ~ forall p, In p (parents a) -> In b (find_hierarchy_branches p)) ->
  parse is_alignment action_branches action_reference parents find_hierarchy_branches
        fuel graph <> Ok query.
Proof.
  intros Hin His Hnone Hp.
  destruct fuel as [| fuel]; [discriminate |].
  cbn [parse] in Hp. apply bind_Ok in Hp as [sa [Hsa _]].
  revert Hsa. apply collect_raises with (a := a).
  - intros h Hs. destruct Hnone as [Hno | Hnone].
    + unfold shared_hierarchy_branch in Hs. rewrite Hno in Hs. discriminate.
    + apply shared_hierarchy_branch_spec in Hs as [_ Hcommon]. now apply (Hnone h).
  - apply -> in_rev. apply filter_In. auto.
Qed.

Lemma parse_plain_example :
  parse (fun _ => false) example_branches example_reference example_parents
        example_hierarchy_branches 1 example_tree
  = Ok (map Node
          ["ob"; "target"; "run"; "exposure"; "ob_targets"; "ob_runs"; "ob_exposures";
           "any_ob_targets"; "any_ob_runs"; "any_ob_exposures"; "align0"; "or1";
           "align1"; "or2"; "final"]).
Proof.
  apply (parse_without_alignment (fun _ => false) example_branches example_reference
           example_parents example_hierarchy_branches 0 example_tree).
  - reflexivity.
  - vm_compute. reflexivity.
Defined.

Lemma shared_hierarchy_branch_example :
  (forall p, In p (example_parents "align1") -> In "ob" (example_hierarchy_branches p)) /\
  exists dh,
    shortest_path_length example_tree "ob" "align1" = Ok dh /\
    forall b, (forall p, In p (example_parents "align1") ->
                         In b (example_hierarchy_branches p)) ->
      exists db, shortest_path_length example_tree b "align1" = Ok db /\ db <= dh.
Proof.
  apply (shared_hierarchy_branch_is_the_farthest example_parents
           example_hierarchy_branches example_tree "align1" "ob").
  vm_compute. reflexivity.
Defined.

Lemma parse_raises_example :
  parse example_is_alignment example_branches example_reference (fun _ => [])
        example_hierarchy_branches 3 example_tree <> Ok example_query.
Proof.
  apply (parse_raises_without_shared_branch example_is_alignment example_branches
           example_reference (fun _ => []) example_hierarchy_branches 3 example_tree
           "align0" example_query).
  - apply (proj1 (mem_In _ _)). vm_compute. reflexivity.
  - reflexivity.
  - left. reflexivity.
Defined.

(** ** More on the builder *)

(** X9: after builder calls that all return and that name as dependencies
    only nodes the graph already has, the node at position [pos] of the node
    dictionary has the identity [pos], its label starts with that number,
    and no two nodes have the same label. *)
Theorem builder_numbers_the_nodes (calls : list BuilderCall) (g : Graph) :
  builder_calls (G QueryGraph_init) calls = Ok g ->
  dependencies_known (G QueryGraph_init) calls = true ->
  NoDup (nx.nodes g) /\
  forall pos n, nth_error (nx.nodes g) pos = Some n ->
                identity g n = Some pos /\ has_id n pos.
Proof.
  intros Hcalls Hknown.
  pose proof (builder_calls_built calls (G QueryGraph_init) g built_init Hcalls Hknown)
    as Hb.
  destruct (built_invariant g Hb) as [Hnum _].
  assert (Hpos : forall pos n, nth_error (nx.nodes g) pos = Some n ->
            exists d, nth_error (nx._node g) pos = Some (n, Some d) /\
                      d.(i_) = pos /\ has_id n pos).
  { intros pos n Hnth. unfold nx.nodes in Hnth.
    rewrite nth_error_map in Hnth.
    destruct (nth_error (nx._node g) pos) as [[k a] |] eqn:Hk; [| discriminate].
    simpl in Hnth. injection Hnth as ->.
    destruct (Hnum _ _ _ Hk) as [d [-> [Hi Hid]]]. eauto. }
  assert (Hnodup : NoDup (nx.nodes g)).
  { apply NoDup_nth_error. intros i j Hi Heq.
    destruct (nth_error (nx.nodes g) i) as [n |] eqn:Hn;
      [| apply nth_error_None in Hn; lia].
    symmetry in Heq.
    destruct (Hpos _ _ Hn) as [_ [_ [_ Hidi]]].
    destruct (Hpos _ _ Heq) as [_ [_ [_ Hidj]]].
    exact (has_id_inj Hidi Hidj). }
  split; [exact Hnodup |].
  intros pos n Hnth. destruct (Hpos _ _ Hnth) as [d [Hk [Hi Hid]]].
  split; [| exact Hid].
  unfold identity, nx.node_attrs.
  assert (Hin : In n (nx.nodes g)) by (eapply nth_error_In; exact Hnth).
  destruct (lookup_In _ _ Hin) as [a Ha].
  destruct (lookup_nth _ _ Ha) as [pos' Hpos'].
  destruct (Hnum _ _ _ Hpos') as [d' [-> [Hi' Hid']]].
  pose proof (has_id_inj Hid Hid') as Heq. rewrite <- Heq in Hpos'.
  rewrite Ha. rewrite Hk in Hpos'. injection Hpos' as <-. now rewrite Hi.
Qed.

Lemma builder_numbers_the_scenario :
  NoDup (nx.nodes (fst scenario)) /\
  forall pos n, nth_error (nx.nodes (fst scenario)) pos = Some n ->
                identity (fst scenario) n = Some pos /\ has_id n pos.
Proof.
  apply (builder_numbers_the_nodes scenario_calls (fst scenario));
    vm_compute; reflexivity.
Defined.

(** X10: [compare_two_dags] only tests whether the two branches have a node
    in common: it answers [+1] when they do and [0] when they do not, the
    same for both orders of its arguments, and never [-1]. *)
Theorem compare_two_dags_is_symmetric (dag1 dag2 : list string) :
  compare_two_dags dag1 dag2 = compare_two_dags dag2 dag1 /\
  ((exists n, In n dag1 /\ In n dag2) /\ compare_two_dags dag1 dag2 = 1%Z \/
   (forall n, In n dag1 -> ~ In n dag2) /\ compare_two_dags dag1 dag2 = 0%Z).
Proof.
  assert (Hcases : forall a b,
            (exists n, In n a /\ In n b) /\ compare_two_dags a b = 1%Z \/
            (forall n, In n a -> ~ In n b) /\ compare_two_dags a b = 0%Z).
  { intros a b. unfold compare_two_dags.
    destruct (existsb (fun n => mem n b) a) eqn:H1.
    - left. apply existsb_exists in H1 as [n [Ha Hb]]. apply mem_In in Hb. eauto.
    - right.
      assert (Hdis : forall n, In n a -> ~ In n b).
      { intros n Ha Hb.
        assert (existsb (fun n => mem n b) a = true); [| congruence].
        apply existsb_exists. exists n. split; [exact Ha | now apply mem_In]. }
      split; [exact Hdis |].
      destruct (existsb (fun n => mem n a) b) eqn:H2; [| reflexivity].
      apply existsb_exists in H2 as [n [Hb Ha]]. apply mem_In in Ha.
      now destruct (Hdis n Ha). }
  split; [| apply Hcases].
  destruct (Hcases dag1 dag2) as [[[n [H1 H2]] ->] | [Hdis ->]];
    destruct (Hcases dag2 dag1) as [[[m [H3 H4]] ->] | [Hdis' ->]]; try reflexivity.
  - now destruct (Hdis' n H2).
  - now destruct (Hdis m H4).
Qed.

(** ** Views are not refreshed *)

Lemma lookup_edge_filter_key (p : string * string -> bool) (k : string * string)
    (adj : list ((string * string) * EdgeData)) :
  p k = true ->
  nx.lookup_edge k (filter (fun kv => p (fst kv)) adj) = nx.lookup_edge k adj.
Proof.
  intros Hp. induction adj as [| [k' d] r IH]; [reflexivity |].
  cbn [filter fst]. destruct (pair_eqb k' k) eqn:Hk.
  - apply pair_eqb_eq in Hk. subst k'. rewrite Hp. cbn [nx.lookup_edge].
    now rewrite pair_eqb_refl.
  - cbn [nx.lookup_edge]. rewrite Hk.
    destruct (p k'); [| exact IH]. cbn [nx.lookup_edge]. now rewrite Hk.
Qed.

Lemma restricted_view_edge_attrs (g : Graph) he u v :
  mem_pair (u, v) he = false ->
  nx.edge_attrs (nx.restricted_view g [] he) u v = nx.edge_attrs g u v.
Proof.
  intros Hhe. unfold nx.edge_attrs, nx.restricted_view, nx.subgraph_view.
  cbn [nx._adj].
  rewrite <- (lookup_edge_filter_key (fun k => negb (mem_pair k he)) (u, v) (nx._adj g))
    by (now rewrite Hhe).
  f_equal. apply filter_ext. intros [[a b] d]. reflexivity.
Qed.

Lemma not_listed_edge (g : Graph) (f : string * string -> bool) u v :
  nx.has_edge g u v = false -> mem_pair (u, v) (filter f (nx.edges g)) = false.
Proof.
  intros Hno. destruct (mem_pair (u, v) (filter f (nx.edges g))) eqn:Hm; [| reflexivity].
  apply mem_pair_In in Hm. apply filter_In in Hm as [Hin _].
  apply edges_In in Hin as [_ Hs]. apply succ_In in Hs.
  apply has_edge_In in Hs. congruence.
Qed.

(** X11: the two views of a frame list the edges they hide when they are
    made.  An edge that is added to the graph afterwards is in the
    dependency view and in the view of the "wrt" edges alike, whatever its
    type. *)
Theorem views_show_edges_added_later
    (original_graph original_graph' : Graph) (G dag backwards : View)
    (g g' : Graph) (u v : string) (d : EdgeData) :
  dag_and_backwards original_graph G = Ok (dag, backwards) ->
  read G original_graph = Ok g ->
  nx.has_edge g u v = false ->
  read G original_graph' = Ok g' ->
  nx.edge_attrs g' u v = Some d ->
  (exists gd, read dag original_graph' = Ok gd /\ nx.edge_attrs gd u v = Some d) /\
  (exists gb, read backwards original_graph' = Ok gb /\ nx.edge_attrs gb u v = Some d).
Proof.
  intros Hviews Hg Hno Hg' Hd.
  apply dag_and_backwards_inv in Hviews as [g0 [Hg0 [-> ->]]].
  rewrite Hg in Hg0. injection Hg0 as <-.
  split; cbn [read]; rewrite Hg'; cbn [bind]; eexists; (split; [reflexivity |]);
    rewrite restricted_view_edge_attrs; auto using not_listed_edge.
Qed.

Lemma views_show_edges_example :
  (exists gd, read (fst (frame_views (fst chain) whole)) chain_closed_back = Ok gd /\
              nx.edge_attrs gd (snd chain) data_label = Some a_wrt_edge) /\
  (exists gb, read (snd (frame_views (fst chain) whole)) chain_closed_back = Ok gb /\
              nx.edge_attrs gb (snd chain) data_label = Some a_wrt_edge).
Proof.
  apply (views_show_edges_added_later (fst chain) chain_closed_back whole
           (fst (frame_views (fst chain) whole)) (snd (frame_views (fst chain) whole))
           (fst chain) chain_closed_back (snd chain) data_label a_wrt_edge).
  - vm_compute. reflexivity.
  - vm_compute. reflexivity.
  - vm_compute. reflexivity.
  - vm_compute. reflexivity.
  - vm_compute. reflexivity.
Defined.

(** ** Edges without a type *)

Lemma update_nothing (d : EdgeData) : update d no_edge_data = d.
Proof. destruct d as [t l o s]. reflexivity. Qed.

Lemma update_edge_no_data e (adj : list ((string * string) * EdgeData)) :
  nx.update_edge e no_edge_data adj = adj \/
  nx.update_edge e no_edge_data adj = adj ++ [(e, no_edge_data)].
Proof.
  induction adj as [| [k v] r IH]; cbn [nx.update_edge].
  - right. reflexivity.
  - destruct (pair_eqb k e).
    + left. now rewrite update_nothing.
    + destruct IH as [-> | ->]; [left | right]; reflexivity.
Qed.

Lemma update_node_keeps n a (d : list (string * option NodeData)) k :
  In k (map fst d) -> In k (map fst (nx.update_node n a d)).
Proof.
  induction d as [| [k' v] r IH]; cbn [nx.update_node map fst]; [intros [] |].
  destruct (String.eqb k' n); cbn [map fst]; intros [-> | Hin];
    first [now left | right; auto].
Qed.

Lemma add_edge_keeps_nodes (g : Graph) u v a n :
  In n (nx.nodes g) -> In n (nx.nodes (nx.add_edge g u v a)).
Proof.
  intros Hn. unfold nx.add_edge, nx.nodes. cbn [nx._node].
  assert (Hstep : forall (gx : Graph) w,
            In n (nx.nodes gx) ->
            In n (nx.nodes (if nx.has_node gx w then gx else nx.add_node gx w no_attrs))).
  { intros gx w Hin. destruct (nx.has_node gx w); [exact Hin |].
    unfold nx.add_node, nx.nodes. cbn [nx._node]. now apply update_node_keeps. }
  apply (Hstep _ v). now apply Hstep.
Qed.

Lemma without_type_edge_attrs (g : Graph) t u v :
  edge_type g u v <> t ->
  nx.edge_attrs (without_type g t) u v = nx.edge_attrs g u v.
Proof.
  intros Hne. unfold nx.edge_attrs, without_type, nx.subgraph_view. cbn [nx._adj].
  rewrite <- (lookup_edge_filter_key
                (fun k => negb (String.eqb (edge_type g (fst k) (snd k)) t)) (u, v)
                (nx._adj g)).
  - f_equal. apply filter_ext. intros [[a b] d]. reflexivity.
  - cbn [fst snd]. apply negb_true_iff. now apply String.eqb_neq.
Qed.

(** At a node whose first incoming edge is typed and not an unwind, and
    whose second has no type, with no "wrt" edge coming in. *)
Lemma get_branches_at_untyped_in_edge (g : Graph) A n parent dep Eop B :
  In n (nx.nodes g) ->
  nx._adj g = A ++ ((parent, n), Eop) :: ((dep, n), no_edge_data) :: B ->
  (forall kv, In kv A -> snd (fst kv) <> n) ->
  type_ Eop = Some "operation" ->
  dep <> parent ->
  Forall (fun kv : (string * string) * EdgeData =>
            snd (fst kv) = n /\ type_ (snd kv) = None) B ->
  get_branches (without_type g "wrt") (only_type g "wrt") n = Raise KeyError.
Proof.
  intros Hn Hadj HA Hop Hdep HB.
  assert (F1 : forall x L, nx.lookup_edge (x, n) (A ++ L) = nx.lookup_edge (x, n) L).
  { intros x L. apply lookup_edge_app_r. intros Hin.
    apply in_map_iff in Hin as [kv [Hk Hin]]. apply (HA kv Hin). now rewrite Hk. }
  assert (Hparent : nx.edge_attrs g parent n = Some Eop).
  { unfold nx.edge_attrs. rewrite Hadj, F1. cbn [nx.lookup_edge].
    now rewrite pair_eqb_refl. }
  assert (Hdepe : nx.edge_attrs g dep n = Some no_edge_data).
  { unfold nx.edge_attrs. rewrite Hadj, F1. cbn [nx.lookup_edge].
    replace (pair_eqb (parent, n) (dep, n)) with false;
      [now rewrite pair_eqb_refl |].
    symmetry. apply pair_eqb_neq. congruence. }
  assert (Htp : edge_type g parent n = "operation").
  { unfold edge_type, get_type. now rewrite Hparent, Hop. }
  assert (Htd : edge_type g dep n = "").
  { unfold edge_type. now rewrite Hdepe. }
  assert (F2 : forall u d, In ((u, n), d) (nx._adj g) -> edge_type g u n <> "wrt").
  { intros u d Hin. apply lookup_edge_In in Hin as [d0 Hd0].
    unfold edge_type, nx.edge_attrs. rewrite Hd0.
    apply lookup_edge_Some in Hd0. rewrite Hadj in Hd0.
    apply in_app_or in Hd0 as [Hd0 | [Hd0 | [Hd0 | Hd0]]].
    - now destruct (HA _ Hd0).
    - injection Hd0 as _ <-. unfold get_type. rewrite Hop. discriminate.
    - injection Hd0 as _ <-. discriminate.
    - rewrite Forall_forall in HB. destruct (HB _ Hd0) as [_ Ht].
      unfold get_type. cbn [snd] in Ht. rewrite Ht. discriminate. }
  assert (Hpred : nx.pred (only_type g "wrt") n = []).
  { destruct (nx.pred (only_type g "wrt") n) as [| u r] eqn:Hp; [reflexivity |].
    assert (Hu : In u (nx.pred (only_type g "wrt") n)) by (rewrite Hp; now left).
    apply pred_In in Hu as [d Hd]. unfold only_type in Hd.
    apply subgraph_view_adj in Hd as [Hd [_ [_ Hw]]].
    apply String.eqb_eq in Hw. now destruct (F2 _ _ Hd). }
  assert (Hdag : exists r, nx.pred (without_type g "wrt") n = parent :: dep :: r).
  { unfold nx.pred, without_type, nx.subgraph_view. cbn [nx._adj]. rewrite Hadj.
    set (P := fun kv : (string * string) * EdgeData =>
                let '(u, v) := fst kv in
                true && true && negb (String.eqb (edge_type g u v) "wrt")).
    set (Q := fun kv : (string * string) * EdgeData => String.eqb (snd (fst kv)) n).
    assert (HP1 : P ((parent, n), Eop) = true).
    { unfold P. cbn [fst]. now rewrite Htp. }
    assert (HP2 : P ((dep, n), no_edge_data) = true).
    { unfold P. cbn [fst]. now rewrite Htd. }
    assert (HQ : forall u d, Q ((u, n), d) = true).
    { intros u d. unfold Q. cbn [fst snd]. apply String.eqb_refl. }
    rewrite filter_app. cbn [filter]. rewrite HP1, HP2.
    rewrite filter_app. cbn [filter]. rewrite !HQ.
    rewrite (filter_none Q (filter P A)).
    - cbn [map app fst]. eauto.
    - intros kv Hkv. apply filter_In in Hkv as [Hkv _].
      unfold Q. apply String.eqb_neq. now apply HA. }
  destruct Hdag as [r Hr].
  unfold get_branches, nx.predecessors.
  assert (Hhas : nx.has_node (only_type g "wrt") n = true).
  { apply has_node_In. unfold only_type. apply subgraph_view_nodes. auto. }
  rewrite Hhas, Hpred. cbn [bind mapM]. unfold nx.in_edges. rewrite Hr.
  cbn [map any_unwind].
  rewrite (without_type_edge_attrs g "wrt" parent n) by (rewrite Htp; discriminate).
  rewrite Hparent. cbn [from_option bind]. rewrite Hop. cbn [from_option bind].
  cbn [String.eqb Ascii.eqb Bool.eqb].
  rewrite (without_type_edge_attrs g "wrt" dep n) by (rewrite Htd; discriminate).
  rewrite Hdepe. reflexivity.
Qed.

Lemma add_untyped_edges n A e1 e2 rest : forall (gx : Graph),
  In n (nx.nodes gx) ->
  (exists B, nx._adj gx = A ++ e1 :: e2 :: B /\
             Forall (fun kv : (string * string) * EdgeData =>
                       snd (fst kv) = n /\ type_ (snd kv) = None) B) ->
  let g' := fold_left (fun g d => nx.add_edge g d n no_edge_data) rest gx in
  In n (nx.nodes g') /\
  exists B, nx._adj g' = A ++ e1 :: e2 :: B /\
            Forall (fun kv : (string * string) * EdgeData =>
                      snd (fst kv) = n /\ type_ (snd kv) = None) B.
Proof.
  induction rest as [| d rest IH]; intros gx Hn HB; [cbn; auto |].
  cbn [fold_left]. apply IH.
  - now apply add_edge_keeps_nodes.
  - destruct HB as [B [Hadj HB]]. rewrite add_edge_adj.
    destruct (update_edge_no_data (d, n) (nx._adj gx)) as [-> | ->].
    + eauto.
    + exists (B ++ [((d, n), no_edge_data)]). split.
      * rewrite Hadj, <- app_assoc. reflexivity.
      * apply Forall_app. split; [exact HB |]. constructor; [| constructor].
        split; reflexivity.
Qed.

Opaque make_node.

(** X12: the dependency edges of [add_operation] carry no attribute at all.
    At an operation node that was given a dependency other than its parent,
    [get_branches] raises [KeyError] when it asks the incoming edges for
    their type, so the compiler cannot pass such a node. *)
Theorem get_branches_raises_at_operation_with_dependency
    (g g' : Graph) (parent dep : string) (rest : list string) (operation n : string) :
  built g ->
  In dep (nx.nodes g) ->
  dep <> parent ->
  add_operation g parent (dep :: rest) operation = Ok (g', n) ->
  get_branches (without_type g' "wrt") (only_type g' "wrt") n = Raise KeyError.
Proof.
  intros Hb Hdep Hne Hadd.
  destruct (built_invariant g Hb) as [Hnum Hfwd].
  pose proof (forward_closed g Hfwd) as Hc.
  unfold add_operation in Hadd. apply bind_Ok in Hadd as [p [Hp Hadd]].
  destruct (make_node g (Some parent) (subgraph_ p) (scalars_ p ++ [operation]) operation
              "operation" ("WITH *, " ++ operation ++ " as ...")%string None)
    as [g1 n1] eqn:Hm.
  injection Hadd as <- <-.
  destruct (make_node_spec _ _ _ _ _ _ _ _ _ _ Hnum Hc (node_data_In _ _ _ Hp) Hm)
    as [Hfresh [Hnode Hadj]].
  assert (Hn1 : In n1 (nx.nodes g1)).
  { unfold nx.nodes. rewrite Hnode, map_app. apply in_or_app. right. now left. }
  assert (Hdep1 : In dep (nx.nodes g1)).
  { unfold nx.nodes. rewrite Hnode, map_app. apply in_or_app. now left. }
  cbn [fold_left]. rewrite (add_edge_nodes _ _ _ _ Hdep1 Hn1).
  set (e1 := ((parent, n1),
              {| type_ := Some "operation";
                 label_ := Some ("operation" ++ "-" ++ "WITH *, " ++ operation ++ " as ...")%string;
                 operation_ := Some ("WITH *, " ++ operation ++ " as ...")%string;
                 style_ := None |})) in *.
  set (g2 := ({| nx._node := nx._node g1;
                 nx._adj := nx.update_edge (dep, n1) no_edge_data (nx._adj g1) |} : Graph)).
  assert (Hadj2 : nx._adj g2 = nx._adj g ++ e1 :: ((dep, n1), no_edge_data) :: []).
  { unfold g2. cbn [nx._adj]. rewrite update_edge_fresh.
    - rewrite Hadj, <- app_assoc. reflexivity.
    - rewrite Hadj, map_app. intros Hin. apply in_app_or in Hin as [Hin | [Hin | []]].
      + exact (edge_key_of_fresh_r g n1 dep Hc Hfresh Hin).
      + unfold e1 in Hin. cbn [fst] in Hin. congruence. }
  destruct (add_untyped_edges n1 (nx._adj g) e1 ((dep, n1), no_edge_data) rest g2)
    as [Hn' [B [Hadj' HB]]].
  - exact Hn1.
  - exists []. split; [exact Hadj2 | constructor].
  - apply (get_branches_at_untyped_in_edge _ (nx._adj g) n1 parent dep (snd e1) B);
      auto.
    intros [[u v] d] Hin. cbn [fst snd]. intros ->. apply Hfresh.
    now destruct (Hc _ _ _ Hin).
Qed.

Transparent make_node.

Lemma get_branches_raises_in_scenario :
  get_branches (without_type (fst scenario_operation) "wrt")
               (only_type (fst scenario_operation) "wrt") (snd scenario_operation)
  = Raise KeyError.
Proof.
  apply (get_branches_raises_at_operation_with_dependency
           (fst scenario_run) (fst scenario_operation) run_label OB_label []
           "run.snr * 2" (snd scenario_operation)).
  - exact built_scenario_run.
  - apply (proj1 (mem_In _ _)). vm_compute. reflexivity.
  - vm_compute. discriminate.
  - vm_compute. reflexivity.
Defined.

(** ** Compiling a path *)

Lemma filter_all {T : Type} (f : T -> bool) l : (forall x, f x = true) -> filter f l = l.
Proof.
  intros Hf. induction l as [| x r IH]; simpl; [reflexivity |]. now rewrite Hf, IH.
Qed.

Lemma filter_all_in {T : Type} (f : T -> bool) l :
  (forall x, In x l -> f x = true) -> filter f l = l.
Proof.
  induction l as [| x r IH]; simpl; intros Hf; [reflexivity |].
  rewrite (Hf x) by auto. f_equal. apply IH. auto.
Qed.

Lemma restricted_view_nothing (g : Graph) : nx.restricted_view g [] [] = g.
Proof.
  destruct g as [node adj]. unfold nx.restricted_view, nx.subgraph_view. cbn [nx._node nx._adj].
  f_equal; apply filter_all.
  - intros kv. reflexivity.
  - intros [[u v] d]. reflexivity.
Qed.

Lemma restricted_view_all_nodes (g : Graph) X :
  nx.nodes (nx.restricted_view g [] X) = nx.nodes g.
Proof.
  unfold nx.restricted_view, nx.subgraph_view, nx.nodes. cbn [nx._node].
  f_equal. apply filter_all. intros kv. reflexivity.
Qed.

Lemma restricted_view_adj_eq (g : Graph) X :
  nx._adj (nx.restricted_view g [] X)
  = filter (fun kv => negb (mem_pair (fst kv) X)) (nx._adj g).
Proof.
  unfold nx.restricted_view, nx.subgraph_view. cbn [nx._adj].
  apply filter_ext. intros [[u v] d]. reflexivity.
Qed.

Lemma succ_restricted (g : Graph) X n :
  nx.succ (nx.restricted_view g [] X) n
  = filter (fun w => negb (mem_pair (n, w) X)) (nx.succ g n).
Proof.
  unfold nx.succ. rewrite restricted_view_adj_eq.
  induction (nx._adj g) as [| [[u v] d] r IH]; [reflexivity |].
  cbn [filter fst snd].
  destruct (String.eqb u n) eqn:Hu.
  - apply String.eqb_eq in Hu. subst u. cbn [map filter fst snd].
    destruct (negb (mem_pair (n, v) X)); cbn [filter map fst snd].
    + rewrite String.eqb_refl. cbn [map fst snd]. now rewrite IH.
    + exact IH.
  - destruct (negb (mem_pair (u, v) X)); cbn [filter fst snd]; [rewrite Hu |]; exact IH.
Qed.

Lemma pred_restricted (g : Graph) X n :
  nx.pred (nx.restricted_view g [] X) n
  = filter (fun u => negb (mem_pair (u, n) X)) (nx.pred g n).
Proof.
  unfold nx.pred. rewrite restricted_view_adj_eq.
  induction (nx._adj g) as [| [[u v] d] r IH]; [reflexivity |].
  cbn [filter fst snd].
  destruct (String.eqb v n) eqn:Hv.
  - apply String.eqb_eq in Hv. subst v. cbn [map filter fst snd].
    destruct (negb (mem_pair (u, n) X)); cbn [filter map fst snd].
    + rewrite String.eqb_refl. cbn [map fst snd]. now rewrite IH.
    + exact IH.
  - destruct (negb (mem_pair (u, v) X)); cbn [filter fst snd]; [rewrite Hv |]; exact IH.
Qed.

(** The first edge of a path and what is left of it. *)
Lemma path_head (g : Graph) node next rest :
  is_path g (node :: next :: rest) ->
  exists e tail,
    nx._adj g = ((node, next), e) :: tail /\
    map fst tail = combine (removelast (next :: rest)) rest /\
    nx.succ g node = [next] /\
    nx.pred g node = [] /\
    nx.edge_attrs g node next = Some e /\
    filter (fun kv : (string * string) * EdgeData =>
              negb (pair_eqb (fst kv) (node, next))) tail = tail.
Proof.
  intros [Hnd [Hin Hadj]].
  change (removelast (node :: next :: rest)) with (node :: removelast (next :: rest)) in Hadj.
  cbn [tl combine] in Hadj.
  destruct (nx._adj g) as [| [k e] tail] eqn:Hg; [discriminate |].
  cbn [map fst] in Hadj. injection Hadj as -> Htail.
  exists e, tail. split; [reflexivity |]. split; [exact Htail |].
  inversion Hnd as [| ? ? Hnode Hrest]; subst.
  assert (Hsrc : forall kv, In kv tail -> fst (fst kv) <> node).
  { intros [[u v] d] Hkv. cbn [fst]. intros ->.
    assert (Hk : In (node, v) (map fst tail)).
    { apply in_map_iff. exists ((node, v), d). split; [reflexivity | exact Hkv]. }
    rewrite Htail in Hk. apply in_combine_l in Hk.
    apply Hnode. now apply removelast_incl. }
  assert (Htgt : forall kv, In kv tail -> snd (fst kv) <> node).
  { intros [[u v] d] Hkv. cbn [fst snd]. intros ->.
    assert (Hk : In (u, node) (map fst tail)).
    { apply in_map_iff. exists ((u, node), d). split; [reflexivity | exact Hkv]. }
    rewrite Htail in Hk. apply in_combine_r in Hk. apply Hnode. now right. }
  assert (Hne : next <> node) by (intros ->; apply Hnode; now left).
  repeat split.
  - unfold nx.succ. rewrite Hg. cbn [filter fst snd]. rewrite String.eqb_refl.
    rewrite filter_none; [reflexivity |].
    intros kv Hkv. apply String.eqb_neq. now apply Hsrc.
  - unfold nx.pred. rewrite Hg. cbn [filter fst snd].
    replace (String.eqb next node) with false by (symmetry; now apply String.eqb_neq).
    rewrite filter_none; [reflexivity |].
    intros kv Hkv. apply String.eqb_neq. now apply Htgt.
  - unfold nx.edge_attrs. rewrite Hg. cbn [nx.lookup_edge]. now rewrite pair_eqb_refl.
  - apply filter_all_in. intros kv Hkv. apply negb_true_iff. apply pair_eqb_neq.
    intros Heq. apply (Hsrc kv Hkv). now rewrite Heq.
Qed.

Lemma read_whole (og : Graph) : read whole og = Ok og.
Proof. unfold whole. cbn [read bind]. now rewrite restricted_view_nothing. Qed.

Lemma read_restricted (og : Graph) X :
  read (Sub whole [] X None) og = Ok (nx.restricted_view og [] X).
Proof. cbn [read]. now rewrite read_whole. Qed.

Lemma no_edges (g : Graph) : nx._adj g = [] -> nx.edges g = [].
Proof.
  intros Hadj. unfold nx.edges, nx.out_edges, nx.succ. rewrite Hadj. cbn [filter map].
  induction (nx.nodes g) as [| n r IH]; [reflexivity | exact IH].
Qed.

Lemma path_step (og : Graph) node next rest Xd Xb output start fuel :
  is_path og (node :: next :: rest) ->
  (forall k, In k (map fst (nx._adj og)) -> mem_pair k Xd = negb (mem_pair k Xb)) ->
  exists statement og',
    nx._adj og = ((node, next), edge_data statement) :: nx._adj og' /\
    nx._node og' = nx._node og /\
    is_aggregating statement = false /\
    traverse_loop (S fuel) og whole (Sub whole [] Xd None) (Sub whole [] Xb None)
                  output node start false
    = after [statement]
        (traverse_loop fuel og' whole (Sub whole [] Xd None) (Sub whole [] Xb None)
                       output next start false).
Proof.
  intros Hpath Hpart.
  destruct (path_head og node next rest Hpath)
    as [e [tail [Hadj [Htail [Hsucc [Hpred [Hattr Hfilt]]]]]]].
  destruct Hpath as [Hnd [Hincl _]].
  assert (Hnode : In node (nx.nodes og)) by (apply Hincl; now left).
  assert (Hnext : In next (nx.nodes og)) by (apply Hincl; right; now left).
  assert (Hhas : forall X, nx.has_node (nx.restricted_view og [] X) node = true).
  { intros X. apply has_node_In. now rewrite restricted_view_all_nodes. }
  assert (Hedges : nx.edges og <> []).
  { intros Hnil.
    assert (Hin : In (node, next) (nx.edges og)).
    { apply edges_In. split; [exact Hnode |]. rewrite Hsucc. now left. }
    now rewrite Hnil in Hin. }
  assert (Hbr : get_branches (nx.restricted_view og [] Xd) (nx.restricted_view og [] Xb) node
                = Ok ([], true)).
  { unfold get_branches, nx.predecessors, nx.in_edges.
    rewrite Hhas, !pred_restricted, Hpred. reflexivity. }
  assert (Hun : exists l,
            unaggregated_successors og (Sub whole [] Xd None) node = Ok l /\
            List.length l <= 1).
  { unfold unaggregated_successors, subgraph_view.
    rewrite read_restricted. cbn [bind app read]. rewrite read_whole. cbn [bind].
    unfold nx.successors.
    replace (nx.has_node _ node) with true.
    - eexists. split; [reflexivity |].
      rewrite !succ_restricted, Hsucc.
      eapply Nat.le_trans; [apply filter_length_le |].
      eapply Nat.le_trans; [apply filter_length_le |]. reflexivity.
    - symmetry. apply has_node_In. now rewrite !restricted_view_all_nodes. }
  destruct Hun as [l [Hun Hlen]].
  destruct (lookup_In node (nx._node og) Hnode) as [da Hda].
  destruct (lookup_In next (nx._node og) Hnext) as [db Hdb].
  set (statement := {| a_data := da; b_data := db; edge_data := e;
                       is_aggregating := false |}).
  assert (Hstep : next_step og whole (Sub whole [] Xd None) (Sub whole [] Xb None) node false
                  = Ok (Advance next statement)).
  { rewrite (@next_step_no_branch og whole (Sub whole [] Xd None) (Sub whole [] Xb None)
               node false og (nx.restricted_view og [] Xd) (nx.restricted_view og [] Xb)
               true l (read_whole og) Hedges (read_restricted og Xd)
               (read_restricted og Xb) Hbr Hun).
    replace (Nat.ltb 1 (List.length l)) with false
      by (symmetry; apply Nat.ltb_ge; exact Hlen).
    unfold nx.successors. rewrite !Hhas. cbn [bind].
    rewrite !succ_restricted, Hsucc. cbn [filter].
    rewrite (Hpart (node, next)) by (rewrite Hadj; now left).
    assert (Hdata : get_statement_data og node next false = Ok statement).
    { unfold get_statement_data, nx.node_attrs. rewrite Hda, Hdb, Hattr. reflexivity. }
    destruct (mem_pair (node, next) Xb); cbn [negb app]; now rewrite Hdata. }
  exists statement, ({| nx._node := nx._node og; nx._adj := tail |} : Graph).
  split; [exact Hadj |]. split; [reflexivity |]. split; [reflexivity |].
  rewrite traverse_loop_S, Hstep.
  unfold consume_edge. cbn [andb bind]. unfold nx.remove_edge, nx.has_edge.
  rewrite Hattr. cbn [bind]. rewrite Hadj. cbn [filter fst].
  rewrite pair_eqb_refl. cbn [negb]. rewrite Hfilt. reflexivity.
Qed.

Lemma traverse_path Xd Xb output start : forall rest node (og : Graph) fuel,
  is_path og (node :: rest) ->
  (forall k, In k (map fst (nx._adj og)) -> mem_pair k Xd = negb (mem_pair k Xb)) ->
  List.length rest < fuel ->
  let r := traverse_loop fuel og whole (Sub whole [] Xd None) (Sub whole [] Xb None)
                         output node start false in
  raised r = None /\
  map edge_data (emitted r) = map snd (nx._adj og) /\
  Forall (fun s => is_aggregating s = false) (emitted r) /\
  nx._adj (graph_after r) = [] /\
  nx._node (graph_after r) = nx._node og.
Proof.
  induction rest as [| next rest IH]; intros node og fuel Hpath Hpart Hfuel.
  - destruct fuel as [| fuel]; [simpl in Hfuel; lia |].
    destruct Hpath as [_ [_ Hadj]]. cbn [removelast tl combine] in Hadj.
    apply map_eq_nil in Hadj.
    rewrite traverse_loop_S. unfold next_step. rewrite read_whole. cbn [bind].
    rewrite (no_edges og Hadj). cbn. rewrite Hadj. repeat split; auto.
  - destruct fuel as [| fuel]; [simpl in Hfuel; lia |].
    destruct (path_step og node next rest Xd Xb output start fuel Hpath Hpart)
      as [statement [og' [Hadj [Hnodes [Hagg Hloop]]]]].
    cbv zeta. rewrite Hloop.
    assert (Hpath' : is_path og' (next :: rest)).
    { destruct Hpath as [Hnd [Hincl Hkeys]]. split; [now inversion Hnd |]. split.
      - intros x Hx. unfold nx.nodes. rewrite Hnodes. apply Hincl. now right.
      - rewrite Hadj in Hkeys.
        change (removelast (node :: next :: rest))
          with (node :: removelast (next :: rest)) in Hkeys.
        cbn [map fst tl combine] in Hkeys. now injection Hkeys. }
    assert (Hpart' : forall k, In k (map fst (nx._adj og')) ->
                               mem_pair k Xd = negb (mem_pair k Xb)).
    { intros k Hk. apply Hpart. rewrite Hadj. now right. }
    assert (Hfuel' : List.length rest < fuel) by (simpl in Hfuel; lia).
    destruct (IH next og' fuel Hpath' Hpart' Hfuel')
      as [Hraised [Hemit [Hall [Hafter Hnode]]]].
    cbn [after raised emitted graph_after app]. repeat split.
    + exact Hraised.
    + cbn [map]. rewrite Hemit, Hadj. reflexivity.
    + constructor; assumption.
    + exact Hafter.
    + now rewrite Hnode.
Qed.

Lemma mem_pair_filter (f : string * string -> bool) k l :
  In k l -> mem_pair k (filter f l) = f k.
Proof.
  intros Hin. destruct (f k) eqn:Hf.
  - apply mem_pair_In. apply filter_In. auto.
  - destruct (mem_pair k (filter f l)) eqn:Hm; [| reflexivity].
    apply mem_pair_In in Hm. apply filter_In in Hm as [_ Hm]. congruence.
Qed.

(** The views of the outermost frame: the "wrt" edges are hidden in the one,
    the other edges in the other. *)
Lemma traverse_query_graph_frame (graph : Graph) output node fuel :
  traverse_query_graph fuel graph output node
  = traverse_loop fuel graph whole
      (Sub whole []
         (filter (fun e => String.eqb (edge_type graph (fst e) (snd e)) "wrt")
                 (nx.edges graph)) None)
      (Sub whole []
         (filter (fun e => negb (String.eqb (edge_type graph (fst e) (snd e)) "wrt"))
                 (nx.edges graph)) None)
      output node node false.
Proof.
  unfold traverse_query_graph.
  change (subgraph_view graph Original None None None [] None) with (Ok whole).
  cbn [bind]. unfold dag_and_backwards, subgraph_view. rewrite read_whole. reflexivity.
Qed.

Lemma path_views_partition (graph : Graph) path k :
  is_path graph path ->
  In k (map fst (nx._adj graph)) ->
  mem_pair k (filter (fun e => String.eqb (edge_type graph (fst e) (snd e)) "wrt")
                     (nx.edges graph))
  = negb (mem_pair k
            (filter (fun e => negb (String.eqb (edge_type graph (fst e) (snd e)) "wrt"))
                    (nx.edges graph))).
Proof.
  intros Hpath Hk. destruct k as [u v].
  assert (Hin : In (u, v) (nx.edges graph)).
  { apply edges_In. split.
    - destruct Hpath as [_ [Hincl Hkeys]]. rewrite Hkeys in Hk.
      apply in_combine_l in Hk. apply Hincl. now apply removelast_incl.
    - apply succ_In. apply in_map_iff in Hk as [[k d] [Hk Hin]].
      cbn [fst] in Hk. subst k. eauto. }
  rewrite !mem_pair_filter by exact Hin. now rewrite negb_involutive.
Qed.

(** X13: a graph that is a path is compiled edge by edge.  From the first
    node, with fuel for every edge, [traverse_query_graph] yields one
    statement for each edge, in the order of the path and with the data of
    the edge, none of them aggregating; it ends without an exception, and
    its own copy of the graph is left with all its nodes and no edge. *)
Theorem path_is_compiled_edge_by_edge
    (graph : Graph) (node : string) (rest : list string) (output : string) (fuel : nat) :
  is_path graph (node :: rest) ->
  List.length rest < fuel ->
  raised (traverse_query_graph fuel graph output node) = None /\
  map edge_data (emitted (traverse_query_graph fuel graph output node))
  = map snd (nx._adj graph) /\
  Forall (fun s => is_aggregating s = false)
         (emitted (traverse_query_graph fuel graph output node)) /\
  nx._adj (graph_after (traverse_query_graph fuel graph output node)) = [] /\
  nx._node (graph_after (traverse_query_graph fuel graph output node)) = nx._node graph.
Proof.
  intros Hpath Hfuel. rewrite traverse_query_graph_frame.
  apply (traverse_path _ _ output node rest node graph fuel Hpath); [| exact Hfuel].
  intros k Hk. exact (path_views_partition graph (node :: rest) k Hpath Hk).
Qed.

Lemma chain_is_compiled_edge_by_edge :
  raised (traverse_query_graph 4 (fst chain) "" data_label) = None /\
  map edge_data (emitted (traverse_query_graph 4 (fst chain) "" data_label))
  = map snd (nx._adj (fst chain)) /\
  Forall (fun s => is_aggregating s = false)
         (emitted (traverse_query_graph 4 (fst chain) "" data_label)) /\
  nx._adj (graph_after (traverse_query_graph 4 (fst chain) "" data_label)) = [] /\
  nx._node (graph_after (traverse_query_graph 4 (fst chain) "" data_label))
  = nx._node (fst chain).
Proof.
  apply (path_is_compiled_edge_by_edge (fst chain) data_label
           (tl (nx.nodes (fst chain))) "" 4).
  - split; [nodup_list |]. split; [| vm_compute; reflexivity].
    intros x Hx. vm_compute in Hx. vm_compute. exact Hx.
  - vm_compute. lia.
Defined.

Lemma path_keys_snoc (P : list string) n :
  P <> [] ->
  combine (removelast (P ++ [n])) (tl (P ++ [n]))
  = combine (removelast P) (tl P) ++ [(last P EmptyString, n)].
Proof.
  induction P as [| x [| y r] IH]; intros Hne; [congruence | reflexivity |].
  specialize (IH ltac:(discriminate)).
  change ((x :: y :: r) ++ [n]) with (x :: (y :: r) ++ [n]).
  change (removelast (x :: (y :: r) ++ [n]))
    with (x :: removelast ((y :: r) ++ [n])).
  change (tl (x :: (y :: r) ++ [n])) with (y :: tl ((y :: r) ++ [n])).
  cbn [combine]. rewrite IH. reflexivity.
Qed.

Opaque make_node.

Lemma add_traversal_extends_path (g g' : Graph) pre parent path n :
  built g -> is_path g (pre ++ [parent]) ->
  add_traversal g parent path = Ok (g', n) ->
  is_path g' ((pre ++ [parent]) ++ [n]) /\
  exists e, nx._adj g' = nx._adj g ++ [((parent, n), e)] /\ type_ e = Some "traversal".
Proof.
  intros Hb [Hnd [Hincl Hkeys]] Hadd.
  destruct (built_invariant g Hb) as [Hnum Hfwd].
  pose proof (forward_closed g Hfwd) as Hc.
  unfold add_traversal in Hadd.
  apply bind_Ok in Hadd as [d [Hd Hadd]]. apply bind_Ok in Hadd as [p0 [_ Hadd]].
  destruct (make_node _ _ _ _ _ _ _ _) as [g1 n1] eqn:Hm.
  injection Hadd as <- <-.
  destruct (make_node_spec _ _ _ _ _ _ _ _ _ _ Hnum Hc (node_data_In _ _ _ Hd) Hm)
    as [Hfresh [Hnode Hadj]].
  split; [| eexists; split; [exact Hadj | reflexivity]].
  split; [| split].
  - apply NoDup_snoc; [exact Hnd |]. intros Hin. apply Hfresh. now apply Hincl.
  - intros x Hx. unfold nx.nodes. rewrite Hnode, map_app. apply in_or_app.
    apply in_app_or in Hx as [Hx | [<- | []]]; [left; now apply Hincl | right; now left].
  - rewrite Hadj, map_app, Hkeys. rewrite (path_keys_snoc (pre ++ [parent]) n1).
    + now rewrite last_last.
    + intros Hnil. apply app_eq_nil in Hnil as [_ Hnil]. discriminate.
Qed.

Transparent make_node.

Lemma traverse_all_path paths : forall (g g' : Graph) pre parent ns,
  built g -> is_path g (pre ++ [parent]) ->
  traverse_all g parent paths = Ok (g', ns) ->
  is_path g' (pre ++ parent :: ns) /\
  List.length ns = List.length paths /\
  exists added,
    nx._adj g' = nx._adj g ++ added /\
    List.length added = List.length paths /\
    Forall (fun kv : (string * string) * EdgeData => type_ (snd kv) = Some "traversal")
           added.
Proof.
  induction paths as [| path paths IH]; intros g g' pre parent ns Hb Hpath Hall.
  - injection Hall as <- <-. split; [exact Hpath |]. split; [reflexivity |].
    exists []. rewrite app_nil_r. repeat split. constructor.
  - cbn [traverse_all] in Hall.
    apply bind_Ok in Hall as [[g1 n] [Hadd Hall]].
    apply bind_Ok in Hall as [[g2 ns'] [Hrest Hall]]. injection Hall as <- <-.
    destruct (add_traversal_extends_path g g1 pre parent path n Hb Hpath Hadd)
      as [Hpath1 [e [Hadj1 Hte]]].
    destruct (IH g1 g2 (pre ++ [parent]) n ns'
                 (@built_traversal g parent path g1 n Hb Hadd) Hpath1 Hrest)
      as [Hpath2 [Hlen [added [Hadj2 [Hlen2 Hall2]]]]].
    split; [now rewrite <- app_assoc in Hpath2 |]. split; [simpl; now rewrite Hlen |].
    exists (((parent, n), e) :: added). split; [| split].
    + rewrite Hadj2, Hadj1, <- app_assoc. reflexivity.
    + simpl. now rewrite Hlen2.
    + constructor; assumption.
Qed.

Lemma init_is_path : is_path (G QueryGraph_init) ([] ++ [start QueryGraph_init]).
Proof.
  split; [nodup_list |]. split; [| reflexivity].
  intros x Hx. vm_compute in Hx. vm_compute. exact Hx.
Qed.

(** X14: a query made of successive traversals only, each from the node the
    one before returned, is compiled to one statement for each traversal, in
    their order: every statement is that of a traversal edge and none is
    aggregating, the compiler ends without an exception. *)
Theorem successive_traversals_are_compiled_in_order
    (paths : list (list string)) (graph : Graph) (ns : list string)
    (output : string) (fuel : nat) :
  traverse_all (G QueryGraph_init) (start QueryGraph_init) paths = Ok (graph, ns) ->
  List.length paths < fuel ->
  let r := traverse_query_graph fuel graph output (start QueryGraph_init) in
  raised r = None /\
  List.length (emitted r) = List.length paths /\
  map edge_data (emitted r) = map snd (nx._adj graph) /\
  Forall (fun s => type_ (edge_data s) = Some "traversal" /\ is_aggregating s = false)
         (emitted r).
Proof.
  intros Hall Hfuel.
  destruct (traverse_all_path paths _ _ [] _ _ built_init init_is_path Hall)
    as [Hpath [Hlen [added [Hadj [Hlen2 Htypes]]]]].
  cbn [app] in Hpath. change (nx._adj (G QueryGraph_init)) with
    (@nil ((string * string) * EdgeData)) in Hadj. cbn [app] in Hadj.
  assert (Hfuel' : List.length ns < fuel) by lia.
  cbv zeta. rewrite traverse_query_graph_frame.
  destruct (traverse_path _ _ output (start QueryGraph_init) ns (start QueryGraph_init)
              graph fuel Hpath
              (fun k Hk => path_views_partition graph _ k Hpath Hk) Hfuel')
    as [Hraised [Hemit [Hagg _]]].
  split; [exact Hraised |]. split; [| split; [exact Hemit |]].
  - rewrite <- (length_map edge_data), Hemit, length_map, Hadj. exact Hlen2.
  - rewrite Hadj in Hemit.
    revert Hemit Hagg Htypes.
    match goal with |- context [emitted ?r] => generalize (emitted r) end.
    clear. intros l. revert added.
    induction l as [| s l IH]; intros added Hemit Hagg Htypes; [constructor |].
    destruct added as [| kv added]; [discriminate |].
    cbn [map] in Hemit. injection Hemit as Hs Hl.
    inversion Hagg; subst. inversion Htypes; subst.
    constructor; [split; [congruence | assumption] | eauto].
Qed.

Lemma three_traversals_are_compiled_in_order :
  raised (traverse_query_graph 4 (fst chain) "" (start QueryGraph_init)) = None /\
  List.length (emitted (traverse_query_graph 4 (fst chain) "" (start QueryGraph_init)))
  = List.length [["OB"]; ["run"]; ["spectra"]] /\
  map edge_data (emitted (traverse_query_graph 4 (fst chain) "" (start QueryGraph_init)))
  = map snd (nx._adj (fst chain)) /\
  Forall (fun s => type_ (edge_data s) = Some "traversal" /\ is_aggregating s = false)
         (emitted (traverse_query_graph 4 (fst chain) "" (start QueryGraph_init))).
Proof.
  apply (successive_traversals_are_compiled_in_order [["OB"]; ["run"]; ["spectra"]]
           (fst chain) (tl (nx.nodes (fst chain))) "" 4).
  - vm_compute. reflexivity.
  - vm_compute. lia.
Defined.

(** ** State preservation needs a traversal *)

Lemma first_traversal_none (g : Graph) steps :
  (forall b wrt, In (b, wrt) steps ->
     exists d t, nx.edge_attrs g wrt b = Some d /\ type_ d = Some t /\ t <> "traversal") ->
  first_traversal g steps
  = Raise (ValueError "Fatal error: BUG: No part of this branch contains a traversal").
Proof.
  induction steps as [| [b wrt] r IH]; intros Hall; [reflexivity |].
  cbn [first_traversal].
  destruct (Hall b wrt (or_introl eq_refl)) as [d [t [Hd [Ht Hne]]]].
  rewrite Hd. cbn [from_option bind]. rewrite Ht. cbn [from_option bind].
  replace (String.eqb t "traversal") with false by (symmetry; now apply String.eqb_neq).
  apply IH. intros b' wrt' Hin. apply Hall. now right.
Qed.

(** X15: [preserve_state_for_subqueries] raises its [ValueError] when no edge
    on the path it finds from [start] to [node] is a traversal, as when
    [node] is [start] itself; the graph is not touched before. *)
Theorem preserve_state_needs_a_traversal
    (graph : Graph) (start node : string) (path : list string) :
  nx.shortest_path (without_type graph "wrt") start node = Ok path ->
  (forall b wrt, In (b, wrt) (combine (removelast (rev path)) (tl (rev path))) ->
     exists d t, nx.edge_attrs graph wrt b = Some d /\ type_ d = Some t /\
                 t <> "traversal") ->
  preserve_state_for_subqueries graph start node
  = Raise (ValueError "Fatal error: BUG: No part of this branch contains a traversal").
Proof.
  intros Hpath Hnone. unfold preserve_state_for_subqueries.
  rewrite Hpath. cbn [bind]. now rewrite first_traversal_none.
Qed.

Lemma preserve_state_fails_at_filtered_start :
  preserve_state_for_subqueries (fst filtered_start) data_label (snd filtered_start)
  = Raise (ValueError "Fatal error: BUG: No part of this branch contains a traversal").
Proof.
  apply (preserve_state_needs_a_traversal (fst filtered_start) data_label
           (snd filtered_start) [data_label; snd filtered_start]).
  - vm_compute. reflexivity.
  - intros b wrt Hin. vm_compute in Hin. destruct Hin as [Hin | []].
    injection Hin as <- <-. eexists. exists "filter". split; [vm_compute; reflexivity |].
    split; [reflexivity | discriminate].
Defined.

(** ** Dependencies are not checked *)

Opaque make_node.

(** X16: [add_filter] does not check its dependencies.  One that is not a
    node of the graph is created by the dependency edge, as a node without
    attributes, and a later builder call that names it as the parent raises
    [KeyError]. *)
Theorem add_filter_creates_unknown_dependencies
    (g g' : Graph) (parent dependency operation n : string) :
  built g ->
  ~ In dependency (nx.nodes g) ->
  dependency <> n ->
  add_filter g parent [dependency] operation = Ok (g', n) ->
  nx.nodes g' = nx.nodes g ++ [n; dependency] /\
  identity g' dependency = None /\
  nx.edge_attrs g' dependency n
  = Some {| type_ := Some "dep"; label_ := None; operation_ := None; style_ := None |} /\
  (forall path, add_traversal g' dependency path = Raise KeyError).
Proof.
  intros Hb Hnew Hne Hadd.
  destruct (built_invariant g Hb) as [Hnum Hfwd].
  pose proof (forward_closed g Hfwd) as Hc.
  unfold add_filter in Hadd. apply bind_Ok in Hadd as [p [Hp Hadd]].
  destruct (make_node g (Some parent) (subgraph_ p) [] (name_ p) "filter"
              ("WHERE " ++ operation)%string None) as [g1 n1] eqn:Hm.
  injection Hadd as <- <-.
  destruct (make_node_spec _ _ _ _ _ _ _ _ _ _ Hnum Hc (node_data_In _ _ _ Hp) Hm)
    as [Hfresh [Hnode Hadj]].
  cbn [fold_left].
  assert (Hnodes1 : nx.nodes g1 = nx.nodes g ++ [n1]).
  { unfold nx.nodes. now rewrite Hnode, map_app. }
  assert (Hd1 : nx.has_node g1 dependency = false).
  { apply mem_false. rewrite Hnodes1. intros Hin.
    apply in_app_or in Hin as [Hin | [Hin | []]]; [now apply Hnew | congruence]. }
  assert (Hkey : ~ In dependency (map fst (nx._node g1))).
  { apply mem_false in Hd1. exact Hd1. }
  assert (Hn1 : nx.has_node (nx.add_node g1 dependency no_attrs) n1 = true).
  { apply has_node_In. unfold nx.add_node, nx.nodes. cbn [nx._node].
    rewrite update_node_fresh by exact Hkey. rewrite map_app. apply in_or_app. left.
    fold (nx.nodes g1). rewrite Hnodes1. apply in_or_app. right. now left. }
  unfold nx.add_edge. rewrite Hd1, Hn1.
  assert (Hnode' : nx._node (nx.add_node g1 dependency no_attrs)
                   = nx._node g1 ++ [(dependency, None)]).
  { unfold nx.add_node. cbn [nx._node]. now rewrite update_node_fresh by exact Hkey. }
  split; [| split; [| split]].
  - unfold nx.nodes. cbn [nx._node]. rewrite Hnode', map_app.
    fold (nx.nodes g1). rewrite Hnodes1, <- app_assoc. reflexivity.
  - unfold identity, nx.node_attrs. cbn [nx._node]. rewrite Hnode'.
    rewrite lookup_app_r by exact Hkey. cbn [nx.lookup]. now rewrite String.eqb_refl.
  - unfold nx.edge_attrs. cbn [nx._adj]. unfold nx.add_node. cbn [nx._adj].
    rewrite lookup_update_edge_same.
    destruct (nx.lookup_edge (dependency, n1) (nx._adj g1)) as [old |] eqn:Hold;
      [| reflexivity].
    exfalso. apply lookup_edge_Some in Hold. rewrite Hadj in Hold.
    apply in_app_or in Hold as [Hin | [Hin | []]].
    + apply Hnew. now destruct (Hc _ _ _ Hin).
    + injection Hin as Hin _. apply Hnew. rewrite <- Hin.
      exact (node_data_In _ _ _ Hp).
  - intros path. unfold add_traversal, node_data, nx.node_attrs. cbn [nx._node].
    rewrite Hnode', lookup_app_r by exact Hkey. cbn [nx.lookup].
    now rewrite String.eqb_refl.
Qed.

Transparent make_node.

Lemma add_filter_creates_a_node_in_scenario :
  nx.nodes (fst scenario_unknown_dependency)
  = nx.nodes (fst scenario_run) ++ [snd scenario_unknown_dependency; "nowhere"] /\
  identity (fst scenario_unknown_dependency) "nowhere" = None /\
  nx.edge_attrs (fst scenario_unknown_dependency) "nowhere" (snd scenario_unknown_dependency)
  = Some {| type_ := Some "dep"; label_ := None; operation_ := None; style_ := None |} /\
  (forall path,
     add_traversal (fst scenario_unknown_dependency) "nowhere" path = Raise KeyError).
Proof.
  apply (add_filter_creates_unknown_dependencies (fst scenario_run)
           (fst scenario_unknown_dependency) run_label "nowhere" "run.snr > nowhere"
           (snd scenario_unknown_dependency)).
  - exact built_scenario_run.
  - not_in_list.
  - vm_compute. discriminate.
  - vm_compute. reflexivity.
Defined.

(** ** Filters and operations *)

Lemma filters_no_operation_typed (gx : Graph) u v A t :
  type_ A = Some t -> t <> "filter" -> t <> "operation" ->
  filters_no_operation gx -> filters_no_operation (nx.add_edge gx u v A).
Proof.
  intros HA Hf Ho Hinv a b e a' e' H1 H2 Hte Hte'.
  rewrite add_edge_adj in H1, H2.
  assert (Hnew : forall x old, x = ((u, v), update old A) ->
                 type_ (snd x) = Some t).
  { intros x old ->. cbn. now rewrite HA. }
  apply update_edge_In in H1 as [H1 | [old1 H1]];
    apply update_edge_In in H2 as [H2 | [old2 H2]].
  - exact (Hinv _ _ _ _ _ H1 H2 Hte Hte').
  - apply Hnew in H2. cbn [snd] in H2. congruence.
  - apply Hnew in H1. cbn [snd] in H1. congruence.
  - apply Hnew in H1. cbn [snd] in H1. congruence.
Qed.

Lemma filters_no_operation_untyped (gx : Graph) u v :
  filters_no_operation gx -> filters_no_operation (nx.add_edge gx u v no_edge_data).
Proof.
  intros Hinv a b e a' e' H1 H2 Hte Hte'.
  rewrite add_edge_adj in H1, H2.
  destruct (update_edge_no_data (u, v) (nx._adj gx)) as [Heq | Heq];
    rewrite Heq in H1, H2.
  - exact (Hinv _ _ _ _ _ H1 H2 Hte Hte').
  - apply in_app_or in H1 as [H1 | [H1 | []]];
      apply in_app_or in H2 as [H2 | [H2 | []]].
    + exact (Hinv _ _ _ _ _ H1 H2 Hte Hte').
    + injection H2 as _ _ <-. discriminate.
    + injection H1 as _ _ <-. discriminate.
    + injection H1 as _ _ <-. discriminate.
Qed.

Lemma filters_no_operation_new_node (g g1 : Graph) parent n E :
  filters_no_operation g -> closed g -> ~ In n (nx.nodes g) ->
  nx._adj g1 = nx._adj g ++ [((parent, n), E)] ->
  filters_no_operation g1.
Proof.
  intros Hinv Hc Hfresh Hadj a b e a' e' H1 H2 Hte Hte'.
  rewrite Hadj in H1, H2.
  apply in_app_or in H1 as [H1 | [H1 | []]];
    apply in_app_or in H2 as [H2 | [H2 | []]].
  - exact (Hinv _ _ _ _ _ H1 H2 Hte Hte').
  - injection H2 as _ <- _. apply Hfresh. now destruct (Hc _ _ _ H1).
  - injection H1 as _ <- _. apply Hfresh. now destruct (Hc _ _ _ H2).
  - injection H1 as _ _ <-. injection H2 as _ _ <-. congruence.
Qed.

Opaque make_node.

Lemma built_filters_no_operation (g : Graph) : built g -> filters_no_operation g.
Proof.
  induction 1 as [| g parent path g' n Hb IH Hadd
                  | g parent deps op g' n Hb IH Hdeps Hadd
                  | g parent wrt op g' n Hb IH Hadd
                  | g parent deps op g' n Hb IH Hdeps Hadd];
    try (destruct (built_invariant g Hb) as [Hnum Hfwd];
         pose proof (forward_closed g Hfwd) as Hc).
  - intros u v e u' e' [].
  - unfold add_traversal in Hadd.
    apply bind_Ok in Hadd as [d [Hd Hadd]]. apply bind_Ok in Hadd as [p0 [_ Hadd]].
    destruct (make_node _ _ _ _ _ _ _ _) as [g1 n1] eqn:Hm.
    injection Hadd as <- <-.
    destruct (make_node_spec _ _ _ _ _ _ _ _ _ _ Hnum Hc (node_data_In _ _ _ Hd) Hm)
      as [Hfresh [_ Hadj]].
    exact (filters_no_operation_new_node g g1 parent n1 _ IH Hc Hfresh Hadj).
  - unfold add_filter in Hadd. apply bind_Ok in Hadd as [d [Hd Hadd]].
    destruct (make_node g (Some parent) (subgraph_ d) [] (name_ d) "filter"
                        ("WHERE " ++ op)%string None) as [g1 n1] eqn:Hm.
    injection Hadd as <- <-.
    destruct (make_node_spec _ _ _ _ _ _ _ _ _ _ Hnum Hc (node_data_In _ _ _ Hd) Hm)
      as [Hfresh [_ Hadj]].
    pose proof (filters_no_operation_new_node g g1 parent n1 _ IH Hc Hfresh Hadj) as H1.
    clear - H1. revert g1 H1. induction deps as [| x r IHr]; intros g1 H1; [exact H1 |].
    cbn [fold_left]. apply IHr.
    apply (filters_no_operation_typed g1 x n1 _ "dep"); [reflexivity | | | exact H1];
      discriminate.
  - unfold add_aggregation in Hadd.
    apply bind_Ok in Hadd as [w [Hw Hadd]]. apply bind_Ok in Hadd as [p [Hp Hadd]].
    destruct (make_node g (Some parent) (subgraph_ w) (scalars_ p ++ [op]) op "aggr" op None)
      as [g1 n1] eqn:Hm.
    injection Hadd as <- <-.
    destruct (make_node_spec _ _ _ _ _ _ _ _ _ _ Hnum Hc (node_data_In _ _ _ Hp) Hm)
      as [Hfresh [_ Hadj]].
    pose proof (filters_no_operation_new_node g g1 parent n1 _ IH Hc Hfresh Hadj) as H1.
    apply (filters_no_operation_typed g1 n1 wrt _ "wrt"); [reflexivity | | | exact H1];
      discriminate.
  - unfold add_operation in Hadd. apply bind_Ok in Hadd as [p [Hp Hadd]].
    destruct (make_node g (Some parent) (subgraph_ p) (scalars_ p ++ [op]) op "operation"
                        ("WITH *, " ++ op ++ " as ...")%string None) as [g1 n1] eqn:Hm.
    injection Hadd as <- <-.
    destruct (make_node_spec _ _ _ _ _ _ _ _ _ _ Hnum Hc (node_data_In _ _ _ Hp) Hm)
      as [Hfresh [_ Hadj]].
    pose proof (filters_no_operation_new_node g g1 parent n1 _ IH Hc Hfresh Hadj) as H1.
    clear - H1. revert g1 H1. induction deps as [| x r IHr]; intros g1 H1; [exact H1 |].
    cbn [fold_left]. apply IHr. now apply filters_no_operation_untyped.
Qed.

Transparent make_node.

Lemma any_operation_true (g : Graph) v : forall us,
  any_operation g (map (fun u => (u, v)) us) = Ok true ->
  exists u e, nx.edge_attrs g u v = Some e /\ type_ e = Some "operation".
Proof.
  induction us as [| u r IH]; cbn [map any_operation]; [discriminate |].
  intros Hany. apply bind_Ok in Hany as [d [Hd Hany]].
  apply bind_Ok in Hany as [t [Ht Hany]].
  destruct (nx.edge_attrs g u v) as [e |] eqn:He; [| discriminate].
  injection Hd as ->. destruct (type_ d) as [t' |] eqn:Htd; [| discriminate].
  injection Ht as ->.
  destruct (String.eqb t "operation") eqn:Hop; [| now apply IH].
  apply String.eqb_eq in Hop. subst t. eauto.
Qed.

Lemma any_operation_Raise (g : Graph) es e :
  any_operation g es = Raise e -> e = KeyError.
Proof.
  induction es as [| [u v] r IH]; cbn [any_operation]; [discriminate |].
  destruct (nx.edge_attrs g u v) as [d |]; cbn [from_option bind];
    [| now intros [= <-]].
  destruct (type_ d) as [t |]; cbn [from_option bind]; [| now intros [= <-]].
  destruct (String.eqb t "operation"); [discriminate | exact IH].
Qed.

(** X17: after builder calls that all return and that name as dependencies
    only nodes the graph already has, [rephrase_filtered_operations] never
    raises its [NotImplementedError]: the node a filter edge leads to is new
    when the edge is made, and the edges that reach it later are dependency
    and "wrt" edges, never an operation.  The function passes, or it fails
    with [KeyError] on an edge without a type. *)
Theorem rephrase_never_finds_a_filtered_operation (calls : list BuilderCall) (g : Graph) :
  builder_calls (G QueryGraph_init) calls = Ok g ->
  dependencies_known (G QueryGraph_init) calls = true ->
  rephrase_filtered_operations g = Passed \/
  rephrase_filtered_operations g = Failed KeyError.
Proof.
  intros Hcalls Hknown.
  pose proof (builder_calls_built calls (G QueryGraph_init) g built_init Hcalls Hknown)
    as Hb.
  pose proof (built_filters_no_operation g Hb) as Hinv.
  unfold rephrase_filtered_operations.
  induction (nx.edges g) as [| [u v] r IH]; cbn [rephrase_edges]; [now left |].
  destruct (nx.edge_attrs g u v) as [e |] eqn:He; cbn [from_option bind];
    [| now right].
  destruct (type_ e) as [t |] eqn:Ht; cbn [from_option]; [| now right].
  destruct (String.eqb t "filter") eqn:Hf; [| exact IH].
  apply String.eqb_eq in Hf. subst t.
  destruct (any_operation g (nx.in_edges g v)) as [[|] | e0] eqn:Hany;
    [| exact IH | right; now rewrite (any_operation_Raise _ _ _ Hany)].
  exfalso. apply any_operation_true in Hany as [u' [e' [He' Hop]]].
  apply lookup_edge_Some in He. apply lookup_edge_Some in He'.
  exact (Hinv _ _ _ _ _ He He' Ht Hop).
Qed.

Lemma rephrase_passes_the_scenario :
  rephrase_filtered_operations (fst scenario) = Passed \/
  rephrase_filtered_operations (fst scenario) = Failed KeyError.
Proof.
  apply (rephrase_never_finds_a_filtered_operation scenario_calls (fst scenario));
    vm_compute; reflexivity.
Defined.

(** ** The reachability snapshot of a traversal *)

Lemma has_edge_add_edge (sg : NameGraph) u v a b :
  nx.has_edge (nx.add_edge sg u v tt) a b = true <->
  (a, b) = (u, v) \/ nx.has_edge sg a b = true.
Proof.
  unfold nx.has_edge.
  destruct (pair_eqb (a, b) (u, v)) eqn:Hk.
  - apply pair_eqb_eq in Hk. injection Hk as -> ->.
    rewrite edge_attrs_add_edge_same. split; auto.
  - apply pair_eqb_neq in Hk. rewrite edge_attrs_add_edge_other by exact Hk.
    split; [auto | intros [Heq | H]; [congruence | exact H]].
Qed.

Lemma has_edge_add_edges (pairs : list (string * string)) : forall (sg : NameGraph) a b,
  nx.has_edge (fold_left (fun sg ab => nx.add_edge sg (fst ab) (snd ab) tt) pairs sg) a b
  = true <->
  In (a, b) pairs \/ nx.has_edge sg a b = true.
Proof.
  induction pairs as [| [u v] r IH]; intros sg a b; cbn [fold_left fst snd].
  - simpl. tauto.
  - rewrite IH, has_edge_add_edge. simpl. split.
    + intros [H | [H | H]]; auto.
    + intros [[H | H] | H]; auto.
Qed.

Opaque make_node.

(** X18: the node [add_traversal] makes is named by the last item of the path
    and has no scalars; its reachability snapshot is that of the parent
    with an edge from the parent's name to the first item of the path and
    an edge from every item of the path to the next. *)
Theorem add_traversal_extends_the_snapshot
    (g g' : Graph) (parent n : string) (path : list string) :
  built g ->
  add_traversal g parent path = Ok (g', n) ->
  exists dp dn first,
    node_data g parent = Ok dp /\
    node_data g' n = Ok dn /\
    hd_error path = Some first /\
    name_ dn = last path "" /\
    scalars_ dn = [] /\
    i_ dn = nx.number_of_nodes g /\
    forall a b,
      nx.has_edge (subgraph_ dn) a b = true <->
      In (a, b) (combine (removelast path) (tl path)) \/
      (a, b) = (name_ dp, first) \/
      nx.has_edge (subgraph_ dp) a b = true.
Proof.
  intros Hb Hadd.
  destruct (built_invariant g Hb) as [Hnum Hfwd].
  pose proof (forward_closed g Hfwd) as Hc.
  unfold add_traversal in Hadd.
  apply bind_Ok in Hadd as [dp [Hdp Hadd]]. apply bind_Ok in Hadd as [p0 [Hp0 Hadd]].
  destruct (hd_error path) as [first |] eqn:Hfirst; [| discriminate].
  injection Hp0 as <-.
  destruct (make_node _ _ _ _ _ _ _ _) as [g1 n1] eqn:Hm.
  injection Hadd as <- <-.
  destruct (make_node_spec _ _ _ _ _ _ _ _ _ _ Hnum Hc (node_data_In _ _ _ Hdp) Hm)
    as [Hfresh [Hnode _]].
  eexists dp, _, first. split; [exact Hdp |]. split.
  - unfold node_data, nx.node_attrs. rewrite Hnode.
    rewrite lookup_app_r by exact Hfresh. cbn [nx.lookup]. rewrite String.eqb_refl.
    reflexivity.
  - cbn [name_ scalars_ i_ subgraph_]. repeat split; try reflexivity.
    + intros H. apply has_edge_add_edges in H. rewrite has_edge_add_edge in H. exact H.
    + intros H. apply has_edge_add_edges. rewrite has_edge_add_edge. exact H.
Qed.

Transparent make_node.

Lemma add_traversal_snapshot_of_the_run :
  exists dp dn first,
    node_data (fst scenario_OB) (snd scenario_OB) = Ok dp /\
    node_data (fst scenario_run) (snd scenario_run) = Ok dn /\
    hd_error ["run"] = Some first /\
    name_ dn = last ["run"] "" /\
    scalars_ dn = [] /\
    i_ dn = nx.number_of_nodes (fst scenario_OB) /\
    forall a b,
      nx.has_edge (subgraph_ dn) a b = true <->
      In (a, b) (combine (removelast ["run"]) (tl ["run"])) \/
      (a, b) = (name_ dp, first) \/
      nx.has_edge (subgraph_ dp) a b = true.
Proof.
  apply (add_traversal_extends_the_snapshot (fst scenario_OB) (fst scenario_run)
           (snd scenario_OB) (snd scenario_run) ["run"]).
  - apply (@built_traversal (G QueryGraph_init) data_label ["OB"] (fst scenario_OB)
             (snd scenario_OB) built_init).
    vm_compute. reflexivity.
  - vm_compute. reflexivity.
Defined.

(** ** Saving the state *)

Lemma node_data_Raise (g : Graph) n e : node_data g n = Raise e -> e = KeyError.
Proof.
  unfold node_data. destruct (nx.node_attrs g n) as [[d |] |]; congruence.
Qed.

Lemma add_aggregation_Raise (g : Graph) parent wrt op ty e :
  add_aggregation g parent wrt op ty = Raise e -> e = KeyError.
Proof.
  unfold add_aggregation.
  destruct (node_data g wrt) as [w | e1] eqn:Hw; cbn [bind];
    [| intros [= <-]; exact (node_data_Raise _ _ _ Hw)].
  destruct (node_data g parent) as [p | e2] eqn:Hp; cbn [bind];
    [| intros [= <-]; exact (node_data_Raise _ _ _ Hp)].
  destruct (make_node _ _ _ _ _ _ _ _). discriminate.
Qed.

(** [save_state] reads the edge from [wrt] to [node]. *)
Lemma save_state_without_the_edge (g : Graph) wrt node :
  wrt <> node -> nx.has_edge g wrt node = false -> save_state g wrt node = Raise KeyError.
Proof.
  intros Hne Hno. unfold save_state.
  destruct (add_aggregation g node wrt "save-state" "save-state") as [[g1 agg] | e] eqn:Ha.
  - cbn [bind].
    destruct (add_aggregation_edge_attrs _ _ _ _ _ _ _ Ha) as [_ [_ [_ Hother]]].
    rewrite (Hother wrt node) by congruence.
    unfold nx.has_edge in Hno. destruct (nx.edge_attrs g wrt node); [discriminate |].
    reflexivity.
  - cbn [bind]. now rewrite (add_aggregation_Raise _ _ _ _ _ _ Ha).
Qed.

(** X19: inside a branch the compiler saves the state with respect to the node
    the frame started from.  When the successor that is used outside of the
    branch is not next to that node, [save_state] finds no edge between the
    two: the statement is yielded and the compiler ends with [KeyError]. *)
Theorem state_is_saved_only_next_to_the_start
    (fuel : nat) (original_graph : Graph) (G dag backwards : View) (g : Graph)
    (output node start successor : string) (statement : Statement) :
  next_step original_graph G dag backwards node true = Ok (Advance successor statement) ->
  successor <> output ->
  read G original_graph = Ok g ->
  has_outside_dependencies original_graph g successor = Ok true ->
  start <> successor ->
  nx.has_edge original_graph start successor = false ->
  emitted (traverse_loop (S fuel) original_graph G dag backwards output node start true)
  = [statement] /\
  raised (traverse_loop (S fuel) original_graph G dag backwards output node start true)
  = Some KeyError.
Proof.
  intros Hstep Hout Hg Hdeps Hne Hno.
  rewrite traverse_loop_S, Hstep.
  assert (Hc : consume_edge original_graph G dag backwards output node start successor true
               = Raise KeyError).
  { unfold consume_edge.
    replace (String.eqb successor output) with false
      by (symmetry; now apply String.eqb_neq).
    cbn [andb negb]. rewrite Hg. cbn [bind]. rewrite Hdeps. cbn [bind].
    now rewrite (save_state_without_the_edge original_graph start successor Hne Hno). }
  rewrite Hc. split; reflexivity.
Qed.

Lemma state_is_not_saved_at_the_red_runs :
  emitted (traverse_loop 1 deep_graph (fst (fst deep_frame)) (snd (fst deep_frame))
                         (snd deep_frame) deep_count deep_run deep_OB true)
  = [deep_statement] /\
  raised (traverse_loop 1 deep_graph (fst (fst deep_frame)) (snd (fst deep_frame))
                        (snd deep_frame) deep_count deep_run deep_OB true)
  = Some KeyError.
Proof.
  apply (state_is_saved_only_next_to_the_start 0 deep_graph (fst (fst deep_frame))
           (snd (fst deep_frame)) (snd deep_frame)
           (match read (fst (fst deep_frame)) deep_graph with
            | Ok g => g
            | Raise _ => nx.empty
            end)
           deep_count deep_run deep_OB deep_red deep_statement).
  - vm_compute. reflexivity.
  - vm_compute. discriminate.
  - vm_compute. reflexivity.
  - vm_compute. reflexivity.
  - vm_compute. discriminate.
  - vm_compute. reflexivity.
Defined.

(** ** Saving the state: what [save_state] does to the graph *)

Lemma closed_add_edge (g : Graph) u v a :
  closed g -> In u (nx.nodes g) -> In v (nx.nodes g) -> closed (nx.add_edge g u v a).
Proof.
  intros Hc Hu Hv. rewrite (add_edge_nodes _ _ _ _ Hu Hv).
  intros x y e Hin. cbn [nx._adj] in Hin. unfold nx.nodes. cbn [nx._node].
  apply update_edge_In in Hin as [Hin | [old Hin]].
  - exact (Hc _ _ _ Hin).
  - injection Hin as -> -> _. auto.
Qed.

Lemma remove_edge_nodes (g g' : Graph) u v :
  nx.remove_edge g u v = Ok g' -> nx._node g' = nx._node g.
Proof.
  unfold nx.remove_edge. destruct (nx.has_edge g u v); [| discriminate].
  now intros [= <-].
Qed.

Lemma closed_remove_edge (g g' : Graph) u v :
  nx.remove_edge g u v = Ok g' -> closed g -> closed g'.
Proof.
  intros Hr Hc x y e Hin. unfold nx.nodes. rewrite (remove_edge_nodes _ _ _ _ Hr).
  unfold nx.remove_edge in Hr. destruct (nx.has_edge g u v); [| discriminate].
  injection Hr as <-. cbn [nx._adj] in Hin. apply filter_In in Hin as [Hin _].
  exact (Hc _ _ _ Hin).
Qed.

Lemma numbered_same_nodes (g g' : Graph) :
  nx._node g' = nx._node g -> numbered g -> numbered g'.
Proof. unfold numbered. now intros ->. Qed.

Lemma edge_attrs_set_edge_attrs (g : Graph) u v D x y :
  nx.edge_attrs (set_edge_attrs g u v D) x y
  = if pair_eqb (x, y) (u, v)
    then match nx.edge_attrs g u v with Some _ => Some D | None => None end
    else nx.edge_attrs g x y.
Proof.
  unfold nx.edge_attrs, set_edge_attrs. cbn [nx._adj].
  induction (nx._adj g) as [| [k d] r IH]; cbn [map nx.lookup_edge fst].
  - now destruct (pair_eqb (x, y) (u, v)).
  - destruct (pair_eqb k (u, v)) eqn:Hk; cbn [nx.lookup_edge fst].
    + apply pair_eqb_eq in Hk. subst k.
      destruct (pair_eqb (u, v) (x, y)) eqn:Hxy.
      * apply pair_eqb_eq in Hxy. rewrite <- Hxy. now rewrite pair_eqb_refl.
      * replace (pair_eqb (x, y) (u, v)) with false; [| symmetry; apply pair_eqb_neq;
          apply pair_eqb_neq in Hxy; congruence].
        rewrite IH. replace (pair_eqb (x, y) (u, v)) with false; [reflexivity |].
        symmetry. apply pair_eqb_neq. apply pair_eqb_neq in Hxy. congruence.
    + destruct (pair_eqb k (x, y)) eqn:Hxy.
      * apply pair_eqb_eq in Hxy. subst k.
        now rewrite Hk.
      * rewrite IH. destruct (pair_eqb (x, y) (u, v)); reflexivity.
Qed.

Lemma succ_set_edge_attrs (g : Graph) u v D n :
  nx.succ (set_edge_attrs g u v D) n = nx.succ g n.
Proof.
  unfold nx.succ, set_edge_attrs. cbn [nx._adj].
  induction (nx._adj g) as [| [k d] r IH]; [reflexivity |].
  cbn [map filter fst snd].
  destruct (pair_eqb k (u, v)); cbn [fst snd];
    destruct (String.eqb (fst k) n); cbn [map fst snd]; now rewrite IH.
Qed.

Lemma closed_set_edge_attrs (g : Graph) u v D :
  closed g -> closed (set_edge_attrs g u v D).
Proof.
  intros Hc x y e Hin. unfold set_edge_attrs in *. cbn [nx._adj] in Hin.
  unfold nx.nodes. cbn [nx._node].
  apply in_map_iff in Hin as [[k d] [Heq Hin]]. cbn [fst] in Heq.
  destruct (pair_eqb k (u, v)); injection Heq as -> _; exact (Hc _ _ _ Hin).
Qed.

Opaque make_node.

(** One pass of the loop of [save_state], for a successor other than the
    save-state node. *)
Lemma load_successor_spec (gx : Graph) wrt node agg s nd LS sd lab ty op :
  numbered gx -> closed gx ->
  s <> agg -> wrt <> node ->
  node_data gx node = Ok nd ->
  nx.edge_attrs gx wrt node = Some LS ->
  label_ LS = Some lab -> type_ LS = Some ty -> operation_ LS = Some op ->
  nx.edge_attrs gx node s = Some sd ->
  exists ls gx',
    load_successor wrt node agg (Ok gx) s = Ok gx' /\
    ~ In ls (nx.nodes gx) /\
    nx.nodes gx' = nx.nodes gx ++ [ls] /\
    numbered gx' /\ closed gx' /\
    (forall k dk, node_data gx k = Ok dk -> node_data gx' k = Ok dk) /\
    nx.edge_attrs gx' node s = None /\
    nx.edge_attrs gx' ls s = Some sd /\
    nx.edge_attrs gx' wrt ls
    = Some {| type_ := Some ty; label_ := Some (ty ++ "-" ++ op)%string;
              operation_ := Some op; style_ := style_ LS |} /\
    (forall x y, (x, y) <> (node, s) -> (x, y) <> (wrt, ls) -> (x, y) <> (ls, s) ->
                 nx.edge_attrs gx' x y = nx.edge_attrs gx x y).
Proof.
  intros Hnum Hc Hsa Hwn Hnd HLS Hlab Hty Hop Hsd.
  destruct (closed_edge_attrs gx wrt node LS Hc HLS) as [Hwrt Hnode].
  destruct (closed_edge_attrs gx node s sd Hc Hsd) as [_ Hs].
  unfold load_successor. cbn [bind].
  replace (String.eqb s agg) with false by (symmetry; now apply String.eqb_neq).
  cbn [negb]. rewrite Hnd. cbn [bind]. rewrite HLS. cbn [from_option bind].
  rewrite Hlab, Hty, Hop. cbn [from_option bind].
  destruct (make_node gx (Some wrt) (subgraph_ nd) [] lab ty op (style_ LS))
    as [g1 ls] eqn:Hm.
  pose proof (make_node_label _ _ _ _ _ _ _ _ _ _ Hm) as Hid.
  destruct (make_node_spec _ _ _ _ _ _ _ _ _ _ Hnum Hc Hwrt Hm) as [Hfresh [Hn1 Ha1]].
  destruct (make_node_edge_attrs _ _ _ _ _ _ _ _ _ _ Hm) as [_ Hother1].
  assert (Hnodes1 : nx.nodes g1 = nx.nodes gx ++ [ls]).
  { unfold nx.nodes. now rewrite Hn1, map_app. }
  assert (Hls1 : In ls (nx.nodes g1)).
  { rewrite Hnodes1. apply in_or_app. right. now left. }
  assert (Hold1 : forall k, In k (nx.nodes gx) -> In k (nx.nodes g1)).
  { intros k Hk. rewrite Hnodes1. apply in_or_app. now left. }
  assert (Hc1 : closed g1).
  { intros u v e Hin. rewrite Ha1 in Hin. apply in_app_or in Hin as [Hin | [Hin | []]].
    - destruct (Hc _ _ _ Hin). auto.
    - injection Hin as <- <- _. auto. }
  assert (Hlsne : forall k, In k (nx.nodes gx) -> k <> ls).
  { intros k Hk ->. contradiction. }
  assert (Hsd1 : nx.edge_attrs g1 node s = Some sd).
  { rewrite Hother1; [exact Hsd |]. intros [= Heq _]. now apply Hwn. }
  rewrite Hsd1. cbn [from_option bind].
  set (g2 := nx.add_edge g1 ls s sd).
  assert (Hnone : nx.edge_attrs g1 ls s = None).
  { destruct (nx.edge_attrs g1 ls s) as [d |] eqn:Hd; [| reflexivity].
    rewrite Hother1 in Hd.
    - destruct (closed_edge_attrs gx ls s d Hc Hd) as [Hin _]. contradiction.
    - intros [= Heq _]. apply (Hlsne wrt Hwrt). now symmetry. }
  assert (Hsd2 : nx.edge_attrs g2 node s = Some sd).
  { unfold g2. rewrite edge_attrs_add_edge_other; [exact Hsd1 |].
    intros [= Heq]. exact (Hlsne node Hnode Heq). }
  destruct (nx.remove_edge g2 node s) as [g3 | e] eqn:Hr.
  2: { unfold nx.remove_edge, nx.has_edge in Hr. rewrite Hsd2 in Hr. discriminate. }
  assert (Hn3 : nx._node g3 = nx._node g1).
  { rewrite (remove_edge_nodes _ _ _ _ Hr). unfold g2.
    now rewrite (add_edge_nodes _ _ _ _ Hls1 (Hold1 s Hs)). }
  exists ls, g3. split; [reflexivity |]. split; [exact Hfresh |].
  split; [unfold nx.nodes in *; now rewrite Hn3 |].
  split.
  { apply (numbered_same_nodes g1 g3 Hn3).
    destruct g1 as [node1 adj1]. cbn [nx._node nx._adj] in *. subst node1.
    apply numbered_snoc; auto. }
  split.
  { apply (closed_remove_edge g2 g3 node s Hr).
    apply closed_add_edge; auto. }
  split.
  { intros k dk Hk. unfold node_data, nx.node_attrs. rewrite Hn3, Hn1.
    pose proof (node_data_In _ _ _ Hk) as Hin.
    rewrite lookup_app_l by exact Hin. exact Hk. }
  split; [exact (edge_attrs_remove_edge_same _ _ _ _ Hr) |].
  split.
  { rewrite (edge_attrs_remove_edge_other _ _ _ _ ls s Hr).
    - unfold g2. rewrite edge_attrs_add_edge_same, Hnone. now rewrite update_no_attrs_edge.
    - intros [= Heq]. exact (Hlsne node Hnode (eq_sym Heq)). }
  split.
  { rewrite (edge_attrs_remove_edge_other _ _ _ _ wrt ls Hr).
    - unfold g2. rewrite edge_attrs_add_edge_other.
      + unfold nx.edge_attrs. rewrite Ha1.
        rewrite lookup_edge_app_r.
        * cbn [nx.lookup_edge]. now rewrite pair_eqb_refl.
        * exact (edge_key_of_fresh_r gx ls wrt Hc Hfresh).
      + intros [= Heq _]. exact (Hlsne wrt Hwrt Heq).
    - intros [= Heq _]. now apply Hwn. }
  intros x y H1 H2 H3.
  rewrite (edge_attrs_remove_edge_other _ _ _ _ x y Hr) by exact H1.
  unfold g2. rewrite edge_attrs_add_edge_other by exact H3.
  now apply Hother1.
Qed.

Transparent make_node.

(** The loop of [save_state] over successors other than the save-state
    node. *)
Lemma load_successors_spec wrt node agg nd LS lab ty op :
  wrt <> node ->
  label_ LS = Some lab -> type_ LS = Some ty -> operation_ LS = Some op ->
  forall (ss : list string) (gx : Graph),
    numbered gx -> closed gx ->
    node_data gx node = Ok nd ->
    nx.edge_attrs gx wrt node = Some LS ->
    NoDup ss -> ~ In agg ss ->
    (forall s, In s ss -> nx.edge_attrs gx node s <> None) ->
    exists gx',
      fold_left (load_successor wrt node agg) ss (Ok gx) = Ok gx' /\
      numbered gx' /\ closed gx' /\
      incl (nx.nodes gx) (nx.nodes gx') /\
      (forall s, In s ss ->
         nx.edge_attrs gx' node s = None /\
         exists ls, ~ In ls (nx.nodes gx) /\
                    nx.edge_attrs gx' ls s = nx.edge_attrs gx node s /\
                    nx.edge_attrs gx' wrt ls
                    = Some {| type_ := Some ty; label_ := Some (ty ++ "-" ++ op)%string;
                              operation_ := Some op; style_ := style_ LS |}) /\
      (forall v, ~ In v ss -> nx.edge_attrs gx' node v = nx.edge_attrs gx node v) /\
      (forall x y, x <> node -> In x (nx.nodes gx) -> In y (nx.nodes gx) ->
                   nx.edge_attrs gx' x y = nx.edge_attrs gx x y).
Proof.
  intros Hwn Hlab Hty Hop.
  induction ss as [| s r IH]; intros gx Hnum Hc Hnd HLS Hnodup Hagg Hedges.
  - exists gx. cbn [fold_left]. split; [reflexivity |]. split; [exact Hnum |].
    split; [exact Hc |]. split; [apply incl_refl |].
    split; [intros s [] |]. split; reflexivity.
  - inversion Hnodup as [| ? ? Hsr Hr]; subst.
    destruct (nx.edge_attrs gx node s) as [sd |] eqn:Hsd;
      [| now destruct (Hedges s (or_introl eq_refl))].
    assert (Hsa : s <> agg) by (intros ->; apply Hagg; now left).
    destruct (load_successor_spec gx wrt node agg s nd LS sd lab ty op
                Hnum Hc Hsa Hwn Hnd HLS Hlab Hty Hop Hsd)
      as [ls [g1 [Hstep [Hfresh [Hnodes1 [Hnum1 [Hc1 [Hdata1 [Hgone [Hls [Hwls Hframe]]]]]]]]]]].
    destruct (closed_edge_attrs gx wrt node LS Hc HLS) as [Hwrt Hnode].
    destruct (closed_edge_attrs gx node s sd Hc Hsd) as [_ Hs].
    assert (Hne : forall k, In k (nx.nodes gx) -> k <> ls) by (intros k Hk ->; contradiction).
    assert (Hold : incl (nx.nodes gx) (nx.nodes g1)).
    { intros k Hk. rewrite Hnodes1. apply in_or_app. now left. }
    assert (Hls1 : In ls (nx.nodes g1)).
    { rewrite Hnodes1. apply in_or_app. right. now left. }
    assert (HLS1 : nx.edge_attrs g1 wrt node = Some LS).
    { rewrite Hframe; [exact HLS | | |].
      - intros [= Heq _]. now apply Hwn.
      - intros [= Heq]. exact (Hne node Hnode Heq).
      - intros [= Heq _]. exact (Hne wrt Hwrt Heq). }
    assert (Hnode1 : forall v, v <> s -> nx.edge_attrs g1 node v = nx.edge_attrs gx node v).
    { intros v Hv. apply Hframe.
      - intros [= Heq]. now apply Hv.
      - intros [= Heq _]. now apply Hwn.
      - intros [= Heq _]. exact (Hne node Hnode Heq). }
    destruct (IH g1 Hnum1 Hc1 (Hdata1 _ _ Hnd) HLS1 Hr)
      as [g' [Hfold [Hnum' [Hc' [Hincl' [Hmoved [Hkept Hframe']]]]]]].
    { intros Hin. apply Hagg. now right. }
    { intros s' Hs'. rewrite Hnode1; [apply Hedges; now right |].
      intros ->. contradiction. }
    exists g'. cbn [fold_left]. rewrite Hstep.
    split; [exact Hfold |]. split; [exact Hnum' |]. split; [exact Hc' |].
    split; [intros k Hk; apply Hincl'; now apply Hold |].
    split; [| split].
    + intros s' [<- | Hs'].
      * split; [rewrite (Hkept s Hsr); exact Hgone |].
        exists ls. split; [exact Hfresh |]. split.
        -- rewrite Hsd, <- Hls. apply Hframe'; auto.
           intros Heq. exact (Hne node Hnode (eq_sym Heq)).
        -- rewrite <- Hwls. apply Hframe'; auto.
      * destruct (Hmoved s' Hs') as [Hnone [ls' [Hfresh' [Hls' Hwls']]]].
        split; [exact Hnone |]. exists ls'.
        split; [intros Hin; apply Hfresh'; now apply Hold |].
        split; [| exact Hwls'].
        rewrite Hls'. apply Hnode1. intros ->. contradiction.
    + intros v Hv. rewrite Hkept by (intros Hin; apply Hv; now right).
      apply Hnode1. intros ->. apply Hv. now left.
    + intros x y Hx Hinx Hiny. rewrite Hframe' by auto.
      apply Hframe.
      * intros [= Heq _]. now apply Hx.
      * intros [= _ Heq]. exact (Hne y Hiny Heq).
      * intros [= Heq _]. exact (Hne x Hinx Heq).
Qed.

Opaque make_node.

(** X20: [save_state graph wrt node] on a numbered graph with the edge
    [(wrt, node)] returns a new save-state node, which becomes the only
    successor of [node] and points back to [wrt]; the edge [(wrt, node)]
    becomes a load-state edge that keeps its style; every former successor
    of [node] keeps its edge dict but is now reached from [wrt] through a
    new loaded-state node; an edge that does not leave [node] and is not
    [(wrt, node)] is left as it was.  [closed] and the absence of a repeated
    successor hold of every networkx graph; [numbered] holds of every graph
    the builder made, and keeps the labels [make_node] creates fresh. *)
Theorem save_state_moves_the_successors (g : Graph) wrt node d :
  numbered g -> closed g -> wrt <> node ->
  nx.edge_attrs g wrt node = Some d -> NoDup (nx.succ g node) ->
  exists g' agg nd,
    save_state g wrt node = Ok (g', agg) /\
    node_data g node = Ok nd /\
    ~ In agg (nx.nodes g) /\
    (forall v, nx.has_edge g' node v = true <-> v = agg) /\
    nx.edge_attrs g' node agg
    = Some {| type_ := Some "save-state"; label_ := Some "save-state-save-state";
              operation_ := Some "save-state"; style_ := None |} /\
    nx.edge_attrs g' agg wrt
    = Some {| type_ := Some "wrt"; label_ := None; operation_ := None;
              style_ := Some "dashed" |} /\
    nx.edge_attrs g' wrt node
    = Some {| type_ := Some "load-state";
              label_ := Some ("load-state " ++ name_ nd)%string;
              operation_ := Some "load-state"; style_ := style_ d |} /\
    (forall s sd, nx.edge_attrs g node s = Some sd ->
       exists ls, ~ In ls (nx.nodes g) /\
                  nx.edge_attrs g' ls s = Some sd /\
                  nx.edge_attrs g' wrt ls
                  = Some {| type_ := Some "load-state";
                            label_ := Some "load-state-load-state";
                            operation_ := Some "load-state"; style_ := style_ d |}) /\
    (forall x y, x <> node -> (x, y) <> (wrt, node) ->
                 In x (nx.nodes g) -> In y (nx.nodes g) ->
                 nx.edge_attrs g' x y = nx.edge_attrs g x y).
Proof.
  intros Hnum Hc Hwn Hd Hnodup.
  destruct (closed_edge_attrs g wrt node d Hc Hd) as [Hwrt Hnode].
  destruct (numbered_node_data g wrt Hnum Hwrt) as [w [Hw _]].
  destruct (numbered_node_data g node Hnum Hnode) as [p [Hp _]].
  unfold save_state, add_aggregation. rewrite Hw, Hp. cbn [bind].
  destruct (make_node g (Some node) (subgraph_ w) (scalars_ p ++ ["save-state"])
              "save-state" "save-state" "save-state" None) as [g1 agg] eqn:Hm.
  cbn [bind].
  pose proof (make_node_label _ _ _ _ _ _ _ _ _ _ Hm) as Hid.
  destruct (make_node_spec _ _ _ _ _ _ _ _ _ _ Hnum Hc Hnode Hm) as [Hfresh [Hn1 Ha1]].
  assert (Hne : forall k, In k (nx.nodes g) -> k <> agg) by (intros k Hk ->; contradiction).
  assert (Hnodes1 : nx.nodes g1 = nx.nodes g ++ [agg]).
  { unfold nx.nodes. now rewrite Hn1, map_app. }
  assert (Hold1 : forall k, In k (nx.nodes g) -> In k (nx.nodes g1)).
  { intros k Hk. rewrite Hnodes1. apply in_or_app. now left. }
  assert (Hagg1 : In agg (nx.nodes g1)).
  { rewrite Hnodes1. apply in_or_app. right. now left. }
  assert (Hc1 : closed g1).
  { intros u v e Hin. rewrite Ha1 in Hin. apply in_app_or in Hin as [Hin | [Hin | []]].
    - destruct (Hc _ _ _ Hin). auto.
    - injection Hin as <- <- _. auto. }
  assert (Hnum1 : numbered g1).
  { destruct g1 as [node1 adj1]. cbn [nx._node nx._adj] in *. subst node1.
    apply numbered_snoc; auto. }
  set (W := {| type_ := Some "wrt"; label_ := None; operation_ := None;
               style_ := Some "dashed" |}).
  set (g2 := nx.add_edge g1 agg wrt W).
  assert (Hkey : ~ In (agg, wrt) (map fst (nx._adj g1))).
  { rewrite Ha1, map_app. intros Hin. apply in_app_or in Hin as [Hin | [Hin | []]].
    - exact (edge_key_of_fresh_l g agg wrt Hc Hfresh Hin).
    - cbn [fst] in Hin. injection Hin as Heq _. exact (Hne node Hnode Heq). }
  assert (Hg2 : g2 = {| nx._node := nx._node g1;
                        nx._adj := nx._adj g1 ++ [((agg, wrt), W)] |}).
  { unfold g2. rewrite (add_edge_nodes _ _ _ _ Hagg1 (Hold1 wrt Hwrt)).
    rewrite (update_edge_fresh _ _ _ Hkey). now rewrite update_no_attrs_edge. }
  assert (Hn2 : nx._node g2 = nx._node g1) by now rewrite Hg2.
  assert (Ha2 : nx._adj g2
                = nx._adj g ++ [((node, agg), {| type_ := Some "save-state";
                                                 label_ := Some "save-state-save-state";
                                                 operation_ := Some "save-state";
                                                 style_ := None |}); ((agg, wrt), W)]).
  { rewrite Hg2. cbn [nx._adj]. rewrite Ha1, <- app_assoc. reflexivity. }
  assert (Hc2 : closed g2) by (apply closed_add_edge; auto).
  assert (Hnum2 : numbered g2) by exact (numbered_same_nodes g1 g2 Hn2 Hnum1).
  assert (Hold_edges : forall x y, In x (nx.nodes g) ->
                                   nx.edge_attrs g2 x y
                                   = if pair_eqb (x, y) (node, agg)
                                     then Some {| type_ := Some "save-state";
                                                  label_ := Some "save-state-save-state";
                                                  operation_ := Some "save-state";
                                                  style_ := None |}
                                     else nx.edge_attrs g x y).
  { intros x y Hx. unfold nx.edge_attrs. rewrite Ha2.
    destruct (nx.lookup_edge (x, y) (nx._adj g)) as [e |] eqn:He.
    - replace (pair_eqb (x, y) (node, agg)) with false.
      + clear - He. induction (nx._adj g) as [| [k v] r IH]; [discriminate |].
        cbn [app nx.lookup_edge] in *. destruct (pair_eqb k (x, y)); auto.
      + symmetry. apply pair_eqb_neq. intros [= -> ->].
        destruct (closed_edge_attrs g node agg e Hc He) as [_ Hin]. contradiction.
    - rewrite lookup_edge_app_r.
      + cbn [nx.lookup_edge].
        destruct (pair_eqb (node, agg) (x, y)) eqn:Hxy.
        * apply pair_eqb_eq in Hxy. rewrite <- Hxy. now rewrite pair_eqb_refl.
        * replace (pair_eqb (x, y) (node, agg)) with false.
          2: { symmetry. apply pair_eqb_neq. apply pair_eqb_neq in Hxy. congruence. }
          replace (pair_eqb (agg, wrt) (x, y)) with false; [reflexivity |].
          symmetry. apply pair_eqb_neq. intros [= <- _]. contradiction.
      + intros Hin. apply in_map_iff in Hin as [[k e] [Hk Hin]]. cbn [fst] in Hk. subst k.
        clear - He Hin. induction (nx._adj g) as [| [k v] r IH]; [contradiction |].
        cbn [nx.lookup_edge] in He. destruct (pair_eqb k (x, y)) eqn:Hk; [discriminate |].
        destruct Hin as [Hin | Hin]; auto.
        injection Hin as -> _. now rewrite pair_eqb_refl in Hk. }
  assert (Hd2 : nx.edge_attrs g2 wrt node = Some d).
  { rewrite (Hold_edges wrt node Hwrt).
    replace (pair_eqb (wrt, node) (node, agg)) with false; [exact Hd |].
    symmetry. apply pair_eqb_neq. intros [= Heq _]. now apply Hwn. }
  rewrite Hd2. cbn [from_option bind].
  assert (Hp2 : node_data g2 node = Ok p).
  { unfold node_data, nx.node_attrs. rewrite Hn2, Hn1.
    rewrite lookup_app_l by exact Hnode. exact Hp. }
  rewrite Hp2. cbn [bind].
  set (D := {| type_ := Some "load-state"; label_ := Some ("load-state " ++ name_ p)%string;
               operation_ := Some "load-state"; style_ := style_ d |}).
  set (g3 := set_edge_attrs g2 wrt node D).
  assert (Hn3 : nx._node g3 = nx._node g2) by reflexivity.
  assert (Hc3 : closed g3) by (apply closed_set_edge_attrs; exact Hc2).
  assert (Hnum3 : numbered g3) by exact (numbered_same_nodes g2 g3 Hn3 Hnum2).
  assert (Hnodes3 : nx.nodes g3 = nx.nodes g ++ [agg]).
  { unfold nx.nodes. rewrite Hn3, Hn2. exact Hnodes1. }
  assert (Hold3 : forall k, In k (nx.nodes g) -> In k (nx.nodes g3)).
  { intros k Hk. rewrite Hnodes3. apply in_or_app. now left. }
  assert (He3 : forall x y, In x (nx.nodes g) -> (x, y) <> (wrt, node) ->
                            nx.edge_attrs g3 x y = nx.edge_attrs g2 x y).
  { intros x y Hx Hxy. unfold g3. rewrite edge_attrs_set_edge_attrs.
    replace (pair_eqb (x, y) (wrt, node)) with false; [reflexivity |].
    symmetry. now apply pair_eqb_neq. }
  assert (HD3 : nx.edge_attrs g3 wrt node = Some D).
  { unfold g3. rewrite edge_attrs_set_edge_attrs, pair_eqb_refl, Hd2. reflexivity. }
  assert (Hp3 : node_data g3 node = Ok p) by exact Hp2.
  assert (Hsucc3 : nx.succ g3 node = nx.succ g node ++ [agg]).
  { unfold g3. rewrite succ_set_edge_attrs. unfold nx.succ. rewrite Ha2.
    rewrite filter_app, map_app. cbn [filter fst snd].
    rewrite String.eqb_refl.
    replace (String.eqb agg node) with false; [reflexivity |].
    symmetry. apply String.eqb_neq. intros Heq. exact (Hne node Hnode (eq_sym Heq)). }
  unfold nx.successors.
  replace (nx.has_node g3 node) with true.
  2: { symmetry. apply has_node_In. exact (Hold3 node Hnode). }
  cbn [bind]. rewrite Hsucc3, fold_left_app.
  assert (Hss : forall s, In s (nx.succ g node) -> In s (nx.nodes g) /\ s <> agg).
  { intros s Hs. apply succ_In in Hs as [e Hin]. destruct (Hc _ _ _ Hin) as [_ Hs].
    split; [exact Hs | exact (Hne s Hs)]. }
  assert (Hnode3 : forall v, v <> agg -> nx.edge_attrs g3 node v = nx.edge_attrs g node v).
  { intros v Hv. rewrite He3; [| exact Hnode | intros [= Heq _]; now apply Hwn].
    rewrite (Hold_edges node v Hnode).
    replace (pair_eqb (node, v) (node, agg)) with false; [reflexivity |].
    symmetry. apply pair_eqb_neq. intros [= Heq]. now apply Hv. }
  destruct (load_successors_spec wrt node agg p D ("load-state " ++ name_ p)%string
              "load-state" "load-state" Hwn eq_refl eq_refl eq_refl
              (nx.succ g node) g3 Hnum3 Hc3 Hp3 HD3 Hnodup)
    as [g' [Hfold [Hnum' [Hc' [Hincl' [Hmoved [Hkept Hframe']]]]]]].
  { intros Hin. now destruct (Hss agg Hin). }
  { intros s Hs. rewrite Hnode3 by (now destruct (Hss s Hs)).
    now apply succ_edge_attrs. }
  rewrite Hfold. cbn [fold_left]. unfold load_successor at 1. cbn [bind].
  rewrite String.eqb_refl. cbn [negb bind].
  assert (Hagg3 : nx.edge_attrs g3 node agg
                  = Some {| type_ := Some "save-state"; label_ := Some "save-state-save-state";
                            operation_ := Some "save-state"; style_ := None |}).
  { rewrite He3; [| exact Hnode | intros [= Heq _]; now apply Hwn].
    rewrite (Hold_edges node agg Hnode). now rewrite pair_eqb_refl. }
  assert (Hnot : ~ In agg (nx.succ g node)) by (intros Hin; now destruct (Hss agg Hin)).
  exists g', agg, p.
  split; [reflexivity |]. split; [reflexivity |]. split; [exact Hfresh |].
  split.
  { intros v. rewrite has_edge_attrs. split.
    - intros Hv. destruct (String.eqb_spec v agg) as [Heq | Hneq]; [exact Heq |].
      exfalso. apply Hv.
      destruct (in_dec String.string_dec v (nx.succ g node)) as [Hin | Hout].
      + exact (proj1 (Hmoved v Hin)).
      + rewrite (Hkept v Hout), (Hnode3 v Hneq).
        destruct (nx.edge_attrs g node v) eqn:He; [| reflexivity].
        exfalso. apply Hout. apply succ_edge_attrs. now rewrite He.
    - intros ->. rewrite (Hkept agg Hnot), Hagg3. discriminate. }
  split; [now rewrite (Hkept agg Hnot) |].
  split.
  { rewrite Hframe'.
    - unfold g3. rewrite edge_attrs_set_edge_attrs.
      replace (pair_eqb (agg, wrt) (wrt, node)) with false.
      2: { symmetry. apply pair_eqb_neq. intros [= Heq _]. exact (Hne wrt Hwrt (eq_sym Heq)). }
      unfold nx.edge_attrs. rewrite Ha2.
      rewrite lookup_edge_app_r by exact (edge_key_of_fresh_l g agg wrt Hc Hfresh).
      cbn [nx.lookup_edge].
      replace (pair_eqb (node, agg) (agg, wrt)) with false.
      2: { symmetry. apply pair_eqb_neq. intros [= Heq _]. exact (Hne node Hnode Heq). }
      now rewrite pair_eqb_refl.
    - intros Heq. exact (Hne node Hnode (eq_sym Heq)).
    - rewrite Hnodes3. apply in_or_app. right. now left.
    - exact (Hold3 wrt Hwrt). }
  split.
  { rewrite Hframe'; [exact HD3 | exact Hwn | exact (Hold3 wrt Hwrt) | exact (Hold3 node Hnode)]. }
  split.
  { intros s sd Hsd.
    assert (Hin : In s (nx.succ g node)) by (apply succ_edge_attrs; now rewrite Hsd).
    destruct (Hmoved s Hin) as [_ [ls [Hls [Hlss Hwls]]]].
    exists ls. split; [intros Hk; apply Hls; exact (Hold3 ls Hk) |].
    split; [| exact Hwls].
    rewrite Hlss, Hnode3 by (now destruct (Hss s Hin)). exact Hsd. }
  intros x y Hx Hxy Hinx Hiny.
  rewrite Hframe' by auto.
  rewrite He3 by auto. rewrite (Hold_edges x y Hinx).
  replace (pair_eqb (x, y) (node, agg)) with false; [reflexivity |].
  symmetry. apply pair_eqb_neq. intros [= Heq _]. now apply Hx.
Qed.

Transparent make_node.

Lemma scenario_OB_is_not_the_run : OB_label <> run_label.
Proof.
  intros Heq. apply (f_equal (fun s => String.eqb s run_label)) in Heq.
  vm_compute in Heq. discriminate.
Qed.

Lemma scenario_run_successors : NoDup (nx.succ (fst scenario) run_label).
Proof.
  replace (nx.succ (fst scenario) run_label) with [snd scenario_red]
    by (vm_compute; reflexivity).
  constructor; [intros [] | constructor].
Qed.

Lemma save_state_moves_the_filter_of_the_runs :
  exists g' agg,
    save_state (fst scenario) OB_label run_label = Ok (g', agg) /\
    (forall v, nx.has_edge g' run_label v = true <-> v = agg) /\
    exists ls, ~ In ls (nx.nodes (fst scenario)) /\
               nx.has_edge g' ls (snd scenario_red) = true /\
               nx.has_edge g' OB_label ls = true.
Proof.
  assert (Hd : exists d, nx.edge_attrs (fst scenario) OB_label run_label = Some d).
  { vm_compute. eexists. reflexivity. }
  destruct Hd as [d Hd].
  assert (Hs : exists sd, nx.edge_attrs (fst scenario) run_label (snd scenario_red) = Some sd).
  { vm_compute. eexists. reflexivity. }
  destruct Hs as [sd Hs].
  destruct (save_state_moves_the_successors (fst scenario) OB_label run_label d
              (proj1 (built_invariant _ built_scenario))
              (forward_closed _ (proj2 (built_invariant _ built_scenario)))
              scenario_OB_is_not_the_run Hd scenario_run_successors)
    as [g' [agg [nd [Hsave [_ [_ [Honly [_ [_ [_ [Hmoved _]]]]]]]]]]].
  exists g', agg. split; [exact Hsave |]. split; [exact Honly |].
  destruct (Hmoved (snd scenario_red) sd Hs) as [ls [Hfresh [Hls Hwls]]].
  exists ls. split; [exact Hfresh |].
  unfold nx.has_edge. rewrite Hls, Hwls. split; reflexivity.
Defined.
